(** * T-LAPACK kernels: a shallow embedding and its properties

    The development embeds the following routines of the repository:
    - [Blas.geru]            (include/blas/geru.hpp)
    - [Lapack.larfb]         (include/lapack/larfb.hpp)
    - [Tlapack.rscl]         (include/tlapack/lapack/rscl.hpp)
    - [Tlapack.ungqr], [Tlapack.unmlq], [Tlapack.unmrq] and their
      workspace queries   (include/tlapack/lapack/ungqr.hpp, unmlq.hpp,
      unmrq.hpp)
    - [Starpu.slice]         (include/tlapack/plugins/starpu.hpp)

    Scalars are exact: a commutative ring with a conjugation for the
    BLAS-level kernels, the rationals for the reciprocal scaling, which
    is also instantiated for [double] ([Tlapack.Double]).  Part I holds
    the definitions, Part II the lemmas and theorems. *)

From Stdlib Require Import ZArith QArith Qabs List Bool Arith Lia Lqa.
From Stdlib Require Floats.
From Stdlib Require Import Ring Ring_theory Field Setoid Morphisms.
Import ListNotations.

Set Implicit Arguments.

(* ===================================================================== *)
(** * Part I: the model                                                  *)
(* ===================================================================== *)

(** ** Enumerations

    [enum class Layout { ColMajor = 'C', RowMajor = 'R' }] and its
    siblings are C++ enumerations over the character codes; an object of
    such a type can hold any code, which is why the routines validate
    them.  They are modelled by their codes. *)

Module Layout.
Definition ColMajor : Z := 67. (* 'C' *)
Definition RowMajor : Z := 82. (* 'R' *)
End Layout.

Module Op.
Definition NoTrans : Z := 78.   (* 'N' *)
Definition Trans : Z := 84.     (* 'T' *)
Definition ConjTrans : Z := 67. (* 'C' *)
End Op.

Module Uplo.
Definition Upper : Z := 85.   (* 'U' *)
Definition Lower : Z := 76.   (* 'L' *)
Definition General : Z := 71. (* 'G' *)
End Uplo.

Module Diag.
Definition NonUnit : Z := 78. (* 'N' *)
Definition Unit : Z := 85.    (* 'U' *)
End Diag.

Module Side.
Definition Left : Z := 76.  (* 'L' *)
Definition Right : Z := 82. (* 'R' *)
End Side.

(** Modelled from the spec: lapack/types.hpp is not among the sources; the
    spec names the members [direction ∈ {Forward, Backward}] and
    [storage ∈ {ColumnPacked, RowPacked}].  Only the distinctness of the
    codes matters below. *)
Module Direction.
Definition Forward : Z := 70.  (* 'F' *)
Definition Backward : Z := 66. (* 'B' *)
End Direction.

Module StoreV.
Definition Columnwise : Z := 67. (* 'C' *)
Definition Rowwise : Z := 82.    (* 'R' *)
End StoreV.

(** [side] and [trans] as members of their enumerations. *)
Definition valid_side (side : Z) : Prop := side = Side.Left \/ side = Side.Right.

Definition valid_trans (trans : Z) : Prop :=
  trans = Op.NoTrans \/ trans = Op.Trans \/ trans = Op.ConjTrans.

(** What fails the validation of unmlq and unmrq, [cplx] being the trait
    each consults: a [side] or a [trans] outside its enumeration, or
    [Op::Trans] on a complex type. *)
Definition rejected (cplx : bool) (side trans : Z) : Prop :=
  ~ valid_side side \/ ~ valid_trans trans \/ (trans = Op.Trans /\ cplx = true).

(** ** Scalars

    The kernels are templates over the scalar type.  [Scalar] is the
    interface they use: ring operations, [conj], the comparison
    [alpha == zero] and the trait [is_complex<T>::value]. *)

Class Scalar (R : Type) : Type := {
  s_zero : R;
  s_one : R;
  s_add : R -> R -> R;
  s_mul : R -> R -> R;
  s_sub : R -> R -> R;
  s_opp : R -> R;
  s_conj : R -> R;
  s_eqb : R -> R -> bool;
  is_complex : bool
}.

Declare Scope scalar_scope.
Delimit Scope scalar_scope with S.
Notation "0" := s_zero : scalar_scope.
Notation "1" := s_one : scalar_scope.
Infix "+" := s_add : scalar_scope.
Infix "*" := s_mul : scalar_scope.
Infix "-" := s_sub : scalar_scope.
Notation "- x" := (s_opp x) : scalar_scope.

(** The laws of exact arithmetic. *)
Class ScalarLaws (R : Type) {SR : Scalar R} : Prop := {
  scalar_ring : ring_theory s_zero s_one s_add s_mul s_sub s_opp (@eq R);
  s_eqb_eq : forall a b : R, s_eqb a b = true <-> a = b
}.

Arguments ScalarLaws R {SR}.

(** The integers: a real (not complex) scalar type. *)
#[export] Instance Z_Scalar : Scalar Z := {
  s_zero := 0%Z;
  s_one := 1%Z;
  s_add := Z.add;
  s_mul := Z.mul;
  s_sub := Z.sub;
  s_opp := Z.opp;
  s_conj := fun x => x;
  s_eqb := Z.eqb;
  is_complex := false
}.

(** Gaussian integers [a + b i]: a complex scalar type. *)
Definition Zi_mul (x y : Z * Z) : Z * Z :=
  (fst x * fst y - snd x * snd y, fst x * snd y + snd x * fst y)%Z.

#[export] Instance Zi_Scalar : Scalar (Z * Z) := {
  s_zero := (0, 0)%Z;
  s_one := (1, 0)%Z;
  s_add := fun x y => (fst x + fst y, snd x + snd y)%Z;
  s_mul := Zi_mul;
  s_sub := fun x y => (fst x - fst y, snd x - snd y)%Z;
  s_opp := fun x => (- fst x, - snd x)%Z;
  s_conj := fun x => (fst x, - snd x)%Z;
  s_eqb := fun x y => (fst x =? fst y)%Z && (snd x =? snd y)%Z;
  is_complex := true
}.

(** ** The trait [is_complex]

    [is_complex<T>] (blas types.hpp: the primary template derives from
    [integral_constant<bool, false>], its specialisation for
    [std::complex<T>] from [integral_constant<bool, true>]) answers for
    the type it is given.  The types the routines give it: a scalar type,
    real or [std::complex] of one, or the class of a matrix. *)
Module Traits.

Inductive type : Type :=
| real_number                 (* float, double, mpreal, ... *)
| std_complex (T2 : type)     (* std::complex<T2> *)
| matrix_class (T : type).    (* the class of a matrix with entries of type T *)

Definition is_complex (T : type) : bool :=
  match T with
  | std_complex _ => true
  | _ => false
  end.

End Traits.

(** ** Loops *)

(** [for (idx = 0; idx < n; ++idx) body(idx)], threading the state. *)
Fixpoint for_loop {S : Type} (n : nat) (body : nat -> S -> S) (s : S) : S :=
  match n with
  | O => s
  | Datatypes.S n' => body n' (for_loop n' body s)
  end.

(** ** Matrix views (the capability abstraction)

    A matrix is its extents and its element accessor.  Entries outside the
    extents are not part of the matrix. *)

Record matrix (R : Type) : Type := mk_matrix {
  nrows : nat;
  ncols : nat;
  elt : nat -> nat -> R
}.

Arguments mk_matrix {R} _ _ _.
Arguments nrows {R} _.
Arguments ncols {R} _.
Arguments elt {R} _ _ _.

(** What [access_denied] is asked about. *)
Inductive access : Type :=
| dense
| strictLower
| strictUpper
| uplo_access (uplo : Z).

(** Modelled from the spec: [read_policy], [write_policy] and
    [access_denied] (lapack/utils.hpp) are not among the sources; they are
    taken as an interface of the matrix type. *)
Class Access (R : Type) : Type := {
  policy : Type;
  read_policy : matrix R -> policy;
  write_policy : matrix R -> policy;
  access_denied : access -> policy -> bool
}.

(** Every access granted: plain dense storage. *)
Definition dense_Access (R : Type) : Access R := {|
  policy := unit;
  read_policy := fun _ => tt;
  write_policy := fun _ => tt;
  access_denied := fun _ _ => false
|}.

Section MatrixOps.
Context {R : Type} {SR : Scalar R}.
Local Open Scope scalar_scope.

(** [sum n f] is [f 0 + ... + f (n-1)], the accumulation of an inner
    product loop. *)
Fixpoint sum (n : nat) (f : nat -> R) : R :=
  match n with
  | O => 0
  | S n' => sum n' f + f n'
  end.

(** [rows(A, pair{a,b})]: the view of rows [a .. b-1]. *)
Definition rows (A : matrix R) (r : nat * nat) : matrix R :=
  mk_matrix (snd r - fst r) (ncols A) (fun i j => elt A (fst r + i) j).

(** [cols(A, pair{a,b})]: the view of columns [a .. b-1]. *)
Definition cols (A : matrix R) (r : nat * nat) : matrix R :=
  mk_matrix (nrows A) (snd r - fst r) (fun i j => elt A i (fst r + j)).

(** A view aliases the matrix it was taken from: what a routine stores
    through [rows(C, r)] is stored in [C].  [assign_rows C r B] is [C]
    after the view [rows(C, r)] received the contents [B]. *)
Definition assign_rows (C : matrix R) (r : nat * nat) (B : matrix R) : matrix R :=
  mk_matrix (nrows C) (ncols C)
    (fun i j => if (fst r <=? i)%nat && (i <? snd r)%nat
                then elt B (i - fst r) j else elt C i j).

Definition assign_cols (C : matrix R) (r : nat * nat) (B : matrix R) : matrix R :=
  mk_matrix (nrows C) (ncols C)
    (fun i j => if (fst r <=? j)%nat && (j <? snd r)%nat
                then elt B i (j - fst r) else elt C i j).

(** [A(i,j) = v]. *)
Definition upd (A : matrix R) (i j : nat) (v : R) : matrix R :=
  mk_matrix (nrows A) (ncols A)
    (fun i' j' => if (i' =? i)%nat && (j' =? j)%nat then v else elt A i' j').

(** [op(A)]: [A], [A^T] or [A^H]. *)
Definition op (trans : Z) (A : matrix R) : matrix R :=
  if (trans =? Op.NoTrans)%Z then A
  else if (trans =? Op.Trans)%Z
       then mk_matrix (ncols A) (nrows A) (fun i j => elt A j i)
       else mk_matrix (ncols A) (nrows A) (fun i j => s_conj (elt A j i)).

(** The triangular matrix a triangular routine reads in [A]: the named
    triangle, the diagonal taken as ones when [diag = Diag::Unit], zeros
    elsewhere.  The other triangle of [A] is never read. *)
Definition tri (uplo diag : Z) (A : matrix R) : matrix R :=
  mk_matrix (nrows A) (ncols A)
    (fun i j =>
       if (i =? j)%nat then (if (diag =? Diag.Unit)%Z then 1 else elt A i j)
       else if (if (uplo =? Uplo.Upper)%Z then (i <? j)%nat else (j <? i)%nat)
            then elt A i j else 0).

(** Modelled from the spec: [lacpy] (lapack/lacpy.hpp) is not among the
    sources; "copy the relevant block of C into the workspace":
    [B(i,j) = A(i,j)] over the extents of [A], restricted to the named
    part. *)
Definition lacpy (part : access) (A B : matrix R) : matrix R :=
  mk_matrix (nrows B) (ncols B)
    (fun i j =>
       if (i <? nrows A)%nat && (j <? ncols A)%nat &&
          match part with
          | dense => true
          | strictLower => (j <? i)%nat
          | strictUpper => (i <? j)%nat
          | uplo_access u => if (u =? Uplo.Upper)%Z then (i <=? j)%nat else (j <=? i)%nat
          end
       then elt A i j else elt B i j).

(** Modelled from the spec: [trmm] (tblas.hpp) is not among the sources;
    "B := alpha op(T) B (or right-multiplied variants)" with [T] the
    triangular matrix read in [A]. *)
Definition trmm (side uplo trans diag : Z) (alpha : R) (A B : matrix R) : matrix R :=
  let m := nrows B in
  let n := ncols B in
  let opA := op trans (tri uplo diag A) in
  mk_matrix m n
    (fun i j =>
       if (i <? m)%nat && (j <? n)%nat then
         if (side =? Side.Left)%Z
         then alpha * sum m (fun l => elt opA i l * elt B l j)
         else alpha * sum n (fun l => elt B i l * elt opA l j)
       else elt B i j).

(** Modelled from the spec: [gemm] (tblas.hpp) is not among the sources;
    "C := alpha A B + beta C" with [op] applied to [A] and [B]. *)
Definition gemm (transA transB : Z) (alpha : R) (A B : matrix R) (beta : R)
    (C : matrix R) : matrix R :=
  let opA := op transA A in
  let opB := op transB B in
  mk_matrix (nrows C) (ncols C)
    (fun i j =>
       if (i <? nrows C)%nat && (j <? ncols C)%nat
       then alpha * sum (ncols opA) (fun l => elt opA i l * elt opB l j) + beta * elt C i j
       else elt C i j).

(** [for (j = 0; j < nj; ++j) for (i = 0; i < ni; ++i) C1(i,j) += W(i,j)]. *)
Definition add_W (nj ni : nat) (C1 W : matrix R) : matrix R :=
  for_loop nj
    (fun j C1 => for_loop ni (fun i C1 => upd C1 i j (elt C1 i j + elt W i j)) C1)
    C1.

End MatrixOps.

(** ** larfb: applying a block reflector (include/lapack/larfb.hpp) *)

Module Lapack.
Section Larfb.
Context {R : Type} {SR : Scalar R} {AR : Access R}.
Local Open Scope scalar_scope.

(** The outcome of a call: the returned [info] and the caller's [C] and
    [W] as the call leaves them. *)
Record outcome : Type := mk_outcome {
  info : Z;
  C_out : matrix R;
  W_out : matrix R
}.

(** storeMode = Columnwise, direction = Forward, side = Left
    (larfb.hpp, lines 181-223). *)
Definition larfb_col_fwd_left (side trans : Z) (V T C W : matrix R)
  : matrix R * matrix R :=
  let m := nrows C in
  let n := ncols C in
  let k := nrows T in
  let V1 := rows V (0%nat, k) in
  let V2 := rows V (k, m) in
  (* W := C1 *)
  let W := lacpy dense (rows C (0%nat, k)) W in
  (* W := V1^H W *)
  let W := trmm side Uplo.Lower Op.ConjTrans Diag.Unit 1 V1 W in
  (* W := W + V2^H C2 *)
  let W := if (k <? m)%nat
           then gemm Op.ConjTrans Op.NoTrans 1 V2 (rows C (k, m)) 1 W else W in
  (* W := op(T) W *)
  let W := trmm side Uplo.Upper trans Diag.NonUnit 1 T W in
  (* C2 := C2 - V2 W *)
  let C := if (k <? m)%nat
           then assign_rows C (k, m)
                  (gemm Op.NoTrans Op.NoTrans (s_opp 1) V2 W 1 (rows C (k, m)))
           else C in
  (* W := - V1 W *)
  let W := trmm side Uplo.Lower Op.NoTrans Diag.Unit (s_opp 1) V1 W in
  (* C1 := C1 + W *)
  let C := assign_rows C (0%nat, k) (add_W n k (rows C (0%nat, k)) W) in
  (C, W).

(** Columnwise, Forward, Right (lines 224-266). *)
Definition larfb_col_fwd_right (side trans : Z) (V T C W : matrix R)
  : matrix R * matrix R :=
  let m := nrows C in
  let n := ncols C in
  let k := nrows T in
  let V1 := rows V (0%nat, k) in
  let V2 := rows V (k, n) in
  (* W := C1 *)
  let W := lacpy dense (cols C (0%nat, k)) W in
  (* W := W V1 *)
  let W := trmm side Uplo.Lower Op.NoTrans Diag.Unit 1 V1 W in
  (* W := W + C2 V2 *)
  let W := if (k <? n)%nat
           then gemm Op.NoTrans Op.NoTrans 1 (cols C (k, n)) V2 1 W else W in
  (* W := W op(T) *)
  let W := trmm Side.Right Uplo.Upper trans Diag.NonUnit 1 T W in
  (* C2 := C2 - W V2^H *)
  let C := if (k <? n)%nat
           then assign_cols C (k, n)
                  (gemm Op.NoTrans Op.ConjTrans (s_opp 1) W V2 1 (cols C (k, n)))
           else C in
  (* W := - W V1^H *)
  let W := trmm side Uplo.Lower Op.ConjTrans Diag.Unit (s_opp 1) V1 W in
  (* C1 := C1 + W *)
  let C := assign_cols C (0%nat, k) (add_W k m (cols C (0%nat, k)) W) in
  (C, W).

(** Columnwise, Backward, Left (lines 269-311). *)
Definition larfb_col_bwd_left (side trans : Z) (V T C W : matrix R)
  : matrix R * matrix R :=
  let m := nrows C in
  let n := ncols C in
  let k := nrows T in
  let V1 := rows V (0%nat, (m - k)%nat) in
  let V2 := rows V ((m - k)%nat, m) in
  (* W := C2 *)
  let W := lacpy dense (rows C ((m - k)%nat, m)) W in
  (* W := V2^H W *)
  let W := trmm side Uplo.Upper Op.ConjTrans Diag.Unit 1 V2 W in
  (* W := W + V1^H C1 *)
  let W := if (k <? m)%nat
           then gemm Op.ConjTrans Op.NoTrans 1 V1 (rows C (0%nat, (m - k)%nat)) 1 W else W in
  (* W := op(T) W *)
  let W := trmm side Uplo.Lower trans Diag.NonUnit 1 T W in
  (* C1 := C1 - V1 W *)
  let C := if (k <? m)%nat
           then assign_rows C (0%nat, (m - k)%nat)
                  (gemm Op.NoTrans Op.NoTrans (s_opp 1) V1 W 1 (rows C (0%nat, (m - k)%nat)))
           else C in
  (* W := - V2 W *)
  let W := trmm side Uplo.Upper Op.NoTrans Diag.Unit (s_opp 1) V2 W in
  (* C2 := C2 + W *)
  let C := assign_rows C ((m - k)%nat, m) (add_W n k (rows C ((m - k)%nat, m)) W) in
  (C, W).

(** Columnwise, Backward, Right (lines 312-354). *)
Definition larfb_col_bwd_right (side trans : Z) (V T C W : matrix R)
  : matrix R * matrix R :=
  let m := nrows C in
  let n := ncols C in
  let k := nrows T in
  let V1 := rows V (0%nat, (n - k)%nat) in
  let V2 := rows V ((n - k)%nat, n) in
  (* W := C2 *)
  let W := lacpy dense (cols C ((n - k)%nat, n)) W in
  (* W := W V2 *)
  let W := trmm side Uplo.Upper Op.NoTrans Diag.Unit 1 V2 W in
  (* W := W + C1 V1 *)
  let W := if (k <? n)%nat
           then gemm Op.NoTrans Op.NoTrans 1 (cols C (0%nat, (n - k)%nat)) V1 1 W else W in
  (* W := W op(T) *)
  let W := trmm side Uplo.Lower trans Diag.NonUnit 1 T W in
  (* C1 := C1 - W V1^H *)
  let C := if (k <? n)%nat
           then assign_cols C (0%nat, (n - k)%nat)
                  (gemm Op.NoTrans Op.ConjTrans (s_opp 1) W V1 1 (cols C (0%nat, (n - k)%nat)))
           else C in
  (* W := - W V2^H *)
  let W := trmm side Uplo.Upper Op.ConjTrans Diag.Unit (s_opp 1) V2 W in
  (* C2 := C2 + W *)
  let C := assign_cols C ((n - k)%nat, n) (add_W k m (cols C ((n - k)%nat, n)) W) in
  (C, W).

(** Rowwise, Forward, Left (lines 359-401). *)
Definition larfb_row_fwd_left (side trans : Z) (V T C W : matrix R)
  : matrix R * matrix R :=
  let m := nrows C in
  let n := ncols C in
  let k := nrows T in
  let V1 := cols V (0%nat, k) in
  let V2 := cols V (k, m) in
  (* W := C1 *)
  let W := lacpy dense (rows C (0%nat, k)) W in
  (* W := V1 W *)
  let W := trmm side Uplo.Upper Op.NoTrans Diag.Unit 1 V1 W in
  (* W := W + V2 C2 *)
  let W := if (k <? m)%nat
           then gemm Op.NoTrans Op.NoTrans 1 V2 (rows C (k, m)) 1 W else W in
  (* W := op(T) W *)
  let W := trmm side Uplo.Upper trans Diag.NonUnit 1 T W in
  (* C2 := C2 - V2^H W *)
  let C := if (k <? m)%nat
           then assign_rows C (k, m)
                  (gemm Op.ConjTrans Op.NoTrans (s_opp 1) V2 W 1 (rows C (k, m)))
           else C in
  (* W := - V1^H W *)
  let W := trmm side Uplo.Upper Op.ConjTrans Diag.Unit (s_opp 1) V1 W in
  (* C1 := C1 + W *)
  let C := assign_rows C (0%nat, k) (add_W n k (rows C (0%nat, k)) W) in
  (C, W).

(** Rowwise, Forward, Right (lines 402-444). *)
Definition larfb_row_fwd_right (side trans : Z) (V T C W : matrix R)
  : matrix R * matrix R :=
  let m := nrows C in
  let n := ncols C in
  let k := nrows T in
  let V1 := cols V (0%nat, k) in
  let V2 := cols V (k, n) in
  (* W := C1 *)
  let W := lacpy dense (cols C (0%nat, k)) W in
  (* W := W V1^H *)
  let W := trmm side Uplo.Upper Op.ConjTrans Diag.Unit 1 V1 W in
  (* W := W + C2 V2^H *)
  let W := if (k <? n)%nat
           then gemm Op.NoTrans Op.ConjTrans 1 (cols C (k, n)) V2 1 W else W in
  (* W := W op(T) *)
  let W := trmm side Uplo.Upper trans Diag.NonUnit 1 T W in
  (* C2 := C2 - W V2 *)
  let C := if (k <? n)%nat
           then assign_cols C (k, n)
                  (gemm Op.NoTrans Op.NoTrans (s_opp 1) W V2 1 (cols C (k, n)))
           else C in
  (* W := - W V1 *)
  let W := trmm side Uplo.Upper Op.NoTrans Diag.Unit (s_opp 1) V1 W in
  (* C1 := C1 + W *)
  let C := assign_cols C (0%nat, k) (add_W k m (cols C (0%nat, k)) W) in
  (C, W).

(** Rowwise, Backward, Left (lines 447-489). *)
Definition larfb_row_bwd_left (side trans : Z) (V T C W : matrix R)
  : matrix R * matrix R :=
  let m := nrows C in
  let n := ncols C in
  let k := nrows T in
  let V1 := cols V (0%nat, (m - k)%nat) in
  let V2 := cols V ((m - k)%nat, m) in
  (* W := C2 *)
  let W := lacpy dense (rows C ((m - k)%nat, m)) W in
  (* W := V2 W *)
  let W := trmm side Uplo.Lower Op.NoTrans Diag.Unit 1 V2 W in
  (* W := W + V1 C1 *)
  let W := if (k <? m)%nat
           then gemm Op.NoTrans Op.NoTrans 1 V1 (rows C (0%nat, (m - k)%nat)) 1 W else W in
  (* W := op(T) W *)
  let W := trmm side Uplo.Lower trans Diag.NonUnit 1 T W in
  (* C1 := C1 - V1^H W *)
  let C := if (k <? m)%nat
           then assign_rows C (0%nat, (m - k)%nat)
                  (gemm Op.ConjTrans Op.NoTrans (s_opp 1) V1 W 1 (rows C (0%nat, (m - k)%nat)))
           else C in
  (* W := - V2^H W *)
  let W := trmm side Uplo.Lower Op.ConjTrans Diag.Unit (s_opp 1) V2 W in
  (* C2 := C2 + W *)
  let C := assign_rows C ((m - k)%nat, m) (add_W n k (rows C ((m - k)%nat, m)) W) in
  (C, W).

(** Rowwise, Backward, Right (lines 490-532). *)
Definition larfb_row_bwd_right (side trans : Z) (V T C W : matrix R)
  : matrix R * matrix R :=
  let m := nrows C in
  let n := ncols C in
  let k := nrows T in
  let V1 := cols V (0%nat, (n - k)%nat) in
  let V2 := cols V ((n - k)%nat, n) in
  (* W := C2 *)
  let W := lacpy dense (cols C ((n - k)%nat, n)) W in
  (* W := W V2^H *)
  let W := trmm side Uplo.Lower Op.ConjTrans Diag.Unit 1 V2 W in
  (* W := W + C1 V1^H *)
  let W := if (k <? n)%nat
           then gemm Op.NoTrans Op.ConjTrans 1 (cols C (0%nat, (n - k)%nat)) V1 1 W else W in
  (* W := W op(T) *)
  let W := trmm side Uplo.Lower trans Diag.NonUnit 1 T W in
  (* C1 := C1 - W V1 *)
  let C := if (k <? n)%nat
           then assign_cols C (0%nat, (n - k)%nat)
                  (gemm Op.NoTrans Op.NoTrans (s_opp 1) W V1 1 (cols C (0%nat, (n - k)%nat)))
           else C in
  (* W := - W V2 *)
  let W := trmm side Uplo.Lower Op.NoTrans Diag.Unit (s_opp 1) V2 W in
  (* C2 := C2 + W *)
  let C := assign_cols C ((n - k)%nat, n) (add_W k m (cols C ((n - k)%nat, n)) W) in
  (C, W).

(** The argument checks of larfb (lines 143-174), in their order: the
    [info] of the first one that fails, if any.

    Modelled from the spec: the macro [lapack_error_if(cond, info)] is not
    among the sources; a failed check ends the call with [info], "before
    any mutation of caller-owned data". *)
Definition larfb_check (side trans direction storeMode : Z) (V T C W : matrix R)
  : option Z :=
  if negb (side =? Side.Left)%Z && negb (side =? Side.Right)%Z then Some (-1)%Z
  else if negb (trans =? Op.NoTrans)%Z && negb (trans =? Op.ConjTrans)%Z &&
          (negb (trans =? Op.Trans)%Z || is_complex) then Some (-2)%Z
  else if negb (direction =? Direction.Backward)%Z &&
          negb (direction =? Direction.Forward)%Z then Some (-3)%Z
  else if negb (storeMode =? StoreV.Columnwise)%Z &&
          negb (storeMode =? StoreV.Rowwise)%Z then Some (-4)%Z
  else if (if (direction =? Direction.Forward)%Z
           then (if (storeMode =? StoreV.Columnwise)%Z
                 then access_denied strictLower (read_policy V)
                 else access_denied strictUpper (read_policy V))
           else access_denied dense (read_policy V)) then Some (-5)%Z
  else if (if (direction =? Direction.Forward)%Z
           then access_denied (uplo_access Uplo.Upper) (read_policy T)
           else access_denied (uplo_access Uplo.Lower) (read_policy T)) then Some (-6)%Z
  else if access_denied dense (write_policy C) then Some (-7)%Z
  else if access_denied dense (write_policy W) then Some (-8)%Z
  else None.

(** [trans] as the second check rejects it: neither [NoTrans] nor
    [ConjTrans], and not a [Trans] on a real type. *)
Definition trans_rejected (trans : Z) : Prop :=
  trans <> Op.NoTrans /\ trans <> Op.ConjTrans /\
  (trans <> Op.Trans \/ is_complex = true).

(** [larfb(side, trans, direction, storeMode, V, T, C, W)]. *)
Definition larfb (side trans direction storeMode : Z) (V T C W : matrix R)
  : outcome :=
  let m := nrows C in
  let n := ncols C in
  match larfb_check side trans direction storeMode V T C W with
  | Some code => mk_outcome code C W
  | None =>
    (* Quick return *)
    if (m <=? 0)%nat || (n <=? 0)%nat then mk_outcome 0%Z C W
    else
      let '(C', W') :=
        if (storeMode =? StoreV.Columnwise)%Z then
          if (direction =? Direction.Forward)%Z then
            if (side =? Side.Left)%Z
            then larfb_col_fwd_left side trans V T C W
            else larfb_col_fwd_right side trans V T C W
          else
            if (side =? Side.Left)%Z
            then larfb_col_bwd_left side trans V T C W
            else larfb_col_bwd_right side trans V T C W
        else
          if (direction =? Direction.Forward)%Z then
            if (side =? Side.Left)%Z
            then larfb_row_fwd_left side trans V T C W
            else larfb_row_fwd_right side trans V T C W
          else
            if (side =? Side.Left)%Z
            then larfb_row_bwd_left side trans V T C W
            else larfb_row_bwd_right side trans V T C W
      in mk_outcome 0%Z C' W'
  end.

(** *** The operator larfb is specified to apply

    [V] as the m-by-k unit lower-trapezoidal matrix its columnwise,
    forward storage stands for, and [T] as the upper-triangular matrix
    read in it. *)
Definition unit_lower (V : matrix R) : matrix R := tri Uplo.Lower Diag.Unit V.

Definition upper (T : matrix R) : matrix R := tri Uplo.Upper Diag.NonUnit T.

(** [H = I - V T V^H], an m-by-m matrix ([m = nrows V], [k = nrows T]). *)
Definition block_reflector (V T : matrix R) : matrix R :=
  let m := nrows V in
  let k := nrows T in
  mk_matrix m m
    (fun i l =>
       (if (i =? l)%nat then 1 else 0) -
       sum k (fun a => sum k (fun b =>
         elt (unit_lower V) i a * elt (upper T) a b * s_conj (elt (unit_lower V) l b)))).

(** The matrix product [A B]. *)
Definition mmul (A B : matrix R) : matrix R :=
  mk_matrix (nrows A) (ncols B)
    (fun i j => sum (ncols A) (fun l => elt A i l * elt B l j)).

(** *** Elementary reflectors and the triangular factor

    Modelled from the spec: "Elementary reflector: a rank-1 unitary update
    I - tau v v^*".  [larf_left v tau C] is [(I - tau v v^H) C]. *)
Definition larf_left (v : nat -> R) (tau : R) (C : matrix R) : matrix R :=
  mk_matrix (nrows C) (ncols C)
    (fun i j => elt C i j - tau * v i * sum (nrows C) (fun l => s_conj (v l) * elt C l j)).

(** The naive sequential application [H(1) (H(2) (... (H(k) C)))] of the
    first [k] reflectors, [H(j)] built on column [j] of [V] read as unit
    lower trapezoidal: the last reflector is applied first. *)
Fixpoint apply_reflectors (k : nat) (V : matrix R) (tau : nat -> R) (C : matrix R)
  : matrix R :=
  match k with
  | O => C
  | S j => apply_reflectors j V tau
             (larf_left (fun i => elt (unit_lower V) i j) (tau j) C)
  end.

(** Modelled from the spec: larft is not among the sources; [T] is "a
    k-by-k upper-triangular matrix encoding how k individual reflectors
    compose into one block reflector".  For direction = Forward and
    columnwise storage the factor is built column by column:
    [T(j,j) = tau(j)] and
    [T(0:j, j) = - tau(j) T(0:j, 0:j) V(:, 0:j)^H V(:, j)]. *)
Definition triangular_factor (V : matrix R) (tau : nat -> R) (T : matrix R) : Prop :=
  forall j, (j < nrows T)%nat ->
    elt T j j = tau j /\
    forall i, (i < j)%nat ->
      elt T i j =
      s_opp (tau j) *
      sum j (fun a => elt (upper T) i a *
                      sum (nrows V) (fun l => s_conj (elt (unit_lower V) l a) *
                                              elt (unit_lower V) l j)).

(** The extents the documentation of larfb asks for: [T] is k-by-k; with
    side = Left, [k <= m] and [W] is k-by-n, with side = Right, [k <= n]
    and [W] is m-by-k; [V] is m-by-k or n-by-k when stored columnwise, and
    k-by-m or k-by-n when stored rowwise. *)
Definition larfb_shapes (side storeMode : Z) (V T C W : matrix R) : Prop :=
  let m := nrows C in
  let n := ncols C in
  let k := nrows T in
  ncols T = k /\
  (if (side =? Side.Left)%Z
   then (k <= m)%nat /\ nrows W = k /\ ncols W = n
   else (k <= n)%nat /\ nrows W = m /\ ncols W = k) /\
  (if (storeMode =? StoreV.Columnwise)%Z
   then nrows V = (if (side =? Side.Left)%Z then m else n) /\ ncols V = k
   else nrows V = k /\ ncols V = (if (side =? Side.Left)%Z then m else n)).

(** *** The operator of every branch

    "The shape of the matrix V and the storage of the vectors which define
    the H(i)" (larfb.hpp, Further Details): [stored_V] is [V] with the
    entries the routine does not read replaced by what they stand for, the
    ones of the unit triangle and the zeros beyond it.  Reflector [a] has
    its one at position [a] along the vector when direction = Forward, and
    at position [a + q - k] when direction = Backward, [q] being the length
    of the vectors. *)
Definition stored_V (direction storeMode : Z) (k : nat) (V : matrix R) : matrix R :=
  let fwd := (direction =? Direction.Forward)%Z in
  let col := (storeMode =? StoreV.Columnwise)%Z in
  let q := if col then nrows V else ncols V in
  let s := if fwd then 0%nat else (q - k)%nat in
  mk_matrix (nrows V) (ncols V)
    (fun i j =>
       let p := if col then i else j in
       let a := if col then j else i in
       if (p =? a + s)%nat then 1
       else if (if fwd then (a + s <? p)%nat else (p <? a + s)%nat) then elt V i j
       else 0).

(** The triangle of [T] the routine reads. *)
Definition stored_T (direction : Z) (T : matrix R) : matrix R :=
  tri (if (direction =? Direction.Forward)%Z then Uplo.Upper else Uplo.Lower)
      Diag.NonUnit T.

(** [op(H)], with [H = I - V T V^H] when the vectors are stored columnwise
    and [H = I - V^H T V] when they are stored rowwise: [op] falls on
    [T]. *)
Definition block_reflector_op (trans direction storeMode : Z) (V T : matrix R)
  : matrix R :=
  let col := (storeMode =? StoreV.Columnwise)%Z in
  let k := nrows T in
  let Vs := stored_V direction storeMode k V in
  let Tt := op trans (stored_T direction T) in
  let q := if col then nrows V else ncols V in
  mk_matrix q q
    (fun i l =>
       (if (i =? l)%nat then 1 else 0) -
       sum k (fun a => sum k (fun b =>
         (if col then elt Vs i a else s_conj (elt Vs a i)) * elt Tt a b *
         (if col then s_conj (elt Vs l b) else elt Vs b l)))).

(** *** The common shape of the branches

    The four branches of a side differ in the views they take and in the
    flags they pass; [left_steps] and [right_steps] are the six steps with
    those left open: [P] the rows (columns) of [C] facing the triangle
    [Vt] of [V], [Q] the ones facing the remainder [Vg]. *)
Definition left_steps (side trans uploV uploT tA tB : Z) (P Q : nat * nat)
    (Vt Vg T C W : matrix R) : matrix R * matrix R :=
  let m := nrows C in
  let n := ncols C in
  let k := nrows T in
  let W := lacpy dense (rows C P) W in
  let W := trmm side uploV tA Diag.Unit 1 Vt W in
  let W := if (k <? m)%nat
           then gemm tA Op.NoTrans 1 Vg (rows C Q) 1 W else W in
  let W := trmm side uploT trans Diag.NonUnit 1 T W in
  let C := if (k <? m)%nat
           then assign_rows C Q (gemm tB Op.NoTrans (s_opp 1) Vg W 1 (rows C Q))
           else C in
  let W := trmm side uploV tB Diag.Unit (s_opp 1) Vt W in
  let C := assign_rows C P (add_W n k (rows C P) W) in
  (C, W).

Definition right_steps (side sideT trans uploV uploT tA tB : Z) (P Q : nat * nat)
    (Vt Vg T C W : matrix R) : matrix R * matrix R :=
  let m := nrows C in
  let n := ncols C in
  let k := nrows T in
  let W := lacpy dense (cols C P) W in
  let W := trmm side uploV tA Diag.Unit 1 Vt W in
  let W := if (k <? n)%nat
           then gemm Op.NoTrans tA 1 (cols C Q) Vg 1 W else W in
  let W := trmm sideT uploT trans Diag.NonUnit 1 T W in
  let C := if (k <? n)%nat
           then assign_cols C Q (gemm Op.NoTrans tB (s_opp 1) W Vg 1 (cols C Q))
           else C in
  let W := trmm side uploV tB Diag.Unit (s_opp 1) Vt W in
  let C := assign_cols C P (add_W k m (cols C P) W) in
  (C, W).

End Larfb.
End Lapack.

(** ** geru: general rank-1 update (include/blas/geru.hpp) *)

Module Blas.
Section Geru.
Context {R : Type} {SR : Scalar R}.
Local Open Scope Z_scope.

(** Storage behind a pointer: the element at each index. *)
Definition array : Type := Z -> R.

(** [A[idx] = v]. *)
Definition store (A : array) (idx : Z) (v : R) : array :=
  fun i => if i =? idx then v else A i.

(** Arithmetic in [blas::size_t = std::size_t]: 64 bits, unsigned.  An
    [int_t = int64_t] operand is converted to it first. *)
Definition size_t (z : Z) : Z := z mod 2 ^ 64.

(** [A(i_, j_)] is [A[ (i_) + (j_)*lda ]]. *)
Definition A_index (lda i j : Z) : Z := size_t (i + size_t (j * lda)).

(** How a call ends, with the storage of [A] as the call leaves it: it
    returns, or [blas_error_if] throws [blas::Error] (through
    blas::error); [OutOfFuel] is the model's bound on the nesting of
    calls. *)
Inductive result : Type :=
| Returned (A : array)
| Error (A : array)
| OutOfFuel.

(** [for (size_t i = 0; i < m; ++i) A(i, j) += x[ix] * tmp; ix += incx]
    with [x] of unit stride ([x[i]]). *)
Definition axpy_col_unit (m lda : Z) (x : array) (tmp : R) (j : Z) (A : array) : array :=
  for_loop (Z.to_nat m)
    (fun i A =>
       let i := Z.of_nat i in
       store A (A_index lda i j) (s_add (A (A_index lda i j)) (s_mul (x i) tmp)))
    A.

(** The same loop, [x] read at [ix], which starts at [kx] and advances by
    [incx]. *)
Definition axpy_col_strided (m lda : Z) (x : array) (kx incx : Z) (tmp : R) (j : Z)
    (A : array) : array :=
  fst (for_loop (Z.to_nat m)
         (fun i '(A, ix) =>
            let i := Z.of_nat i in
            (store A (A_index lda i j) (s_add (A (A_index lda i j)) (s_mul (x ix) tmp)),
             size_t (ix + size_t incx)))
         (A, kx)).

(** [(inc > 0 ? 0 : (-n + 1)*inc)] in [size_t]. *)
Definition start_index (n inc : Z) : Z :=
  if inc >? 0 then 0 else size_t (size_t (size_t (- n) + 1) * size_t inc).

Fixpoint geru_rec (fuel : nat) (layout m n : Z) (alpha : R)
    (x : array) (incx : Z) (y : array) (incy : Z) (A : array) (lda : Z) : result :=
  match fuel with
  | O => OutOfFuel
  | S fuel' =>
    (* check arguments *)
    if negb (layout =? Layout.ColMajor) && negb (layout =? Layout.RowMajor) then Error A
    else if m <? 0 then Error A
    else if n <? 0 then Error A
    else if incx =? 0 then Error A
    else if incy =? 0 then Error A
    else if (if layout =? Layout.ColMajor then lda <? m else lda <? n) then Error A
    (* quick return *)
    else if (m =? 0) || (n =? 0) || s_eqb alpha s_zero then Returned A
    (* for row-major, simply swap dimensions and x <=> y *)
    else if layout =? Layout.RowMajor
    then geru_rec fuel' Layout.ColMajor n m alpha y incy x incx A lda
    else if (incx =? 1) && (incy =? 1) then
      (* unit stride *)
      Returned
        (for_loop (Z.to_nat n)
           (fun j A =>
              let j := Z.of_nat j in
              let tmp := s_mul alpha (y j) in
              axpy_col_unit m lda x tmp j A)
           A)
    else if incx =? 1 then
      (* x unit stride, y non-unit stride *)
      Returned
        (fst (for_loop (Z.to_nat n)
                (fun j '(A, jy) =>
                   let j := Z.of_nat j in
                   let tmp := s_mul alpha (y jy) in
                   (axpy_col_unit m lda x tmp j A, size_t (jy + size_t incy)))
                (A, start_index n incy)))
    else
      (* x and y non-unit stride *)
      let kx := start_index m incx in
      Returned
        (fst (for_loop (Z.to_nat n)
                (fun j '(A, jy) =>
                   let j := Z.of_nat j in
                   let tmp := s_mul alpha (y jy) in
                   (axpy_col_strided m lda x kx incx tmp j A, size_t (jy + size_t incy)))
                (A, start_index n incy)))
  end.

(** [geru(layout, m, n, alpha, x, incx, y, incy, A, lda)]: a call nests at
    most one call of itself. *)
Definition geru (layout m n : Z) (alpha : R)
    (x : array) (incx : Z) (y : array) (incy : Z) (A : array) (lda : Z) : result :=
  geru_rec 2 layout m n alpha x incx y incy A lda.

(** The rank-1 update [A + alpha x y^T] of a column-major [A], entry
    [(i, j)] at index [i + j*lda], with [x] and [y] of unit stride. *)
Definition rank1_update (m n : Z) (alpha : R) (x y : array) (A : array) (lda : Z)
  : array :=
  fun idx =>
    let j := idx / lda in
    let i := idx mod lda in
    if (0 <=? idx) && (i <? m) && (j <? n)
    then s_add (A idx) (s_mul (x i) (s_mul alpha (y j)))
    else A idx.

(** Element [i] of an [n]-element vector of stride [inc]: "if incx < 0,
    uses elements of x in reverse order" (geru.hpp, parameters). *)
Definition stride_index (n inc i : Z) : Z :=
  if inc >? 0 then i * inc else (n - 1 - i) * (- inc).

(** The vector as the routine reads it. *)
Definition strided (n : Z) (x : array) (inc : Z) : array :=
  fun i => x (stride_index n inc i).

End Geru.
End Blas.

(** ** rscl: scaling by a reciprocal (include/tlapack/lapack/rscl.hpp)

    The real type is modelled by the rationals: the arithmetic is exact,
    comparisons are decided, and the routine can be run.  [Double] below
    is the same routine on binary64 numbers, where every operation
    rounds. *)

Module Tlapack.

Local Open Scope Q_scope.

(** [std::complex<real_t>]. *)
Record complex : Type := mk_complex { real : Q; imag : Q }.

(** Equality of values (the rationals are compared as fractions). *)
Definition ceq (z w : complex) : Prop := real z == real w /\ imag z == imag w.

(** [z * w]. *)
Definition cmul (z w : complex) : complex :=
  mk_complex (real z * real w - imag z * imag w) (real z * imag w + imag z * real w).

(** [z / w]. *)
Definition cdiv (z w : complex) : complex :=
  let d := real w * real w + imag w * imag w in
  mk_complex ((real z * real w + imag z * imag w) / d)
             ((imag z * real w - real z * imag w) / d).

(** [a > b] and [a < b] on the real type. *)
Definition Qgtb (a b : Q) : bool := negb (Qle_bool a b).

Definition Qltb (a b : Q) : bool := negb (Qle_bool b a).

(** [x[i] *= alpha] for each pair of a scalar type and an element type the
    routine uses. *)
Class Scal (alpha_t elt_t : Type) : Type := scale : alpha_t -> elt_t -> elt_t.

#[global] Instance Scal_real_real : Scal Q Q := fun alpha xi => xi * alpha.

#[global] Instance Scal_real_complex : Scal Q complex :=
  fun alpha xi => mk_complex (real xi * alpha) (imag xi * alpha).

#[global] Instance Scal_complex_complex : Scal complex complex :=
  fun alpha xi => cmul xi alpha.

(** [safeMax / alpha] and the like for each scalar type. *)
Class Recip (alpha_t : Type) : Type := div_real : Q -> alpha_t -> alpha_t.

#[global] Instance Recip_real : Recip Q := fun c alpha => c / alpha.

#[global] Instance Recip_complex : Recip complex :=
  fun c alpha => cdiv (mk_complex c 0) alpha.

(** Modelled from the spec: [scal] (tlapack/blas/scal.hpp) is not among
    the sources; it "scales vector x in place" by its first argument. *)
Definition scal {alpha_t elt_t : Type} {Sc : Scal alpha_t elt_t}
    (alpha : alpha_t) (x : list elt_t) : list elt_t :=
  map (scale alpha) x.

Section Rscl.
(** [safe_max<real_t>()] and [safe_min<real_t>()] are not among the
    sources: they are parameters. *)
Variables safeMax safeMin : Q.

(** The overload for a real [alpha] (lines 18-40), over any vector. *)
Definition rscl {elt_t : Type} {Sc : Scal Q elt_t} (alpha : Q) (x : list elt_t)
  : list elt_t :=
  let r := Qabs alpha in
  if Qgtb r safeMax then
    scal (safeMax / alpha) (scal safeMin x)
  else if Qltb r safeMin then
    scal (safeMin / alpha) (scal safeMax x)
  else
    scal (1 / alpha) x.

(** The overload for a complex [alpha] (lines 64-124). *)
Definition rscl_complex (alpha : complex) (x : list complex) : list complex :=
  let alphaR := real alpha in
  let alphaI := imag alpha in
  let absR := Qabs alphaR in
  let absI := Qabs alphaI in
  if Qeq_bool absI 0 then
    (* If alpha is real, then we can use another routine. *)
    rscl alphaR x
  else if Qeq_bool absR 0 then
    (* If alpha has a zero real part, then we follow the same rules as if
       alpha were real. *)
    if Qgtb absI safeMax then
      scal (mk_complex 0 (- safeMax / alphaI)) (scal safeMin x)
    else if Qltb absI safeMin then
      scal (mk_complex 0 (- safeMin / alphaI)) (scal safeMax x)
    else
      scal (mk_complex 0 (- (1) / alphaI)) x
  else if Qgtb absR safeMax || Qgtb absI safeMax then
    (* Either real or imaginary part is too large. *)
    scal (div_real safeMax alpha) (scal safeMin x)
  else
    let a := Qabs (alphaR + alphaI * (alphaI / alphaR)) in
    let b := Qabs (alphaI + alphaR * (alphaR / alphaI)) in
    if Qgtb a safeMax || Qgtb b safeMax then
      scal (div_real safeMax alpha) (scal safeMin x)
    else if Qltb a safeMin || Qltb b safeMin then
      scal (div_real safeMin alpha) (scal safeMax x)
    else
      scal (div_real 1 alpha) x.

End Rscl.

(** Multiplication by [-i]. *)
Definition mul_neg_i (z : complex) : complex := mk_complex (imag z) (- real z).

Local Close Scope Q_scope.

(** *** The instance for [double]

    The same two overloads with [real_t = double]: IEEE 754 binary64,
    every operation rounded to nearest, comparisons false on a NaN. *)
Module Double.
Import Floats.
Local Open Scope float_scope.

(** [std::complex<double>]. *)
Record complex : Type := mk_complex { real : float; imag : float }.

(** [z * w]: the two parts as the library computes them, each operation
    rounded (it computes them again only when both come out as NaN). *)
Definition cmul (z w : complex) : complex :=
  mk_complex (real z * real w - imag z * imag w) (real z * imag w + imag z * real w).

(** [a > b] on the real type. *)
Definition gtb (a b : float) : bool := b <? a.

(** [x[i] *= alpha] for each pair of a scalar type and an element type the
    routine uses. *)
#[global] Instance Scal_real_real : Scal float float := fun alpha xi => xi * alpha.

#[global] Instance Scal_real_complex : Scal float complex :=
  fun alpha xi => mk_complex (real xi * alpha) (imag xi * alpha).

#[global] Instance Scal_complex_complex : Scal complex complex :=
  fun alpha xi => cmul xi alpha.

(** Modelled from the spec: [safe_min<double>()] and [safe_max<double>()],
    the "safe numeric limits (overflow/underflow thresholds)", are not
    among the sources.  The thresholds of binary64 are taken: the least
    normal number [2^-1022] and its reciprocal [2^1022]. *)
Definition safe_min : float := 0x1p-1022.

Definition safe_max : float := 0x1p+1022.

Section Rscl.
Variables safeMax safeMin : float.
(** [c / alpha] for a real [c] and a complex [alpha]: the division of
    [std::complex] is not among the sources, it is a parameter. *)
Variable div_real : float -> complex -> complex.

(** The overload for a real [alpha] (lines 18-40), over any vector. *)
Definition rscl {elt_t : Type} {Sc : Scal float elt_t} (alpha : float) (x : list elt_t)
  : list elt_t :=
  let r := abs alpha in
  if gtb r safeMax then
    scal (safeMax / alpha) (scal safeMin x)
  else if r <? safeMin then
    scal (safeMin / alpha) (scal safeMax x)
  else
    scal (1 / alpha) x.

(** The overload for a complex [alpha] (lines 64-124). *)
Definition rscl_complex (alpha : complex) (x : list complex) : list complex :=
  let alphaR := real alpha in
  let alphaI := imag alpha in
  let absR := abs alphaR in
  let absI := abs alphaI in
  if absI =? 0 then
    (* If alpha is real, then we can use another routine. *)
    rscl alphaR x
  else if absR =? 0 then
    (* If alpha has a zero real part, then we follow the same rules as if
       alpha were real. *)
    if gtb absI safeMax then
      scal (mk_complex 0 (- safeMax / alphaI)) (scal safeMin x)
    else if absI <? safeMin then
      scal (mk_complex 0 (- safeMin / alphaI)) (scal safeMax x)
    else
      scal (mk_complex 0 (- (1) / alphaI)) x
  else if gtb absR safeMax || gtb absI safeMax then
    (* Either real or imaginary part is too large. *)
    scal (div_real safeMax alpha) (scal safeMin x)
  else
    let a := abs (alphaR + alphaI * (alphaI / alphaR)) in
    let b := abs (alphaI + alphaR * (alphaR / alphaI)) in
    if gtb a safeMax || gtb b safeMax then
      scal (div_real safeMax alpha) (scal safeMin x)
    else if (a <? safeMin) || (b <? safeMin) then
      scal (div_real safeMin alpha) (scal safeMax x)
    else
      scal (div_real 1 alpha) x.

End Rscl.

End Double.

(** ** Workspace queries and blocked drivers
    (include/tlapack/lapack/ungqr.hpp, unmlq.hpp, unmrq.hpp) *)

(** The extents of a matrix: all a workspace query reads ("shape-only
    probing; values never touched"). *)
Definition shape : Type := (nat * nat)%type.

(** The extents of [slice(A, rows, cols)]. *)
Definition slice_shape (rows cols : nat * nat) : shape :=
  (snd rows - fst rows, snd cols - fst cols)%nat.

(** [WorkInfo]: the extents [m], [n] of a scratch matrix. *)
Module WorkInfo.
Record t : Type := mk { m : nat; n : nat }.

(** Element-wise order on the extents. *)
Definition le (a b : t) : Prop := (m a <= m b)%nat /\ (n a <= n b)%nat.
End WorkInfo.

(** Modelled from the spec: the operations of [WorkInfo]
    (tlapack/base/workspace.hpp) and the queries [larfb_worksize] and
    [ung2r_worksize] are not among the sources.  They are taken as an
    interface: [empty] is [WorkInfo()], [of_size s] is [WorkInfo(s)],
    [plus] is [operator+=] ("for two sub-algorithms needed simultaneously,
    sum their requirements") and [minMax] the member of that name ("take
    the element-wise maximum of shapes"). *)
Class WorkQueries : Type := {
  empty : WorkInfo.t;
  of_size : nat -> WorkInfo.t;
  plus : WorkInfo.t -> WorkInfo.t -> WorkInfo.t;
  minMax : WorkInfo.t -> WorkInfo.t -> WorkInfo.t;
  (* larfb_worksize<T>(side, trans, direction, storeMode, V, matrixT, C) *)
  larfb_worksize : Z -> Z -> Z -> Z -> shape -> shape -> shape -> WorkInfo.t;
  (* ung2r_worksize<T>(Ai, taui) *)
  ung2r_worksize : shape -> nat -> WorkInfo.t
}.

(** What the spec says of them: a query grows with the extents it is
    given, and the compositions grow with their operands. *)
Class WorkQueriesLaws {WQ : WorkQueries} : Prop := {
  empty_least : forall w, WorkInfo.le empty w;
  plus_mono : forall a a' b b',
    WorkInfo.le a a' -> WorkInfo.le b b' -> WorkInfo.le (plus a b) (plus a' b');
  minMax_mono : forall a a' b b',
    WorkInfo.le a a' -> WorkInfo.le b b' -> WorkInfo.le (minMax a b) (minMax a' b');
  larfb_worksize_mono : forall side trans direction storeMode V V' T C C',
    (fst V <= fst V')%nat -> (snd V <= snd V')%nat ->
    (fst C <= fst C')%nat -> (snd C <= snd C')%nat ->
    WorkInfo.le (larfb_worksize side trans direction storeMode V T C)
                (larfb_worksize side trans direction storeMode V' T C');
  ung2r_worksize_mono : forall Ai Ai' taui,
    (fst Ai <= fst Ai')%nat -> (snd Ai <= snd Ai')%nat ->
    WorkInfo.le (ung2r_worksize Ai taui) (ung2r_worksize Ai' taui)
}.

(** An instance on plain extents, with which the queries run: sums and
    maxima taken element-wise, larfb asking for the k-by-n (side = Left)
    or m-by-k (side = Right) matrix W of its documentation, ung2r for a
    column as long as its block is wide. *)
Definition spec_WorkQueries : WorkQueries := {|
  empty := WorkInfo.mk 0 0;
  of_size := fun s => WorkInfo.mk s (if (s =? 0)%nat then 0 else 1);
  plus := fun a b =>
    WorkInfo.mk (WorkInfo.m a + WorkInfo.m b) (WorkInfo.n a + WorkInfo.n b);
  minMax := fun a b =>
    WorkInfo.mk (Nat.max (WorkInfo.m a) (WorkInfo.m b))
                (Nat.max (WorkInfo.n a) (WorkInfo.n b));
  larfb_worksize := fun side _ _ _ _ T C =>
    if (side =? Side.Left)%Z then WorkInfo.mk (fst T) (snd C)
    else WorkInfo.mk (fst C) (fst T);
  ung2r_worksize := fun Ai _ => WorkInfo.mk (snd Ai) 1
|}.

(** [UngqrOpts], [UnmrqOpts], [unmlq_opts_t]: the block size. *)
Record Opts : Type := mk_Opts { nb : nat }.

(** [nb = 32] unless the caller chooses. *)
Definition default_Opts : Opts := mk_Opts 32.

Section WorkspaceQueries.
Context {WQ : WorkQueries}.
(** [is_same_v<T, type_t<matrixT_t>>]: a property of the instantiation. *)
Variable is_same_T : bool.

(** [ungqr_worksize<T>(A, tau, opts)] (ungqr.hpp, lines 44-84); [A] and
    [tau] by their extents. *)
Definition ungqr_worksize (A : shape) (tau : nat) (opts : Opts) : WorkInfo.t :=
  let m := fst A in
  let n := snd A in
  let k := tau in
  let nb := Nat.min (nb opts) k in
  let workinfo := empty in
  (* larfb: *)
  let workinfo :=
    if (nb <? n)%nat then
      (* Empty matrices *)
      let V := slice_shape (0, m)%nat (0, nb)%nat in
      let matrixT := slice_shape (0, nb)%nat (0, nb)%nat in
      let C := slice_shape (0, m)%nat (nb, n) in
      (* Internal workspace queries *)
      let workinfo :=
        larfb_worksize Side.Left Op.NoTrans Direction.Forward StoreV.Columnwise
                       V matrixT C in
      (* Local workspace sizes *)
      if is_same_T then plus workinfo (WorkInfo.mk nb nb) else workinfo
    else workinfo in
  (* ung2r: *)
  let Ai := slice_shape (0, m)%nat (0, nb)%nat in
  let taui := (nb - 0)%nat in
  minMax workinfo (ung2r_worksize Ai taui).

(** [unmrq_worksize<T>(side, trans, A, tau, C, opts)] (unmrq.hpp, lines
    317-355). *)
Definition unmrq_worksize (side trans : Z) (A : shape) (tau : nat) (C : shape)
    (opts : Opts) : WorkInfo.t :=
  let k := tau in
  let nb := Nat.min (nb opts) k in
  (* Local workspace sizes *)
  let workinfo := if is_same_T then WorkInfo.mk nb nb else of_size 0 in
  (* larfb: *)
  let m := fst C in
  let n := snd C in
  let nA := if (side =? Side.Left)%Z then m else n in
  (* Empty matrices *)
  let V := slice_shape (0, nb)%nat (0, nA)%nat in
  let matrixT := slice_shape (0, nb)%nat (0, nb)%nat in
  (* Internal workspace queries *)
  plus workinfo
    (larfb_worksize side
       (if (trans =? Op.NoTrans)%Z then Op.ConjTrans else Op.NoTrans)
       Direction.Backward StoreV.Rowwise V matrixT C).

End WorkspaceQueries.

(** *** The blocked drivers *)

Section Drivers.
Context {R : Type} {SR : Scalar R}.
Local Open Scope Z_scope.

(** Arithmetic in [idx_t = size_type<matrix_t>], taken as [std::size_t]:
    64 bits, unsigned. *)
Definition idx_t (z : Z) : Z := z mod 2 ^ 64.

(** How a call of a driver ends, with the caller's matrix as the call
    leaves it.

    Modelled from the spec: the macro [tlapack_check_false(cond)] is not
    among the sources; a failed validation fails the call ([CheckError]).
    [Trap] is a division by zero, [OutOfFuel] the model's bound on the
    number of blocks. *)
Inductive call : Type :=
| Return (info : Z) (X : matrix R)
| CheckError (X : matrix R)
| Trap (X : matrix R)
| OutOfFuel (X : matrix R).

(** [for (idx_t i = i0; i != iN; i = next(i)) body(i)]. *)
Fixpoint block_loop (fuel : nat) (i iN : Z) (next : Z -> Z)
    (body : Z -> matrix R -> matrix R) (X : matrix R) : option (matrix R) :=
  if i =? iN then Some X
  else match fuel with
       | O => None
       | S fuel' => block_loop fuel' (next i) iN next body (body i X)
       end.

(** The work on one block: the collaborators [larft], [larfb],
    [larfb_work] and [ung2r_work] are not among the sources, so what a
    driver does with block [i] of width [ib] is a parameter:
    ungqr.hpp lines 150-167, unmlq.hpp lines 232-246, unmrq.hpp lines
    466-481. *)
Variable ungqr_block : Z -> Z -> list R -> matrix R -> matrix R.
Variable unmlq_block : Z -> Z -> Z -> Z -> matrix R -> list R -> matrix R -> matrix R.
Variable unmrq_block : Z -> Z -> Z -> Z -> matrix R -> list R -> matrix R -> matrix R.
(** [is_complex<matrixA_t>::value], as unmlq writes it. *)
Variable is_complex_matrixA : bool.

(** [for (l = 0; l < cnt; l++) A(l, j) = zero]. *)
Definition zero_column (cnt : nat) (j : nat) (A : matrix R) : matrix R :=
  for_loop cnt (fun l A => upd A l j s_zero) A.

(** [ungqr(A, tau, opts)] (ungqr.hpp, lines 106-175). *)
Definition ungqr (A : matrix R) (tau : list R) (opts : Opts) : call :=
  let m := Z.of_nat (nrows A) in
  let n := Z.of_nat (ncols A) in
  let k := Z.of_nat (length tau) in
  let nb := Z.min (Z.of_nat (nb opts)) k in
  (* check arguments *)
  if k >? n then CheckError A
  (* quick return *)
  else if n <=? 0 then Return 0 A
  else
    (* Initialise columns k:n-1 to columns of the unit matrix *)
    let A :=
      for_loop (Z.to_nat (Z.min m n - k))
        (fun jj A =>
           let j := (length tau + jj)%nat in
           upd (zero_column (nrows A) j A) j j s_one)
        A in
    if nb =? 0 then Trap A
    else
      match
        block_loop (length tau) (idx_t ((idx_t (k - 1) / nb) * nb)) (idx_t (- nb))
          (fun i => idx_t (i - nb))
          (fun i A =>
             let ib := Z.min nb (idx_t (k - i)) in
             let A := ungqr_block i ib tau A in
             (* Set rows 0:i-1 of current block to zero *)
             for_loop (Z.to_nat ib)
               (fun jj A => zero_column (Z.to_nat i) (Z.to_nat i + jj)%nat A) A)
          A
      with
      | Some A => Return 0 A
      | None => OutOfFuel A
      end.

(** The loop common to unmlq and unmrq: [i0], [iN] and [inc] from
    [positiveInc], then [for (i = i0; i != iN; i += inc)]. *)
Definition block_sweep (positiveInc : bool) (k nb : Z) (fuel : nat)
    (body : Z -> matrix R -> matrix R) (C : matrix R) : option (matrix R) :=
  let i0 := if positiveInc then 0 else idx_t ((idx_t (k - 1) / nb) * nb) in
  let iN := if positiveInc then idx_t ((idx_t (k - 1) / nb + 1) * nb) else idx_t (- nb) in
  let inc := if positiveInc then nb else idx_t (- nb) in
  block_loop fuel i0 iN (fun i => idx_t (i + inc)) body C.

(** [unmlq(side, trans, A, tau, C, opts)] (unmlq.hpp, lines 167-250). *)
Definition unmlq (side trans : Z) (A : matrix R) (tau : list R) (C : matrix R)
    (opts : Opts) : call :=
  let m := Z.of_nat (nrows C) in
  let n := Z.of_nat (ncols C) in
  let k := Z.of_nat (length tau) in
  let nb := Z.min (Z.of_nat (nb opts)) k in
  (* check arguments *)
  if negb (side =? Side.Left) && negb (side =? Side.Right) then CheckError C
  else if negb (trans =? Op.NoTrans) && negb (trans =? Op.Trans) &&
          negb (trans =? Op.ConjTrans) then CheckError C
  else if (trans =? Op.Trans) && is_complex_matrixA then CheckError C
  (* quick return *)
  else if (m =? 0) || (n =? 0) || (k =? 0) then Return 0 C
  else if nb =? 0 then Trap C
  else
    (* Preparing loop indexes *)
    let positiveInc :=
      ((side =? Side.Left) && (trans =? Op.NoTrans)) ||
      (negb (side =? Side.Left) && negb (trans =? Op.NoTrans)) in
    (* Main loop *)
    match
      block_sweep positiveInc k nb (length tau)
        (fun i C => unmlq_block side trans i (Z.min nb (idx_t (k - i))) A tau C) C
    with
    | Some C => Return 0 C
    | None => OutOfFuel C
    end.

(** [unmrq(side, trans, A, tau, C, opts)] (unmrq.hpp, lines 415-485). *)
Definition unmrq (side trans : Z) (A : matrix R) (tau : list R) (C : matrix R)
    (opts : Opts) : call :=
  let m := Z.of_nat (nrows C) in
  let n := Z.of_nat (ncols C) in
  let k := Z.of_nat (length tau) in
  let nb := Z.min (Z.of_nat (nb opts)) k in
  (* check arguments *)
  if negb (side =? Side.Left) && negb (side =? Side.Right) then CheckError C
  else if negb (trans =? Op.NoTrans) && negb (trans =? Op.Trans) &&
          negb (trans =? Op.ConjTrans) then CheckError C
  else if (trans =? Op.Trans) && is_complex then CheckError C
  (* quick return *)
  else if (m =? 0) || (n =? 0) || (k =? 0) then Return 0 C
  else if nb =? 0 then Trap C
  else
    (* Preparing loop indexes *)
    let positiveInc :=
      ((side =? Side.Left) && negb (trans =? Op.NoTrans)) ||
      (negb (side =? Side.Left) && (trans =? Op.NoTrans)) in
    (* Main loop *)
    match
      block_sweep positiveInc k nb (length tau)
        (fun i C => unmrq_block side trans i (Z.min nb (idx_t (k - i))) A tau C) C
    with
    | Some C => Return 0 C
    | None => OutOfFuel C
    end.

(** The two parts of ungqr around its calls of the collaborators: the
    initialisation of columns [k .. min(m,n)-1] (lines 141-146) and the
    work on block [i] of width [ib], which ends by zeroing the rows above
    the block (lines 149-169). *)
Definition ungqr_init (A : matrix R) (tau : list R) : matrix R :=
  let m := Z.of_nat (nrows A) in
  let n := Z.of_nat (ncols A) in
  let k := Z.of_nat (length tau) in
  for_loop (Z.to_nat (Z.min m n - k))
    (fun jj A =>
       let j := (length tau + jj)%nat in
       upd (zero_column (nrows A) j A) j j s_one)
    A.

Definition ungqr_step (tau : list R) (i ib : Z) (A : matrix R) : matrix R :=
  let A := ungqr_block i ib tau A in
  for_loop (Z.to_nat ib)
    (fun jj A => zero_column (Z.to_nat i) (Z.to_nat i + jj)%nat A) A.

End Drivers.

(** The indices [i, i+1, ..., i+n-1]. *)
Definition range (i n : Z) : list Z :=
  map (fun t => (i + Z.of_nat t)%Z) (seq 0 (Z.to_nat n)).

(** The blocks of at most [nb] among [k] reflectors, in increasing order:
    block [j] starts at [i = j*nb] and holds [ib = min(nb, k - i)]
    reflectors; there are [(k-1)/nb + 1] of them. *)
Definition blocks (k nb : Z) : list (Z * Z) :=
  map (fun j => let i := (Z.of_nat j * nb)%Z in (i, Z.min nb (k - i)))
      (seq 0 (Z.to_nat ((k - 1) / nb + 1))).

End Tlapack.

(** ** Tile-aligned slicing (include/tlapack/plugins/starpu.hpp) *)

Module Starpu.
Local Open Scope Z_scope.

(** Arithmetic in [uint32_t]. *)
Definition uint32_t (z : Z) : Z := z mod 2 ^ 32.

(** [starpu::Matrix<T>] (tlapack/starpu/Matrix.hpp is not among the
    sources): what [slice] reads of it, the extents of the matrix and the
    extents [mb], [nb] of a tile. *)
Record Matrix : Type := mk_Matrix {
  nrows : Z;
  ncols : Z;
  nblockrows : Z;
  nblockcols : Z
}.

(** The view [A.get_tiles(ix, iy, nx, ny)] or
    [A.get_const_tiles(ix, iy, nx, ny)]: [nx]-by-[ny] tiles from tile
    [(ix, iy)]. *)
Record tiles : Type := mk_tiles {
  is_const : bool;
  ix : Z;
  iy : Z;
  nx : Z;
  ny : Z
}.

(** How a call ends.

    Modelled from the spec: the macro [tlapack_check(cond)] is not among
    the sources; when [cond] fails the slicing "must be rejected (signals
    an InvalidRangeError)".  [DivisionByZero] is [%] by a tile extent of
    zero. *)
Inductive result : Type :=
| Tiles (t : tiles)
| InvalidRangeError
| DivisionByZero.

(** [slice(const starpu::Matrix<T>& A, rows, cols)] (lines 80-105). *)
Definition slice_const (A : Matrix) (rows cols : Z * Z) : result :=
  let row0 := uint32_t (fst rows) in
  let col0 := uint32_t (fst cols) in
  let row1 := uint32_t (snd rows) in
  let col1 := uint32_t (snd cols) in
  let nrows_ := uint32_t (row1 - row0) in
  let ncols_ := uint32_t (col1 - col0) in
  let mb := uint32_t (nblockrows A) in
  let nb := uint32_t (nblockcols A) in
  if mb =? 0 then DivisionByZero
  else if negb (row0 mod mb =? 0) then InvalidRangeError
  else if nb =? 0 then DivisionByZero
  else if negb (col0 mod nb =? 0) then InvalidRangeError
  else if negb ((nrows_ mod mb =? 0) ||
                ((row1 =? nrows A) && (uint32_t (nrows_ - 1) mod mb =? 0)))
       then InvalidRangeError
  else if negb ((ncols_ mod nb =? 0) ||
                ((col1 =? ncols A) && (uint32_t (ncols_ - 1) mod nb =? 0)))
       then InvalidRangeError
  else
    Tiles (mk_tiles true (row0 / mb) (col0 / nb)
             (if nrows_ =? 0 then 0 else Z.max (nrows_ / mb) 1)
             (if ncols_ =? 0 then 0 else Z.max (ncols_ / nb) 1)).

(** [slice(starpu::Matrix<T>& A, rows, cols)] (lines 112-136). *)
Definition slice (A : Matrix) (rows cols : Z * Z) : result :=
  let row0 := uint32_t (fst rows) in
  let col0 := uint32_t (fst cols) in
  let row1 := uint32_t (snd rows) in
  let col1 := uint32_t (snd cols) in
  let nrows_ := uint32_t (row1 - row0) in
  let ncols_ := uint32_t (col1 - col0) in
  let mb := uint32_t (nblockrows A) in
  let nb := uint32_t (nblockcols A) in
  if mb =? 0 then DivisionByZero
  else if negb (row0 mod mb =? 0) then InvalidRangeError
  else if nb =? 0 then DivisionByZero
  else if negb (col0 mod nb =? 0) then InvalidRangeError
  else if negb ((nrows_ mod mb =? 0) ||
                ((row1 =? nrows A) && (uint32_t (nrows_ - 1) mod mb =? 0)))
       then InvalidRangeError
  else if negb ((ncols_ mod nb =? 0) ||
                ((col1 =? ncols A) && (uint32_t (ncols_ - 1) mod nb =? 0)))
       then InvalidRangeError
  else
    Tiles (mk_tiles false (row0 / mb) (col0 / nb)
             (if nrows_ =? 0 then 0 else Z.max (nrows_ / mb) 1)
             (if ncols_ =? 0 then 0 else Z.max (ncols_ / nb) 1)).

(** [rows(A, rows)] and [cols(A, cols)] (lines 204-241). *)
Definition rows (A : Matrix) (r : Z * Z) : result := slice A r (0, ncols A).

Definition cols (A : Matrix) (c : Z * Z) : result := slice A (0, nrows A) c.

(** [row(A, rowIdx)] and [col(A, colIdx)] (lines 191-228). *)
Definition row (A : Matrix) (rowIdx : Z) : result :=
  slice A (rowIdx, uint32_t (rowIdx + 1)) (0, ncols A).

Definition col (A : Matrix) (colIdx : Z) : result :=
  slice A (0, nrows A) (colIdx, uint32_t (colIdx + 1)).

(** [slice(v, range, colIdx)] and [slice(v, rowIdx, range)] (lines
    140-166): one column, or one row, of a range. *)
Definition slice_at_col (v : Matrix) (range : Z * Z) (colIdx : Z) : result :=
  slice v range (colIdx, uint32_t (colIdx + 1)).

Definition slice_at_row (v : Matrix) (rowIdx : Z) (range : Z * Z) : result :=
  slice v (rowIdx, uint32_t (rowIdx + 1)) range.

(** [slice(v, range)] (lines 168-187), for a matrix that is a vector:
    [assert((v.nrows() <= 1 || v.ncols() <= 1) && ...)] stops the call on
    any other matrix. *)
Inductive vector_result : Type :=
| NotAVector
| Sliced (r : result).

Definition slice_vector (v : Matrix) (range : Z * Z) : vector_result :=
  if negb ((nrows v <=? 1) || (ncols v <=? 1)) then NotAVector
  else if nrows v >? 1 then Sliced (slice v range (0, 1))
  else Sliced (slice v (0, 1) range).

(** A call succeeded. *)
Definition succeeds (r : result) : Prop := exists t, r = Tiles t.

(** The rule in the spec's words: the boundaries "are multiples of the
    tile extents, except that the final, possibly ragged tile is
    permitted to end at the true matrix boundary".  [r0], [r1] bound the
    rows, [c0], [c1] the columns. *)
Definition spec_aligned (A : Matrix) (rows cols : Z * Z) : Prop :=
  let mb := nblockrows A in
  let nb := nblockcols A in
  (mb | fst rows) /\ (nb | fst cols) /\
  ((mb | snd rows - fst rows) \/ snd rows = nrows A) /\
  ((nb | snd cols - fst cols) \/ snd cols = ncols A).

(** The rule the code applies: an extent that is not a whole number of
    tiles must end at the matrix boundary and exceed a whole number of
    tiles by exactly one. *)
Definition code_aligned (A : Matrix) (rows cols : Z * Z) : Prop :=
  let mb := nblockrows A in
  let nb := nblockcols A in
  (mb | fst rows) /\ (nb | fst cols) /\
  ((mb | snd rows - fst rows) \/
   (snd rows = nrows A /\ (mb | snd rows - fst rows - 1))) /\
  ((nb | snd cols - fst cols) \/
   (snd cols = ncols A /\ (nb | snd cols - fst cols - 1))).

(** A request the type [uint32_t] can hold, on tiles that have extents. *)
Definition well_formed (A : Matrix) (rows cols : Z * Z) : Prop :=
  0 < nblockrows A < 2 ^ 32 /\ 0 < nblockcols A < 2 ^ 32 /\
  0 <= fst rows <= snd rows /\ snd rows < 2 ^ 32 /\
  0 <= fst cols <= snd cols /\ snd cols < 2 ^ 32.

(** A matrix the type [uint32_t] can describe, on tiles that have
    extents. *)
Definition tiled (A : Matrix) : Prop :=
  0 < nblockrows A < 2 ^ 32 /\ 0 < nblockcols A < 2 ^ 32 /\
  0 <= nrows A < 2 ^ 32 /\ 0 <= ncols A < 2 ^ 32.

(** One extent of a request against the tile extent [mb], as the code
    accepts it: a whole number of tiles, or one past a whole number of
    tiles at the boundary [bound] of the matrix. *)
Definition extent_aligned (mb r0 r1 bound : Z) : Prop :=
  (mb | r1 - r0) \/ (r1 = bound /\ (mb | r1 - r0 - 1)).

(** The number [nx] of tiles of a view against the extent [e] it was
    asked for: none for an empty extent, the whole tiles of an extent
    that is a whole number of tiles, and otherwise the single tile of an
    extent of one, or the whole tiles below the extent. *)
Definition tile_count (mb e nx : Z) : Prop :=
  (e = 0 -> nx = 0) /\
  ((mb | e) -> nx * mb = e) /\
  (~ (mb | e) -> (e = 1 /\ nx = 1) \/ (mb < e /\ nx * mb = e - 1)).

End Starpu.

(** ** Concrete inputs

    Small arguments on which the routines are run below. *)

(** A 5-by-5 and a 4-by-4 matrix of 3-by-3 tiles: 2-by-2 grids whose last
    tiles are ragged. *)
Definition ragged_5x5 : Starpu.Matrix := Starpu.mk_Matrix 5 5 3 3.

Definition ragged_4x4 : Starpu.Matrix := Starpu.mk_Matrix 4 4 3 3.

(** A 7-by-6 matrix of 3-by-3 tiles, whose last tile row holds one row,
    and a column vector of seven rows in tiles of three. *)
Definition ragged_7x6 : Starpu.Matrix := Starpu.mk_Matrix 7 6 3 3.

Definition column_7 : Starpu.Matrix := Starpu.mk_Matrix 7 1 3 1.

(** An integer matrix from its rows. *)
Definition of_rows (m n : nat) (l : list (list Z)) : matrix Z :=
  mk_matrix m n (fun i j => nth j (nth i l nil) 0%Z).

Definition V_3x2 : matrix Z := of_rows 3 2 [[9; 9]; [2; 9]; [3; 4]]%Z.

Definition T_2x2 : matrix Z := of_rows 2 2 [[5; 6]; [9; 7]]%Z.

Definition C_3x2 : matrix Z := of_rows 3 2 [[1; 2]; [3; 4]; [5; 6]]%Z.

Definition W_2x2 : matrix Z := of_rows 2 2 [[0; 0]; [0; 0]]%Z.

(** Two reflectors on the columns of [V_3x2], [v0 = (1, 2, 3)] and
    [v1 = (0, 1, 4)], with their triangular factor: [T(0,1)] is
    [- 3 * 2 * (v0 . v1) = -84]; the entry below the diagonal is never
    read. *)
Definition tau_2 : nat -> Z := fun j => nth j [2; 3]%Z 0%Z.

Definition Tf_2x2 : matrix Z := of_rows 2 2 [[2; -84]; [9; 3]]%Z.

Definition V_3x0 : matrix Z := of_rows 3 0 [].

Definition T_0x0 : matrix Z := of_rows 0 0 [].

Definition W_0x2 : matrix Z := of_rows 0 2 [].

Definition C_0x2 : matrix Z := of_rows 0 2 [].


Definition A_3x2 : matrix Z := of_rows 3 2 [[1; 0]; [0; 1]; [1; 1]]%Z.

Definition C_2x2 : matrix Z := of_rows 2 2 [[1; 2]; [3; 4]]%Z.

(** Matrices of Gaussian integers. *)
Definition Vi_3x2 : matrix (Z * Z) := mk_matrix 3 2 (fun _ _ => (1, 1)%Z).

Definition Ti_2x2 : matrix (Z * Z) := mk_matrix 2 2 (fun _ _ => (1, 0)%Z).

Definition Ci_3x2 : matrix (Z * Z) := mk_matrix 3 2 (fun _ _ => (2, 3)%Z).

Definition Wi_2x2 : matrix (Z * Z) := mk_matrix 2 2 (fun _ _ => (0, 0)%Z).

(** Work on a block that leaves its trace: the start of the block is
    appended, as a decimal digit, to entry (0,0). *)
Definition trace3 : Z -> Z -> list Z -> matrix Z -> matrix Z :=
  fun i _ _ A => upd A 0 0 (elt A 0 0 * 10 + i)%Z.

Definition trace6 : Z -> Z -> Z -> Z -> matrix Z -> list Z -> matrix Z -> matrix Z :=
  fun _ _ i _ _ _ C => upd C 0 0 (elt C 0 0 * 10 + i)%Z.

(** Two reflectors stored rowwise, for a matrix with three rows, and the
    workspace of a call with side = Right on a 3-by-2 matrix. *)
Definition Vi_2x3 : matrix (Z * Z) :=
  mk_matrix 2 3 (fun i j => (Z.of_nat i + 1, Z.of_nat j - 1)%Z).

Definition Wi_3x2 : matrix (Z * Z) := mk_matrix 3 2 (fun _ _ => (0, 0)%Z).

Definition Vi_2x2 : matrix (Z * Z) :=
  mk_matrix 2 2 (fun i j => (Z.of_nat i - 2, Z.of_nat j + 1)%Z).

(** Work on a block that leaves the matrix as it is, to run the drivers
    without their collaborators. *)
Definition keep3 : Z -> Z -> list Z -> matrix Z -> matrix Z := fun _ _ _ A => A.

Definition keep6 : Z -> Z -> Z -> Z -> matrix Z -> list Z -> matrix Z -> matrix Z :=
  fun _ _ _ _ _ _ C => C.


(* ===================================================================== *)
(** * Part II: properties                                                *)
(* ===================================================================== *)

(** ** geru *)

Section GeruProperties.
Context {R : Type} {SR : Scalar R}.
Local Open Scope Z_scope.

(** A call with [Layout::ColMajor] makes no nested call: its outcome does
    not depend on the fuel left. *)
Lemma geru_rec_ColMajor_fuel (f f' : nat) m n alpha x incx y incy A lda :
  Blas.geru_rec (S f) Layout.ColMajor m n alpha x incx y incy A lda =
  Blas.geru_rec (S f') Layout.ColMajor m n alpha x incx y incy A lda.
Proof. reflexivity. Qed.

(** The model's bound on nested calls is never reached. *)
Lemma geru_terminates layout m n alpha x incx y incy A lda :
  Blas.geru layout m n alpha x incx y incy A lda <> Blas.OutOfFuel.
Proof.
  unfold Blas.geru. cbn [Blas.geru_rec].
  change (Layout.ColMajor =? Layout.RowMajor) with false.
  change (Layout.ColMajor =? Layout.ColMajor) with true.
  cbn [negb andb].
  repeat match goal with
         | |- context [if ?b then _ else _] => destruct b; try discriminate
         end.
Qed.

(** C9.  With valid arguments (a layout of the enumeration, [m, n >= 0],
    nonzero strides, [lda] at least the leading extent), a call with
    [alpha = 0], [m = 0] or [n = 0] returns with the storage of [A]
    unchanged. *)
Theorem geru_quick_return {L : ScalarLaws R} layout m n alpha x incx y incy A lda :
  layout = Layout.ColMajor \/ layout = Layout.RowMajor ->
  0 <= m -> 0 <= n -> incx <> 0 -> incy <> 0 ->
  (layout = Layout.ColMajor -> m <= lda) ->
  (layout = Layout.RowMajor -> n <= lda) ->
  alpha = s_zero \/ m = 0 \/ n = 0 ->
  Blas.geru layout m n alpha x incx y incy A lda = Blas.Returned A.
Proof.
  intros Hlay Hm Hn Hix Hiy Hcol Hrow Hq.
  assert (Hquick : (m =? 0) || (n =? 0) || s_eqb alpha s_zero = true).
  { destruct Hq as [-> | [-> | ->]].
    - rewrite (proj2 (s_eqb_eq s_zero s_zero) eq_refl). apply orb_true_r.
    - reflexivity.
    - rewrite Z.eqb_refl, orb_true_r. reflexivity. }
  unfold Blas.geru. cbn [Blas.geru_rec].
  replace (m <? 0) with false by (symmetry; apply Z.ltb_ge; lia).
  replace (n <? 0) with false by (symmetry; apply Z.ltb_ge; lia).
  replace (incx =? 0) with false by (symmetry; apply Z.eqb_neq; assumption).
  replace (incy =? 0) with false by (symmetry; apply Z.eqb_neq; assumption).
  rewrite Hquick.
  destruct Hlay as [-> | ->].
  - replace (lda <? m) with false by (symmetry; apply Z.ltb_ge; auto).
    reflexivity.
  - replace (lda <? n) with false by (symmetry; apply Z.ltb_ge; auto).
    reflexivity.
Qed.

(** C10.  A row-major call is the column-major call on the swapped
    extents and exchanged vectors: same outcome, same storage. *)
Theorem geru_RowMajor_is_swapped_ColMajor m n alpha x incx y incy A lda :
  Blas.geru Layout.RowMajor m n alpha x incx y incy A lda =
  Blas.geru Layout.ColMajor n m alpha y incy x incx A lda.
Proof.
  unfold Blas.geru.
  change (Blas.geru_rec 2 Layout.RowMajor m n alpha x incx y incy A lda)
    with (if m <? 0 then Blas.Error A
          else if n <? 0 then Blas.Error A
          else if incx =? 0 then Blas.Error A
          else if incy =? 0 then Blas.Error A
          else if lda <? n then Blas.Error A
          else if (m =? 0) || (n =? 0) || s_eqb alpha s_zero then Blas.Returned A
          else Blas.geru_rec 1 Layout.ColMajor n m alpha y incy x incx A lda).
  rewrite (geru_rec_ColMajor_fuel 1 0).
  destruct (m <? 0) eqn:Hm; destruct (n <? 0) eqn:Hn;
    destruct (incx =? 0) eqn:Hix; destruct (incy =? 0) eqn:Hiy;
    destruct (lda <? n) eqn:Hlda;
    destruct (m =? 0) eqn:Hm0; destruct (n =? 0) eqn:Hn0;
    destruct (s_eqb alpha s_zero) eqn:Ha;
    cbn [orb]; try reflexivity;
    cbn [Blas.geru_rec];
    change (Layout.ColMajor =? Layout.RowMajor) with false;
    change (Layout.ColMajor =? Layout.ColMajor) with true;
    cbn [negb andb];
    rewrite ?Hm, ?Hn, ?Hix, ?Hiy, ?Hlda, ?Hm0, ?Hn0, ?Ha;
    reflexivity.
Qed.

End GeruProperties.

(** The integers satisfy the laws of exact arithmetic. *)
Lemma Z_ScalarLaws : ScalarLaws Z.
Proof.
  split.
  - exact Zth.
  - intros a b. apply Z.eqb_eq.
Qed.

#[export] Existing Instance Z_ScalarLaws.

Lemma geru_quick_return_witness :
  Blas.geru Layout.ColMajor 2 3 0%Z (fun i => i) 1 (fun i => 2 * i)%Z 1 (fun _ => 7%Z) 2 =
  Blas.Returned (fun _ => 7%Z).
Proof.
  apply (geru_quick_return (L := Z_ScalarLaws)); try lia; try discriminate.
  left; reflexivity.
Defined.

(** *** What geru computes *)

Section GeruCorrectness.
Context {R : Type} {SR : Scalar R} {L : ScalarLaws R}.
Local Open Scope Z_scope.

Lemma size_t_small z : 0 <= z < 2 ^ 64 -> Blas.size_t z = z.
Proof. intros H. unfold Blas.size_t. apply Z.mod_small. exact H. Qed.

Lemma store_get (A : Blas.array) (i : Z) (v : R) (idx : Z) :
  Blas.store A i v idx = if idx =? i then v else A idx.
Proof. reflexivity. Qed.

(** One column: the loop over [i] adds [x[i] * tmp] to the [m] entries of
    column [j] and touches nothing else. *)
Lemma axpy_col_unit_spec (m lda : Z) (x : Blas.array) (tmp : R) (j : Z) (A : Blas.array) :
  0 <= m -> 0 <= j -> 0 <= lda -> j * lda + m <= 2 ^ 64 ->
  forall idx,
    Blas.axpy_col_unit m lda x tmp j A idx =
    if (j * lda <=? idx) && (idx <? j * lda + m)
    then s_add (A idx) (s_mul (x (idx - j * lda)) tmp)
    else A idx.
Proof.
  intros Hm Hj Hlda Hfit idx. unfold Blas.axpy_col_unit.
  assert (G : forall c : nat, Z.of_nat c <= m ->
    for_loop c
      (fun i A0 =>
         Blas.store A0 (Blas.A_index lda (Z.of_nat i) j)
           (s_add (A0 (Blas.A_index lda (Z.of_nat i) j)) (s_mul (x (Z.of_nat i)) tmp))) A idx =
    if (j * lda <=? idx) && (idx <? j * lda + Z.of_nat c)
    then s_add (A idx) (s_mul (x (idx - j * lda)) tmp)
    else A idx).
  { induction c as [| c IH]; intros Hc.
    - cbn [for_loop]. 
      destruct (Z.leb_spec (j * lda) idx), (Z.ltb_spec idx (j * lda + Z.of_nat 0));
        cbn [andb]; try reflexivity; lia.
    - cbn [for_loop].
      assert (Hidx : Blas.A_index lda (Z.of_nat c) j = Z.of_nat c + j * lda).
      { unfold Blas.A_index. rewrite (size_t_small (z := j * lda)) by nia.
        apply size_t_small. nia. }
      rewrite Hidx, store_get.
      destruct (Z.eqb_spec idx (Z.of_nat c + j * lda)) as [-> | Hne].
      + rewrite IH by lia.
        destruct (Z.leb_spec (j * lda) (Z.of_nat c + j * lda)); [| lia].
        destruct (Z.ltb_spec (Z.of_nat c + j * lda) (j * lda + Z.of_nat c)); [lia |].
        destruct (Z.ltb_spec (Z.of_nat c + j * lda) (j * lda + Z.of_nat (S c))); [| lia].
        cbn [andb]. repeat f_equal. lia.
      + rewrite IH by lia.
        destruct (Z.leb_spec (j * lda) idx); cbn [andb]; [| reflexivity].
        destruct (Z.ltb_spec idx (j * lda + Z.of_nat c)),
                 (Z.ltb_spec idx (j * lda + Z.of_nat (S c))); try reflexivity; lia. }
  cbv zeta. rewrite (G (Z.to_nat m)) by lia.
  rewrite Z2Nat.id by lia. reflexivity.
Qed.

(** A column-major call with unit strides, at least one row and one
    column, a nonzero [alpha] and storage that the index type can
    address returns with [A + alpha x y^T] in the storage of [A]: entry
    [(i, j)], at index [i + j*lda], gained [x[i] * (alpha * y[j])], and
    no other index changed. *)
Theorem geru_ColMajor_unit_stride (m n : Z) (alpha : R) (x y A : Blas.array) (lda : Z) :
  0 < m -> 0 < n -> m <= lda -> n * lda <= 2 ^ 64 -> alpha <> s_zero ->
  exists A',
    Blas.geru Layout.ColMajor m n alpha x 1 y 1 A lda = Blas.Returned A' /\
    forall idx, A' idx = Blas.rank1_update m n alpha x y A lda idx.
Proof.
  intros Hm Hn Hlda Hfit Ha.
  unfold Blas.geru. cbn [Blas.geru_rec].
  change (Layout.ColMajor =? Layout.RowMajor) with false.
  change (Layout.ColMajor =? Layout.ColMajor) with true.
  change (1 =? 0) with false. change (1 =? 1) with true.
  cbn [negb andb].
  replace (m <? 0) with false by (symmetry; apply Z.ltb_ge; lia).
  replace (n <? 0) with false by (symmetry; apply Z.ltb_ge; lia).
  replace (lda <? m) with false by (symmetry; apply Z.ltb_ge; lia).
  replace (m =? 0) with false by (symmetry; apply Z.eqb_neq; lia).
  replace (n =? 0) with false by (symmetry; apply Z.eqb_neq; lia).
  replace (s_eqb alpha s_zero) with false.
  2:{ symmetry. apply not_true_iff_false. intros H. apply Ha. apply s_eqb_eq. exact H. }
  cbn [orb]. eexists. split; [reflexivity |].
  intros idx. unfold Blas.rank1_update.
  assert (G : forall c : nat, Z.of_nat c <= n ->
    for_loop c
      (fun j A0 =>
         Blas.axpy_col_unit m lda x (s_mul alpha (y (Z.of_nat j))) (Z.of_nat j) A0) A idx =
    if (0 <=? idx) && (idx mod lda <? m) && (idx / lda <? Z.of_nat c)
    then s_add (A idx) (s_mul (x (idx mod lda)) (s_mul alpha (y (idx / lda))))
    else A idx).
  { induction c as [| c IH]; intros Hc.
    - cbn [for_loop]. 
      destruct (Z.leb_spec 0 idx); cbn [andb]; [| reflexivity].
      destruct (idx mod lda <? m); cbn [andb]; [| reflexivity].
      destruct (Z.ltb_spec (idx / lda) (Z.of_nat 0)); [| reflexivity].
      pose proof (Z.div_pos idx lda ltac:(lia) ltac:(lia)). lia.
    - cbn [for_loop].
      rewrite axpy_col_unit_spec by nia.
      rewrite IH by lia.
      destruct (Z.leb_spec 0 idx) as [H0 | H0]; cbn [andb].
      + pose proof (Z.div_mod idx lda ltac:(lia)) as Hdm.
        pose proof (Z.mod_pos_bound idx lda ltac:(lia)) as Hmb.
        destruct (Z.leb_spec (Z.of_nat c * lda) idx) as [H1 | H1],
                 (Z.ltb_spec idx (Z.of_nat c * lda + m)) as [H2 | H2]; cbn [andb].
        * assert (Ej : idx / lda = Z.of_nat c).
          { symmetry. apply (Z.div_unique idx lda (Z.of_nat c) (idx - Z.of_nat c * lda)); lia. }
          assert (Ei : idx mod lda = idx - Z.of_nat c * lda).
          { symmetry. apply (Z.mod_unique idx lda (Z.of_nat c) (idx - Z.of_nat c * lda)); lia. }
          rewrite Ej, Ei.
          replace (idx - Z.of_nat c * lda <? m) with true by (symmetry; apply Z.ltb_lt; lia).
          replace (Z.of_nat c <? Z.of_nat c) with false by (symmetry; apply Z.ltb_irrefl).
          replace (Z.of_nat c <? Z.of_nat (S c)) with true by (symmetry; apply Z.ltb_lt; lia).
          reflexivity.
        * destruct (Z.ltb_spec (idx mod lda) m) as [H3 | H3]; cbn [andb]; [| reflexivity].
          destruct (Z.ltb_spec (idx / lda) (Z.of_nat c)) as [H4 | H4],
                   (Z.ltb_spec (idx / lda) (Z.of_nat (S c))) as [H5 | H5];
            try reflexivity; try lia;
            exfalso; assert (idx / lda = Z.of_nat c) by lia; nia.
        * destruct (Z.ltb_spec (idx mod lda) m) as [H3 | H3]; cbn [andb]; [| reflexivity].
          destruct (Z.ltb_spec (idx / lda) (Z.of_nat c)) as [H4 | H4],
                   (Z.ltb_spec (idx / lda) (Z.of_nat (S c))) as [H5 | H5];
            try reflexivity; try lia;
            exfalso; assert (idx / lda = Z.of_nat c) by lia; nia.
        * destruct (Z.ltb_spec (idx mod lda) m) as [H3 | H3]; cbn [andb]; [| reflexivity].
          destruct (Z.ltb_spec (idx / lda) (Z.of_nat c)) as [H4 | H4],
                   (Z.ltb_spec (idx / lda) (Z.of_nat (S c))) as [H5 | H5];
            try reflexivity; try lia;
            exfalso; assert (idx / lda = Z.of_nat c) by lia; nia.
      + destruct (Z.leb_spec (Z.of_nat c * lda) idx); [nia |]. reflexivity. }
  cbv zeta. rewrite (G (Z.to_nat n)) by lia.
  rewrite Z2Nat.id by lia.
  rewrite <- !andb_assoc.
  destruct (0 <=? idx); cbn [andb]; [| reflexivity].
  destruct (idx mod lda <? m); cbn [andb]; reflexivity.
Qed.
End GeruCorrectness.

Lemma geru_ColMajor_unit_stride_witness :
  exists A',
    Blas.geru Layout.ColMajor 2 2 3%Z (fun i => i + 1)%Z 1 (fun j => j + 5)%Z 1
      (fun _ => 0%Z) 2 = Blas.Returned A' /\
    forall idx, A' idx =
      Blas.rank1_update 2 2 3%Z (fun i => i + 1)%Z (fun j => j + 5)%Z (fun _ => 0%Z) 2 idx.
Proof.
  apply (@geru_ColMajor_unit_stride Z Z_Scalar Z_ScalarLaws); try lia.
  discriminate.
Defined.

Example geru_2x2_result :
  match Blas.geru Layout.ColMajor 2 2 3%Z (fun i => i + 1)%Z 1 (fun j => j + 5)%Z 1
          (fun _ => 0%Z) 2 with
  | Blas.Returned A' => map A' [0; 1; 2; 3; 4]%Z
  | _ => []
  end = [15; 30; 18; 36; 0]%Z.
Proof. vm_compute. reflexivity. Qed.

(** *** Strides *)

Section GeruStrides.
Context {R : Type} {SR : Scalar R} {L : ScalarLaws R}.
Local Open Scope Z_scope.

Add Ring scalar_ring_geru : scalar_ring.

(** The index [ix] or [jy] after [c] increments, in [size_t]. *)
Lemma size_t_add (a b : Z) : Blas.size_t (Blas.size_t a + Blas.size_t b) = Blas.size_t (a + b).
Proof. unfold Blas.size_t. symmetry. apply Zplus_mod. Qed.

Lemma size_t_idem (a : Z) : Blas.size_t (Blas.size_t a) = Blas.size_t a.
Proof. unfold Blas.size_t. apply Zmod_mod. Qed.

(** Where the walk over a vector starts, and where it is after [i]
    steps: at element [i] of the vector, counted from its far end when
    the stride is negative. *)
Lemma start_index_walk (n inc i : Z) :
  0 < n -> inc <> 0 -> (n - 1) * Z.abs inc < 2 ^ 64 -> 0 <= i < n ->
  Blas.size_t (Blas.start_index n inc + i * inc) = Blas.stride_index n inc i.
Proof.
  intros Hn Hinc Hfit Hi. unfold Blas.start_index, Blas.stride_index.
  destruct (Z.gtb_spec inc 0) as [Hpos | Hneg].
  - apply size_t_small. rewrite Z.abs_eq in Hfit by lia. nia.
  - rewrite Z.abs_neq in Hfit by lia.
    unfold Blas.size_t.
    rewrite Zplus_mod_idemp_l.
    rewrite (Zplus_mod (_ * _)).
    rewrite <- (Zmult_mod (- n mod 2 ^ 64 + 1) inc).
    rewrite <- (Zmult_mod_idemp_l (- n mod 2 ^ 64 + 1) inc).
    rewrite (Zplus_mod_idemp_l (- n) 1).
    rewrite (Zmult_mod_idemp_l (- n + 1) inc).
    rewrite <- Zplus_mod.
    replace ((- n + 1) * inc + i * inc) with ((n - 1 - i) * - inc) by ring.
    apply Z.mod_small. nia.
Qed.


Lemma start_index_reduced (n inc : Z) :
  Blas.size_t (Blas.start_index n inc) = Blas.start_index n inc.
Proof.
  unfold Blas.start_index. destruct (inc >? 0); [reflexivity | apply size_t_idem].
Qed.

Lemma size_t_step (s c inc : Z) :
  Blas.size_t (Blas.size_t (s + c * inc) + Blas.size_t inc) = Blas.size_t (s + (c + 1) * inc).
Proof. rewrite size_t_add. f_equal. ring. Qed.

(** One column, [x] read at [ix]: the loop adds [x[kx + i*incx] * tmp] to
    entry [i] of column [j], the index of [x] taken in [size_t]. *)
Lemma axpy_col_strided_spec (m lda : Z) (x : Blas.array) (kx incx : Z) (tmp : R) (j : Z)
    (A : Blas.array) :
  0 <= m -> 0 <= j -> 0 <= lda -> j * lda + m <= 2 ^ 64 -> Blas.size_t kx = kx ->
  forall idx,
    Blas.axpy_col_strided m lda x kx incx tmp j A idx =
    if (j * lda <=? idx) && (idx <? j * lda + m)
    then s_add (A idx) (s_mul (x (Blas.size_t (kx + (idx - j * lda) * incx))) tmp)
    else A idx.
Proof.
  intros Hm Hj Hlda Hfit Hkx idx. unfold Blas.axpy_col_strided.
  assert (G : forall c : nat, Z.of_nat c <= m ->
    snd (for_loop c
      (fun i '(A0, ix) =>
         (Blas.store A0 (Blas.A_index lda (Z.of_nat i) j)
            (s_add (A0 (Blas.A_index lda (Z.of_nat i) j)) (s_mul (x ix) tmp)),
          Blas.size_t (ix + Blas.size_t incx))) (A, kx)) =
      Blas.size_t (kx + Z.of_nat c * incx) /\
    fst (for_loop c
      (fun i '(A0, ix) =>
         (Blas.store A0 (Blas.A_index lda (Z.of_nat i) j)
            (s_add (A0 (Blas.A_index lda (Z.of_nat i) j)) (s_mul (x ix) tmp)),
          Blas.size_t (ix + Blas.size_t incx))) (A, kx)) idx =
    if (j * lda <=? idx) && (idx <? j * lda + Z.of_nat c)
    then s_add (A idx) (s_mul (x (Blas.size_t (kx + (idx - j * lda) * incx))) tmp)
    else A idx).
  { induction c as [| c IH]; intros Hc.
    - cbn [for_loop fst snd]. split.
      + rewrite Z.add_0_r. symmetry. exact Hkx.
      + destruct (Z.leb_spec (j * lda) idx), (Z.ltb_spec idx (j * lda + Z.of_nat 0));
          cbn [andb]; try reflexivity; lia.
    - cbn [for_loop]. destruct (IH ltac:(lia)) as [IHs IHf].
      destruct (for_loop c _ (A, kx)) as [Ac ixc].
      cbn [fst snd] in *. subst ixc. split.
      + rewrite size_t_step. f_equal. lia.
      + assert (Hidx : Blas.A_index lda (Z.of_nat c) j = Z.of_nat c + j * lda).
        { unfold Blas.A_index. rewrite (size_t_small (z := j * lda)) by nia.
          apply size_t_small. nia. }
        rewrite Hidx, store_get.
        destruct (Z.eqb_spec idx (Z.of_nat c + j * lda)) as [-> | Hne].
        * rewrite IHf.
          destruct (Z.leb_spec (j * lda) (Z.of_nat c + j * lda)); [| lia].
          destruct (Z.ltb_spec (Z.of_nat c + j * lda) (j * lda + Z.of_nat c)); [lia |].
          destruct (Z.ltb_spec (Z.of_nat c + j * lda) (j * lda + Z.of_nat (S c))); [| lia].
          cbn [andb]. repeat f_equal. lia.
        * rewrite IHf.
          destruct (Z.leb_spec (j * lda) idx); cbn [andb]; [| reflexivity].
          destruct (Z.ltb_spec idx (j * lda + Z.of_nat c)),
                   (Z.ltb_spec idx (j * lda + Z.of_nat (S c))); try reflexivity; lia. }
  destruct (G (Z.to_nat m) ltac:(lia)) as [_ Gf].
  rewrite Z2Nat.id in Gf by lia.
  exact Gf.
Qed.


(** The loop over the columns with [jy] threaded through it is the loop
    whose column [j] reads [y] at [jy0 + j*incy]. *)
Lemma columns_threaded (F : Z -> Z -> @Blas.array R -> @Blas.array R) (jy0 incy : Z)
    (A : Blas.array) (c : nat) :
  Blas.size_t jy0 = jy0 ->
  for_loop c
    (fun j '(A0, jy) => (F (Z.of_nat j) jy A0, Blas.size_t (jy + Blas.size_t incy)))
    (A, jy0) =
  (for_loop c (fun j A0 => F (Z.of_nat j) (Blas.size_t (jy0 + Z.of_nat j * incy)) A0) A,
   Blas.size_t (jy0 + Z.of_nat c * incy)).
Proof.
  intros Hjy. induction c as [| c IH].
  - cbn [for_loop]. rewrite Z.add_0_r, Hjy. reflexivity.
  - cbn [for_loop]. rewrite IH. f_equal.
    rewrite size_t_step. f_equal. lia.
Qed.

(** Columns that each gain [xs * ys j] give the rank-1 update. *)
Lemma columns_spec (m n lda : Z) (xs ys : Z -> R) (col : nat -> @Blas.array R -> @Blas.array R)
    (A : Blas.array) :
  0 < m -> m <= lda -> 0 <= n -> n * lda <= 2 ^ 64 ->
  (forall (j : nat) A0 idx, Z.of_nat j < n ->
     col j A0 idx =
     if (Z.of_nat j * lda <=? idx) && (idx <? Z.of_nat j * lda + m)
     then s_add (A0 idx) (s_mul (xs (idx - Z.of_nat j * lda)) (ys (Z.of_nat j)))
     else A0 idx) ->
  forall idx,
    for_loop (Z.to_nat n) col A idx =
    if (0 <=? idx) && (idx mod lda <? m) && (idx / lda <? n)
    then s_add (A idx) (s_mul (xs (idx mod lda)) (ys (idx / lda)))
    else A idx.
Proof.
  intros Hm Hlda Hn Hfit Hcol idx.
  assert (G : forall c : nat, Z.of_nat c <= n ->
    for_loop c col A idx =
    if (0 <=? idx) && (idx mod lda <? m) && (idx / lda <? Z.of_nat c)
    then s_add (A idx) (s_mul (xs (idx mod lda)) (ys (idx / lda)))
    else A idx).
  { induction c as [| c IH]; intros Hc.
    - cbn [for_loop].
      destruct (Z.leb_spec 0 idx); cbn [andb]; [| reflexivity].
      destruct (idx mod lda <? m); cbn [andb]; [| reflexivity].
      destruct (Z.ltb_spec (idx / lda) (Z.of_nat 0)); [| reflexivity].
      pose proof (Z.div_pos idx lda ltac:(lia) ltac:(lia)). lia.
    - cbn [for_loop].
      rewrite Hcol by lia.
      rewrite IH by lia.
      destruct (Z.leb_spec 0 idx) as [H0 | H0]; cbn [andb].
      + pose proof (Z.div_mod idx lda ltac:(lia)) as Hdm.
        pose proof (Z.mod_pos_bound idx lda ltac:(lia)) as Hmb.
        destruct (Z.leb_spec (Z.of_nat c * lda) idx) as [H1 | H1],
                 (Z.ltb_spec idx (Z.of_nat c * lda + m)) as [H2 | H2]; cbn [andb].
        * assert (Ej : idx / lda = Z.of_nat c).
          { symmetry. apply (Z.div_unique idx lda (Z.of_nat c) (idx - Z.of_nat c * lda)); lia. }
          assert (Ei : idx mod lda = idx - Z.of_nat c * lda).
          { symmetry. apply (Z.mod_unique idx lda (Z.of_nat c) (idx - Z.of_nat c * lda)); lia. }
          rewrite Ej, Ei.
          replace (idx - Z.of_nat c * lda <? m) with true by (symmetry; apply Z.ltb_lt; lia).
          replace (Z.of_nat c <? Z.of_nat c) with false by (symmetry; apply Z.ltb_irrefl).
          replace (Z.of_nat c <? Z.of_nat (S c)) with true by (symmetry; apply Z.ltb_lt; lia).
          reflexivity.
        * destruct (Z.ltb_spec (idx mod lda) m) as [H3 | H3]; cbn [andb]; [| reflexivity].
          destruct (Z.ltb_spec (idx / lda) (Z.of_nat c)) as [H4 | H4],
                   (Z.ltb_spec (idx / lda) (Z.of_nat (S c))) as [H5 | H5];
            try reflexivity; try lia;
            exfalso; assert (idx / lda = Z.of_nat c) by lia; nia.
        * destruct (Z.ltb_spec (idx mod lda) m) as [H3 | H3]; cbn [andb]; [| reflexivity].
          destruct (Z.ltb_spec (idx / lda) (Z.of_nat c)) as [H4 | H4],
                   (Z.ltb_spec (idx / lda) (Z.of_nat (S c))) as [H5 | H5];
            try reflexivity; try lia;
            exfalso; assert (idx / lda = Z.of_nat c) by lia; nia.
        * destruct (Z.ltb_spec (idx mod lda) m) as [H3 | H3]; cbn [andb]; [| reflexivity].
          destruct (Z.ltb_spec (idx / lda) (Z.of_nat c)) as [H4 | H4],
                   (Z.ltb_spec (idx / lda) (Z.of_nat (S c))) as [H5 | H5];
            try reflexivity; try lia;
            exfalso; assert (idx / lda = Z.of_nat c) by lia; nia.
      + destruct (Z.leb_spec (Z.of_nat c * lda) idx); [nia |]. reflexivity. }
  rewrite (G (Z.to_nat n)) by lia.
  rewrite Z2Nat.id by lia. reflexivity.
Qed.


Lemma strided_unit (n : Z) (x : @Blas.array R) (i : Z) : Blas.strided n x 1 i = x i.
Proof.
  unfold Blas.strided, Blas.stride_index. change (1 >? 0) with true. cbv iota.
  f_equal. apply Z.mul_1_r.
Qed.

(** The three loops of the column-major case, whatever the strides. *)
Lemma geru_ColMajor_run (m n : Z) (alpha : R) (x : Blas.array) (incx : Z)
    (y : Blas.array) (incy : Z) (A : Blas.array) (lda : Z) :
  0 < m -> 0 < n -> m <= lda -> n * lda <= 2 ^ 64 -> alpha <> s_zero ->
  incx <> 0 -> incy <> 0 ->
  (m - 1) * Z.abs incx < 2 ^ 64 -> (n - 1) * Z.abs incy < 2 ^ 64 ->
  exists A',
    Blas.geru Layout.ColMajor m n alpha x incx y incy A lda = Blas.Returned A' /\
    forall idx,
      A' idx =
      Blas.rank1_update m n alpha (Blas.strided m x incx) (Blas.strided n y incy) A lda idx.
Proof.
  intros Hm Hn Hlda Hfit Ha Hix Hiy Hfx Hfy.
  unfold Blas.geru. cbn [Blas.geru_rec].
  change (Layout.ColMajor =? Layout.RowMajor) with false.
  change (Layout.ColMajor =? Layout.ColMajor) with true.
  cbn [negb andb].
  replace (m <? 0) with false by (symmetry; apply Z.ltb_ge; lia).
  replace (n <? 0) with false by (symmetry; apply Z.ltb_ge; lia).
  replace (incx =? 0) with false by (symmetry; apply Z.eqb_neq; lia).
  replace (incy =? 0) with false by (symmetry; apply Z.eqb_neq; lia).
  replace (lda <? m) with false by (symmetry; apply Z.ltb_ge; lia).
  replace (m =? 0) with false by (symmetry; apply Z.eqb_neq; lia).
  replace (n =? 0) with false by (symmetry; apply Z.eqb_neq; lia).
  replace (s_eqb alpha s_zero) with false.
  2:{ symmetry. apply not_true_iff_false. intros H. apply Ha. apply s_eqb_eq. exact H. }
  cbn [orb]. unfold Blas.rank1_update. cbv zeta.
  assert (Hy : forall j : nat, Z.of_nat j < n ->
            y (Blas.size_t (Blas.start_index n incy + Z.of_nat j * incy)) =
            Blas.strided n y incy (Z.of_nat j)).
  { intros j Hj. unfold Blas.strided. f_equal. apply start_index_walk; lia. }
  destruct (Z.eqb_spec incx 1) as [Ex | Ex]; [destruct (Z.eqb_spec incy 1) as [Ey | Ey] |];
    cbn [andb].
  - (* unit stride *)
    eexists. split; [reflexivity |]. intros idx.
    apply (columns_spec (Blas.strided m x incx)
             (fun j => s_mul alpha (Blas.strided n y incy j))); try lia.
    intros j A0 idx' Hj.
    rewrite axpy_col_unit_spec by nia.
    subst incx incy. rewrite !strided_unit. reflexivity.
  - (* x unit stride, y non-unit stride *)
    eexists. split; [reflexivity |]. intros idx.
    rewrite (columns_threaded
               (fun j jy A0 => Blas.axpy_col_unit m lda x (s_mul alpha (y jy)) j A0)
               incy A (Z.to_nat n) (start_index_reduced n incy)).
    cbn [fst].
    apply (columns_spec (Blas.strided m x incx)
             (fun j => s_mul alpha (Blas.strided n y incy j))); try lia.
    intros j A0 idx' Hj.
    rewrite axpy_col_unit_spec by nia.
    rewrite (Hy j Hj). subst incx. rewrite strided_unit. reflexivity.
  - (* x and y non-unit stride *)
    eexists. split; [reflexivity |]. intros idx.
    rewrite (columns_threaded
               (fun j jy A0 =>
                  Blas.axpy_col_strided m lda x (Blas.start_index m incx) incx
                    (s_mul alpha (y jy)) j A0)
               incy A (Z.to_nat n) (start_index_reduced n incy)).
    cbn [fst].
    apply (columns_spec (Blas.strided m x incx)
             (fun j => s_mul alpha (Blas.strided n y incy j))); try lia.
    intros j A0 idx' Hj.
    rewrite axpy_col_strided_spec by (try apply start_index_reduced; nia).
    rewrite (Hy j Hj).
    destruct (Z.leb_spec (Z.of_nat j * lda) idx'), (Z.ltb_spec idx' (Z.of_nat j * lda + m));
      cbn [andb]; try reflexivity.
    rewrite start_index_walk by lia. reflexivity.
Qed.


(** A column-major call with any nonzero strides, at least one row and
    one column and a nonzero [alpha] returns with [A + alpha x y^T] in the
    storage of [A], [x] and [y] read with their strides, from the far end
    when the stride is negative. *)
Theorem geru_ColMajor_any_stride (m n : Z) (alpha : R) (x : Blas.array) (incx : Z)
    (y : Blas.array) (incy : Z) (A : Blas.array) (lda : Z) :
  0 < m -> 0 < n -> m <= lda -> n * lda <= 2 ^ 64 -> alpha <> s_zero ->
  incx <> 0 -> incy <> 0 ->
  (m - 1) * Z.abs incx < 2 ^ 64 -> (n - 1) * Z.abs incy < 2 ^ 64 ->
  exists A',
    Blas.geru Layout.ColMajor m n alpha x incx y incy A lda = Blas.Returned A' /\
    forall idx,
      A' idx =
      Blas.rank1_update m n alpha (Blas.strided m x incx) (Blas.strided n y incy) A lda idx.
Proof.
  intros Hm Hn Hlda Hfit Ha Hix Hiy Hfx Hfy.
  apply geru_ColMajor_run; assumption.
Qed.

(** A row-major call: entry [(i, j)] of the m-by-n matrix, at index
    [j + i*lda], gains [y[j] * (alpha * x[i])], the product the swapped
    column-major call forms, and no other index changes. *)
Theorem geru_RowMajor_any_stride (m n : Z) (alpha : R) (x : Blas.array) (incx : Z)
    (y : Blas.array) (incy : Z) (A : Blas.array) (lda : Z) :
  0 < m -> 0 < n -> n <= lda -> m * lda <= 2 ^ 64 -> alpha <> s_zero ->
  incx <> 0 -> incy <> 0 ->
  (m - 1) * Z.abs incx < 2 ^ 64 -> (n - 1) * Z.abs incy < 2 ^ 64 ->
  exists A',
    Blas.geru Layout.RowMajor m n alpha x incx y incy A lda = Blas.Returned A' /\
    (forall i j, 0 <= i < m -> 0 <= j < n ->
       A' (j + i * lda) =
       s_add (A (j + i * lda))
             (s_mul (Blas.strided n y incy j) (s_mul alpha (Blas.strided m x incx i)))) /\
    (forall idx, idx < 0 \/ m <= idx / lda \/ n <= idx mod lda -> A' idx = A idx).
Proof.
  intros Hm Hn Hlda Hfit Ha Hix Hiy Hfx Hfy.
  destruct (@geru_ColMajor_run n m alpha y incy x incx A lda
              Hn Hm Hlda Hfit Ha Hiy Hix Hfy Hfx) as (A' & Hrun & HA').
  exists A'. split; [| split].
  - rewrite <- Hrun. unfold Blas.geru.
    rewrite (geru_rec_ColMajor_fuel 1 0).
    cbn [Blas.geru_rec].
    change (Layout.RowMajor =? Layout.ColMajor) with false.
    change (Layout.RowMajor =? Layout.RowMajor) with true.
    cbn [negb andb].
    replace (m <? 0) with false by (symmetry; apply Z.ltb_ge; lia).
    replace (n <? 0) with false by (symmetry; apply Z.ltb_ge; lia).
    replace (incx =? 0) with false by (symmetry; apply Z.eqb_neq; lia).
    replace (incy =? 0) with false by (symmetry; apply Z.eqb_neq; lia).
    replace (lda <? n) with false by (symmetry; apply Z.ltb_ge; lia).
    replace (m =? 0) with false by (symmetry; apply Z.eqb_neq; lia).
    replace (n =? 0) with false by (symmetry; apply Z.eqb_neq; lia).
    replace (s_eqb alpha s_zero) with false.
    2:{ symmetry. apply not_true_iff_false. intros H. apply Ha. apply s_eqb_eq. exact H. }
    reflexivity.
  - intros i j Hi Hj. rewrite HA'. unfold Blas.rank1_update. cbv zeta.
    assert (Ed : (j + i * lda) / lda = i).
    { symmetry. apply (Z.div_unique (j + i * lda) lda i j); lia. }
    assert (Em : (j + i * lda) mod lda = j).
    { symmetry. apply (Z.mod_unique (j + i * lda) lda i j); lia. }
    rewrite Ed, Em.
    replace (0 <=? j + i * lda) with true by (symmetry; apply Z.leb_le; nia).
    replace (j <? n) with true by (symmetry; apply Z.ltb_lt; lia).
    replace (i <? m) with true by (symmetry; apply Z.ltb_lt; lia).
    reflexivity.
  - intros idx Hout. rewrite HA'. unfold Blas.rank1_update. cbv zeta.
    destruct (Z.leb_spec 0 idx), (Z.ltb_spec (idx mod lda) n), (Z.ltb_spec (idx / lda) m);
      cbn [andb]; try reflexivity; lia.
Qed.

(** *** Rejected arguments *)

(** With [m] and [n] in the range of the unsigned [size_t], the call
    throws exactly when the layout is not a member of its enumeration, a
    stride is zero, or [lda] is below the leading extent of the layout;
    the storage of [A] is then as it was, and in no other case does the
    call throw. *)
Theorem geru_throws_iff (layout m n : Z) (alpha : R) (x : Blas.array) (incx : Z)
    (y : Blas.array) (incy : Z) (A : Blas.array) (lda : Z) :
  0 <= m -> 0 <= n ->
  (Blas.geru layout m n alpha x incx y incy A lda = Blas.Error A <->
   (layout <> Layout.ColMajor /\ layout <> Layout.RowMajor) \/
   incx = 0 \/ incy = 0 \/
   (layout = Layout.ColMajor /\ lda < m) \/ (layout = Layout.RowMajor /\ lda < n)) /\
  (forall A', Blas.geru layout m n alpha x incx y incy A lda = Blas.Error A' -> A' = A).
Proof.
  intros Hm Hn.
  unfold Blas.geru. cbn [Blas.geru_rec].
  change (Layout.ColMajor =? Layout.RowMajor) with false.
  change (Layout.ColMajor =? Layout.ColMajor) with true.
  cbn [negb andb].
  replace (m <? 0) with false by (symmetry; apply Z.ltb_ge; lia).
  replace (n <? 0) with false by (symmetry; apply Z.ltb_ge; lia).
  destruct (Z.eqb_spec layout Layout.ColMajor) as [Hc | Hc];
    destruct (Z.eqb_spec layout Layout.RowMajor) as [Hr | Hr];
    cbn [negb andb];
    try (exfalso; rewrite Hc in Hr; discriminate);
    destruct (Z.eqb_spec incx 0) as [Hx | Hx];
    destruct (Z.eqb_spec incy 0) as [Hy | Hy];
    try (split; [split; [intros _; tauto | reflexivity] | intros A' H; inversion H; reflexivity]).
  - (* ColMajor *)
    destruct (Z.ltb_spec lda m) as [Hl | Hl].
    + split; [split; [intros _; tauto | reflexivity] | intros A' H; inversion H; reflexivity].
    + destruct ((m =? 0) || (n =? 0) || s_eqb alpha s_zero).
      * split; [split; [discriminate | intros H; exfalso; intuition lia] | discriminate].
      * destruct ((incx =? 1) && (incy =? 1)); [| destruct (incx =? 1)];
          (split; [split; [discriminate | intros H; exfalso; intuition lia] | discriminate]).
  - (* RowMajor *)
    destruct (Z.ltb_spec lda n) as [Hl | Hl].
    + split; [split; [intros _; tauto | reflexivity] | intros A' H; inversion H; reflexivity].
    + destruct ((m =? 0) || (n =? 0) || s_eqb alpha s_zero).
      * split; [split; [discriminate | intros H; exfalso; intuition lia] | discriminate].
      * change (Layout.ColMajor =? Layout.ColMajor) with true.
        replace (lda <? n) with false by (symmetry; apply Z.ltb_ge; lia).
        replace (n <? 0) with false by (symmetry; apply Z.ltb_ge; lia).
        replace (m <? 0) with false by (symmetry; apply Z.ltb_ge; lia).
        replace (incx =? 0) with false by (symmetry; apply Z.eqb_neq; lia).
        replace (incy =? 0) with false by (symmetry; apply Z.eqb_neq; lia).
        cbn [negb andb].
        destruct ((n =? 0) || (m =? 0) || s_eqb alpha s_zero);
          [| destruct ((incy =? 1) && (incx =? 1)); [| destruct (incy =? 1)]];
          (split; [split; [discriminate | intros H; exfalso; intuition lia] | discriminate]).
Qed.

End GeruStrides.

Lemma geru_ColMajor_any_stride_witness :
  exists A',
    Blas.geru Layout.ColMajor 2 3 5%Z (fun i => i + 1)%Z (-2) (fun j => 2 * j)%Z 3
      (fun idx => idx)%Z 4 = Blas.Returned A' /\
    forall idx,
      A' idx =
      Blas.rank1_update 2 3 5%Z (Blas.strided 2 (fun i => i + 1)%Z (-2))
        (Blas.strided 3 (fun j => 2 * j)%Z 3) (fun idx => idx)%Z 4 idx.
Proof.
  apply (@geru_ColMajor_any_stride Z Z_Scalar Z_ScalarLaws); cbn; try lia; discriminate.
Defined.

Lemma geru_RowMajor_any_stride_witness :
  exists A',
    Blas.geru Layout.RowMajor 2 3 5%Z (fun i => i + 1)%Z (-2) (fun j => 2 * j)%Z 3
      (fun idx => idx)%Z 4 = Blas.Returned A' /\
    (forall i j, (0 <= i < 2)%Z -> (0 <= j < 3)%Z ->
       A' (j + i * 4)%Z =
       s_add (j + i * 4)%Z
             (s_mul (Blas.strided 3 (fun j => 2 * j)%Z 3 j)
                    (s_mul 5%Z (Blas.strided 2 (fun i => i + 1)%Z (-2) i)))) /\
    (forall idx, (idx < 0 \/ 2 <= idx / 4 \/ 3 <= idx mod 4)%Z -> A' idx = idx).
Proof.
  apply (@geru_RowMajor_any_stride Z Z_Scalar Z_ScalarLaws 2 3 5%Z (fun i => i + 1)%Z (-2)
           (fun j => 2 * j)%Z 3 (fun idx => idx)%Z 4); cbn; try lia; discriminate.
Defined.

(** The two calls, run: [x = (1, 3)] is read from its far end, [y] at
    stride 3. *)
Example geru_strided_result :
  match Blas.geru Layout.ColMajor 2 3 5%Z (fun i => i + 1)%Z (-2) (fun j => 2 * j)%Z 3
          (fun idx => idx)%Z 4 with
  | Blas.Returned A' => map A' [0; 1; 2; 4; 5; 8; 9; 10]%Z
  | _ => []
  end = [0; 1; 2; 94; 35; 188; 69; 10]%Z /\
  match Blas.geru Layout.RowMajor 2 3 5%Z (fun i => i + 1)%Z (-2) (fun j => 2 * j)%Z 3
          (fun idx => idx)%Z 4 with
  | Blas.Returned A' => map A' [0; 1; 2; 3; 4; 5; 6; 7]%Z
  | _ => []
  end = [0; 91; 182; 3; 4; 35; 66; 7]%Z.
Proof. split; vm_compute; reflexivity. Qed.

Lemma geru_throws_iff_witness :
  Blas.geru Layout.ColMajor 3 2 5%Z (fun i => i)%Z 1 (fun j => j)%Z 1 (fun idx => idx)%Z 2 =
  Blas.Error (fun idx => idx)%Z.
Proof.
  apply (proj1 (@geru_throws_iff Z Z_Scalar Layout.ColMajor 3 2 5%Z
                  (fun i => i)%Z 1 (fun j => j)%Z 1 (fun idx => idx)%Z 2
                  ltac:(lia) ltac:(lia))).
  right; right; right; left. split; [reflexivity | lia].
Defined.

(** ** Tile-aligned slicing *)

Section SliceProperties.
Local Open Scope Z_scope.

Lemma uint32_t_small z : 0 <= z < 2 ^ 32 -> Starpu.uint32_t z = z.
Proof. intros H. unfold Starpu.uint32_t. apply Z.mod_small. exact H. Qed.

(** The test [x % mb == 0] decides divisibility by a tile extent. *)
Lemma rem_test_divide mb x : 0 < mb -> (x mod mb =? 0) = true <-> (mb | x).
Proof.
  intros Hmb. rewrite Z.eqb_eq. apply Z.mod_divide. lia.
Qed.

(** One extent check of [slice]: the wrap of [nrows - 1] at extent zero is
    never consulted, since a zero extent is a whole number of tiles. *)
Lemma extent_check mb e r1 bound :
  0 < mb -> 0 <= e < 2 ^ 32 ->
  (e mod mb =? 0) || ((r1 =? bound) && (Starpu.uint32_t (e - 1) mod mb =? 0)) = true <->
  (mb | e) \/ (r1 = bound /\ (mb | e - 1)).
Proof.
  intros Hmb He.
  rewrite orb_true_iff, andb_true_iff, (rem_test_divide e Hmb), (Z.eqb_eq r1 bound).
  split.
  - intros [Hd | [Hr Hd]]; [left; exact Hd |].
    destruct (Z.eq_dec e 0) as [-> | Hne].
    + left. apply Z.divide_0_r.
    + right. split; [exact Hr |].
      rewrite uint32_t_small in Hd by lia.
      apply (rem_test_divide (e - 1) Hmb). exact Hd.
  - intros [Hd | [Hr Hd]]; [left; exact Hd |].
    destruct (Z.eq_dec e 0) as [-> | Hne].
    + left. apply Z.divide_0_r.
    + right. split; [exact Hr |].
      rewrite uint32_t_small by lia.
      apply (rem_test_divide (e - 1) Hmb). exact Hd.
Qed.

(** What the checks of [slice] amount to on a well-formed request. *)
Lemma slice_outcome A rows cols :
  Starpu.well_formed A rows cols ->
  (Starpu.code_aligned A rows cols /\
   Starpu.succeeds (Starpu.slice A rows cols) /\
   Starpu.succeeds (Starpu.slice_const A rows cols)) \/
  (~ Starpu.code_aligned A rows cols /\
   Starpu.slice A rows cols = Starpu.InvalidRangeError /\
   Starpu.slice_const A rows cols = Starpu.InvalidRangeError).
Proof.
  destruct rows as [r0 r1], cols as [c0 c1], A as [m n mb nb].
  unfold Starpu.well_formed, Starpu.code_aligned, Starpu.slice, Starpu.slice_const.
  cbn [fst snd Starpu.nrows Starpu.ncols Starpu.nblockrows Starpu.nblockcols].
  intros (Hmb & Hnb & Hr & Hr1 & Hc & Hc1).
  rewrite !(uint32_t_small (z := r0)), !(uint32_t_small (z := r1)),
          !(uint32_t_small (z := c0)), !(uint32_t_small (z := c1)),
          !(uint32_t_small (z := mb)), !(uint32_t_small (z := nb)),
          !(uint32_t_small (z := r1 - r0)), !(uint32_t_small (z := c1 - c0)) by lia.
  replace (mb =? 0) with false by (symmetry; apply Z.eqb_neq; lia).
  replace (nb =? 0) with false by (symmetry; apply Z.eqb_neq; lia).
  pose proof (rem_test_divide r0 (proj1 Hmb)) as T1.
  pose proof (rem_test_divide c0 (proj1 Hnb)) as T2.
  assert (Hre : 0 <= r1 - r0 < 2 ^ 32) by lia.
  assert (Hce : 0 <= c1 - c0 < 2 ^ 32) by lia.
  pose proof (extent_check r1 m (proj1 Hmb) Hre) as T3.
  pose proof (extent_check c1 n (proj1 Hnb) Hce) as T4.
  destruct (r0 mod mb =? 0);
    [| right; cbn [negb]; repeat split; try reflexivity;
       intros (H & _); apply T1 in H; discriminate].
  destruct (c0 mod nb =? 0);
    [| right; cbn [negb]; repeat split; try reflexivity;
       intros (_ & H & _); apply T2 in H; discriminate].
  destruct (((r1 - r0) mod mb =? 0) ||
            ((r1 =? m) && (Starpu.uint32_t (r1 - r0 - 1) mod mb =? 0)));
    [| right; cbn [negb]; repeat split; try reflexivity;
       intros (_ & _ & H & _); apply T3 in H; discriminate].
  destruct (((c1 - c0) mod nb =? 0) ||
            ((c1 =? n) && (Starpu.uint32_t (c1 - c0 - 1) mod nb =? 0)));
    [| right; cbn [negb]; repeat split; try reflexivity;
       intros (_ & _ & _ & H); apply T4 in H; discriminate].
  left. cbn [negb]. split; [| split; eexists; reflexivity].
  repeat split; [apply T1 | apply T2 | apply T3 | apply T4]; reflexivity.
Qed.

(** C2, as the code has it.  On a well-formed request, both overloads of
    [slice] succeed exactly when the start boundaries are multiples of
    the tile extents and each extent is a whole number of tiles or ends
    at the matrix boundary one past a whole number of tiles; any other
    request is rejected with [InvalidRangeError]. *)
Theorem slice_succeeds_iff_code_aligned A rows cols :
  Starpu.well_formed A rows cols ->
  (Starpu.succeeds (Starpu.slice A rows cols) <-> Starpu.code_aligned A rows cols) /\
  (Starpu.succeeds (Starpu.slice_const A rows cols) <-> Starpu.code_aligned A rows cols) /\
  (~ Starpu.code_aligned A rows cols ->
   Starpu.slice A rows cols = Starpu.InvalidRangeError /\
   Starpu.slice_const A rows cols = Starpu.InvalidRangeError).
Proof.
  intros Hwf.
  destruct (slice_outcome Hwf) as [(Hal & Hs & Hsc) | (Hnal & Hs & Hsc)].
  - tauto.
  - assert (Hf : ~ Starpu.succeeds (Starpu.slice A rows cols)).
    { rewrite Hs. intros [t Ht]. discriminate. }
    assert (Hfc : ~ Starpu.succeeds (Starpu.slice_const A rows cols)).
    { rewrite Hsc. intros [t Ht]. discriminate. }
    tauto.
Qed.

(** The spec's scenario and its neighbours, on [ragged_5x5]. *)
Example slice_row_boundary_3 :
  Starpu.slice ragged_5x5 (0, 3) (0, 3) = Starpu.Tiles (Starpu.mk_tiles false 0 0 1 1).
Proof. reflexivity. Qed.

Example slice_row_boundary_2 :
  Starpu.slice ragged_5x5 (0, 2) (0, 3) = Starpu.InvalidRangeError.
Proof. reflexivity. Qed.

(** The final tile of two rows ends at the matrix boundary, as the spec
    permits, and the request is rejected all the same. *)
Lemma slice_rejects_ragged_final_tile :
  Starpu.well_formed ragged_5x5 (3, 5) (0, 3) /\
  Starpu.spec_aligned ragged_5x5 (3, 5) (0, 3) /\
  Starpu.slice ragged_5x5 (3, 5) (0, 3) = Starpu.InvalidRangeError /\
  Starpu.slice_const ragged_5x5 (3, 5) (0, 3) = Starpu.InvalidRangeError.
Proof.
  split; [| split; [| split; reflexivity]].
  - unfold Starpu.well_formed; cbn; lia.
  - unfold Starpu.spec_aligned; cbn.
    repeat split.
    + exists 1; reflexivity.
    + exists 0; reflexivity.
    + right; reflexivity.
    + left; exists 1; reflexivity.
Qed.

Lemma slice_succeeds_iff_code_aligned_witness :
  Starpu.well_formed ragged_4x4 (0, 4) (0, 3) /\
  Starpu.code_aligned ragged_4x4 (0, 4) (0, 3) /\
  Starpu.succeeds (Starpu.slice ragged_4x4 (0, 4) (0, 3)).
Proof.
  assert (Hwf : Starpu.well_formed ragged_4x4 (0, 4) (0, 3)).
  { unfold Starpu.well_formed; cbn; lia. }
  assert (Hal : Starpu.code_aligned ragged_4x4 (0, 4) (0, 3)).
  { unfold Starpu.code_aligned; cbn. repeat split.
    - exists 0; reflexivity.
    - exists 0; reflexivity.
    - right. split; [reflexivity | exists 1; reflexivity].
    - left. exists 1; reflexivity. }
  split; [exact Hwf | split; [exact Hal |]].
  apply (proj1 (slice_succeeds_iff_code_aligned Hwf)). exact Hal.
Defined.

End SliceProperties.

(** *** The views of rows, columns and vectors *)

Section SliceViews.
Local Open Scope Z_scope.

Lemma divide_one (mb : Z) : 0 < mb -> (mb | 1) <-> mb = 1.
Proof.
  intros H. split.
  - intros Hd. destruct (Z.divide_1_r mb Hd); lia.
  - intros ->. apply Z.divide_refl.
Qed.

(** [row(A, i)] and [col(A, i)]: a single row is a view only when it
    starts a tile and either the tiles are one row high or the row is the
    last of the matrix; the other extent, taken whole, must itself pass
    the check of [slice]. *)
Theorem row_col_succeed_iff (A : Starpu.Matrix) (i : Z) :
  Starpu.tiled A -> 0 <= i -> i + 1 < 2 ^ 32 ->
  (Starpu.succeeds (Starpu.row A i) <->
   (Starpu.nblockrows A | i) /\
   (Starpu.nblockrows A = 1 \/ i + 1 = Starpu.nrows A) /\
   ((Starpu.nblockcols A | Starpu.ncols A) \/ (Starpu.nblockcols A | Starpu.ncols A - 1))) /\
  (Starpu.succeeds (Starpu.col A i) <->
   (Starpu.nblockcols A | i) /\
   (Starpu.nblockcols A = 1 \/ i + 1 = Starpu.ncols A) /\
   ((Starpu.nblockrows A | Starpu.nrows A) \/ (Starpu.nblockrows A | Starpu.nrows A - 1))).
Proof.
  intros (Hmb & Hnb & Hm & Hn) Hi Hi1.
  unfold Starpu.row, Starpu.col. rewrite uint32_t_small by lia.
  split.
  - assert (Hwf : Starpu.well_formed A (i, i + 1) (0, Starpu.ncols A)).
    { unfold Starpu.well_formed; cbn [fst snd]. lia. }
    assert (Hca : Starpu.code_aligned A (i, i + 1) (0, Starpu.ncols A) <->
                  (Starpu.nblockrows A | i) /\
                  (Starpu.nblockrows A = 1 \/ i + 1 = Starpu.nrows A) /\
                  ((Starpu.nblockcols A | Starpu.ncols A) \/
                   (Starpu.nblockcols A | Starpu.ncols A - 1))).
    { unfold Starpu.code_aligned; cbn [fst snd].
      replace (i + 1 - i) with 1 by ring. replace (1 - 1) with 0 by ring.
      rewrite (divide_one (proj1 Hmb)). rewrite !Z.sub_0_r.
      pose proof (Z.divide_0_r (Starpu.nblockrows A)).
      pose proof (Z.divide_0_r (Starpu.nblockcols A)).
      tauto. }
    destruct (slice_outcome Hwf) as [(Hal & Hs & _) | (Hnal & Hs & _)].
    + tauto.
    + assert (~ Starpu.succeeds (Starpu.slice A (i, i + 1) (0, Starpu.ncols A))).
      { rewrite Hs. intros [t Ht]. discriminate. }
      tauto.
  - assert (Hwf : Starpu.well_formed A (0, Starpu.nrows A) (i, i + 1)).
    { unfold Starpu.well_formed; cbn [fst snd]. lia. }
    assert (Hca : Starpu.code_aligned A (0, Starpu.nrows A) (i, i + 1) <->
                  (Starpu.nblockcols A | i) /\
                  (Starpu.nblockcols A = 1 \/ i + 1 = Starpu.ncols A) /\
                  ((Starpu.nblockrows A | Starpu.nrows A) \/
                   (Starpu.nblockrows A | Starpu.nrows A - 1))).
    { unfold Starpu.code_aligned; cbn [fst snd].
      replace (i + 1 - i) with 1 by ring. replace (1 - 1) with 0 by ring.
      rewrite (divide_one (proj1 Hnb)). rewrite !Z.sub_0_r.
      pose proof (Z.divide_0_r (Starpu.nblockrows A)).
      pose proof (Z.divide_0_r (Starpu.nblockcols A)).
      tauto. }
    destruct (slice_outcome Hwf) as [(Hal & Hs & _) | (Hnal & Hs & _)].
    + tauto.
    + assert (~ Starpu.succeeds (Starpu.slice A (0, Starpu.nrows A) (i, i + 1))).
      { rewrite Hs. intros [t Ht]. discriminate. }
      tauto.
Qed.

(** [rows(A, r)] and [cols(A, c)]: the range must pass the check of
    [slice], and so must the other extent taken whole: on a matrix whose
    column count is neither a whole number of tiles nor one past it, no
    call of [rows] succeeds. *)
Theorem rows_cols_succeed_iff (A : Starpu.Matrix) (r : Z * Z) :
  Starpu.tiled A -> 0 <= fst r <= snd r -> snd r < 2 ^ 32 ->
  (Starpu.succeeds (Starpu.rows A r) <->
   (Starpu.nblockrows A | fst r) /\
   Starpu.extent_aligned (Starpu.nblockrows A) (fst r) (snd r) (Starpu.nrows A) /\
   ((Starpu.nblockcols A | Starpu.ncols A) \/ (Starpu.nblockcols A | Starpu.ncols A - 1))) /\
  (Starpu.succeeds (Starpu.cols A r) <->
   (Starpu.nblockcols A | fst r) /\
   Starpu.extent_aligned (Starpu.nblockcols A) (fst r) (snd r) (Starpu.ncols A) /\
   ((Starpu.nblockrows A | Starpu.nrows A) \/ (Starpu.nblockrows A | Starpu.nrows A - 1))).
Proof.
  intros (Hmb & Hnb & Hm & Hn) Hr Hr1.
  unfold Starpu.rows, Starpu.cols, Starpu.extent_aligned.
  split.
  - assert (Hwf : Starpu.well_formed A r (0, Starpu.ncols A)).
    { unfold Starpu.well_formed; cbn [fst snd]. lia. }
    assert (Hca : Starpu.code_aligned A r (0, Starpu.ncols A) <->
                  (Starpu.nblockrows A | fst r) /\
                  ((Starpu.nblockrows A | snd r - fst r) \/
                   (snd r = Starpu.nrows A /\ (Starpu.nblockrows A | snd r - fst r - 1))) /\
                  ((Starpu.nblockcols A | Starpu.ncols A) \/
                   (Starpu.nblockcols A | Starpu.ncols A - 1))).
    { unfold Starpu.code_aligned; cbn [fst snd]. rewrite !Z.sub_0_r.
      pose proof (Z.divide_0_r (Starpu.nblockcols A)).
      tauto. }
    destruct (slice_outcome Hwf) as [(Hal & Hs & _) | (Hnal & Hs & _)].
    + tauto.
    + assert (~ Starpu.succeeds (Starpu.slice A r (0, Starpu.ncols A))).
      { rewrite Hs. intros [t Ht]. discriminate. }
      tauto.
  - assert (Hwf : Starpu.well_formed A (0, Starpu.nrows A) r).
    { unfold Starpu.well_formed; cbn [fst snd]. lia. }
    assert (Hca : Starpu.code_aligned A (0, Starpu.nrows A) r <->
                  (Starpu.nblockcols A | fst r) /\
                  ((Starpu.nblockcols A | snd r - fst r) \/
                   (snd r = Starpu.ncols A /\ (Starpu.nblockcols A | snd r - fst r - 1))) /\
                  ((Starpu.nblockrows A | Starpu.nrows A) \/
                   (Starpu.nblockrows A | Starpu.nrows A - 1))).
    { unfold Starpu.code_aligned; cbn [fst snd]. rewrite !Z.sub_0_r.
      pose proof (Z.divide_0_r (Starpu.nblockrows A)).
      tauto. }
    destruct (slice_outcome Hwf) as [(Hal & Hs & _) | (Hnal & Hs & _)].
    + tauto.
    + assert (~ Starpu.succeeds (Starpu.slice A (0, Starpu.nrows A) r)).
      { rewrite Hs. intros [t Ht]. discriminate. }
      tauto.
Qed.


Lemma tile_count_spec (mb e : Z) :
  0 < mb -> 0 <= e -> (mb | e) \/ (mb | e - 1) ->
  Starpu.tile_count mb e (if e =? 0 then 0 else Z.max (e / mb) 1).
Proof.
  intros Hmb He Hal. unfold Starpu.tile_count.
  destruct (Z.eqb_spec e 0) as [-> | Hne].
  - split; [reflexivity |]. split; [intros _; reflexivity |].
    intros H. exfalso. apply H. apply Z.divide_0_r.
  - split; [intros H; contradiction |]. split.
    + intros [q Hq]. subst e. rewrite Z.div_mul by lia.
      assert (1 <= q) by nia. rewrite Z.max_l by lia. reflexivity.
    + intros Hnd. destruct Hal as [Hd | [q Hq]]; [contradiction |].
      assert (Hq0 : 0 <= q) by nia.
      assert (Hmb2 : 2 <= mb).
      { destruct (Z.eq_dec mb 1) as [-> | ?]; [| lia].
        exfalso. apply Hnd. apply Z.divide_1_l. }
      assert (Ediv : e / mb = q).
      { symmetry. apply (Z.div_unique e mb q 1); lia. }
      rewrite Ediv.
      destruct (Z.eq_dec q 0) as [-> | Hq1].
      * left. split; [lia | reflexivity].
      * right. rewrite Z.max_l by lia. split; nia.
Qed.

(** What a successful call returns: the tiles from the tile at the start
    of the ranges, counted by [tile_count]; an extent one past [q >= 1]
    whole tiles yields [q] tiles, one row (column) short of the request.
    The overload for a constant matrix returns the same tiles, constant. *)
Theorem slice_returns_whole_tiles (A : Starpu.Matrix) (rows cols : Z * Z) :
  Starpu.well_formed A rows cols -> Starpu.code_aligned A rows cols ->
  exists t,
    Starpu.slice A rows cols = Starpu.Tiles t /\
    Starpu.slice_const A rows cols =
      Starpu.Tiles (Starpu.mk_tiles true (Starpu.ix t) (Starpu.iy t)
                      (Starpu.nx t) (Starpu.ny t)) /\
    Starpu.is_const t = false /\
    Starpu.ix t * Starpu.nblockrows A = fst rows /\
    Starpu.iy t * Starpu.nblockcols A = fst cols /\
    Starpu.tile_count (Starpu.nblockrows A) (snd rows - fst rows) (Starpu.nx t) /\
    Starpu.tile_count (Starpu.nblockcols A) (snd cols - fst cols) (Starpu.ny t).
Proof.
  destruct rows as [r0 r1], cols as [c0 c1], A as [m n mb nb].
  unfold Starpu.well_formed, Starpu.code_aligned, Starpu.slice, Starpu.slice_const.
  cbn [fst snd Starpu.nrows Starpu.ncols Starpu.nblockrows Starpu.nblockcols].
  intros (Hmb & Hnb & Hr & Hr1 & Hc & Hc1) (A1 & A2 & A3 & A4).
  rewrite !(uint32_t_small (z := r0)), !(uint32_t_small (z := r1)),
          !(uint32_t_small (z := c0)), !(uint32_t_small (z := c1)),
          !(uint32_t_small (z := mb)), !(uint32_t_small (z := nb)),
          !(uint32_t_small (z := r1 - r0)), !(uint32_t_small (z := c1 - c0)) by lia.
  replace (mb =? 0) with false by (symmetry; apply Z.eqb_neq; lia).
  replace (nb =? 0) with false by (symmetry; apply Z.eqb_neq; lia).
  rewrite (proj2 (rem_test_divide r0 (proj1 Hmb)) A1).
  rewrite (proj2 (rem_test_divide c0 (proj1 Hnb)) A2).
  rewrite (proj2 (@extent_check mb (r1 - r0) r1 m (proj1 Hmb) ltac:(lia)) A3).
  rewrite (proj2 (@extent_check nb (c1 - c0) c1 n (proj1 Hnb) ltac:(lia)) A4).
  cbn [negb]. eexists. split; [reflexivity |]. cbn [Starpu.ix Starpu.iy Starpu.nx Starpu.ny
                                                  Starpu.is_const].
  split; [reflexivity |]. split; [reflexivity |].
  split.
  { destruct A1 as [q ->]. rewrite Z.div_mul by lia. reflexivity. }
  split.
  { destruct A2 as [q ->]. rewrite Z.div_mul by lia. reflexivity. }
  split; apply tile_count_spec; try lia; tauto.
Qed.


(** [slice(v, range)]: a matrix with more than one row and more than one
    column stops at the assertion; a column vector is sliced along its
    rows and a row vector along its columns, the range alone deciding;
    a matrix without rows is sliced as a row vector, over a row it does
    not have, and the call is rejected when the tiles are higher than
    one row. *)
Theorem slice_vector_outcomes (v : Starpu.Matrix) (range : Z * Z) :
  Starpu.tiled v -> 0 <= fst range <= snd range -> snd range < 2 ^ 32 ->
  (1 < Starpu.nrows v -> 1 < Starpu.ncols v ->
   Starpu.slice_vector v range = Starpu.NotAVector) /\
  (1 < Starpu.nrows v -> Starpu.ncols v = 1 ->
   ((exists t, Starpu.slice_vector v range = Starpu.Sliced (Starpu.Tiles t)) <->
    (Starpu.nblockrows v | fst range) /\
    Starpu.extent_aligned (Starpu.nblockrows v) (fst range) (snd range) (Starpu.nrows v))) /\
  (Starpu.nrows v = 1 ->
   ((exists t, Starpu.slice_vector v range = Starpu.Sliced (Starpu.Tiles t)) <->
    (Starpu.nblockcols v | fst range) /\
    Starpu.extent_aligned (Starpu.nblockcols v) (fst range) (snd range) (Starpu.ncols v))) /\
  (Starpu.nrows v = 0 -> 1 < Starpu.nblockrows v ->
   Starpu.slice_vector v range = Starpu.Sliced Starpu.InvalidRangeError).
Proof.
  intros (Hmb & Hnb & Hm & Hn) Hr Hr1.
  unfold Starpu.slice_vector, Starpu.extent_aligned.
  split; [| split; [| split]].
  - intros H1 H2.
    replace (Starpu.nrows v <=? 1) with false by (symmetry; apply Z.leb_gt; lia).
    replace (Starpu.ncols v <=? 1) with false by (symmetry; apply Z.leb_gt; lia).
    reflexivity.
  - intros H1 H2.
    replace (Starpu.ncols v <=? 1) with true by (symmetry; apply Z.leb_le; lia).
    rewrite orb_true_r. cbn [negb].
    replace (Starpu.nrows v >? 1) with true by (symmetry; apply Z.gtb_gt; lia).
    assert (Hwf : Starpu.well_formed v range (0, 1)).
    { unfold Starpu.well_formed; cbn [fst snd]. lia. }
    assert (Hca : Starpu.code_aligned v range (0, 1) <->
                  (Starpu.nblockrows v | fst range) /\
                  ((Starpu.nblockrows v | snd range - fst range) \/
                   (snd range = Starpu.nrows v /\
                    (Starpu.nblockrows v | snd range - fst range - 1)))).
    { unfold Starpu.code_aligned; cbn [fst snd]. rewrite H2.
      replace (1 - 0 - 1) with 0 by ring.
      pose proof (Z.divide_0_r (Starpu.nblockcols v)). tauto. }
    destruct (slice_outcome Hwf) as [(Hal & [t Hs] & _) | (Hnal & Hs & _)]; rewrite Hs.
    + split; [tauto | intros _; exists t; reflexivity].
    + split; [intros [t Ht]; discriminate | tauto].
  - intros H1.
    replace (Starpu.nrows v <=? 1) with true by (symmetry; apply Z.leb_le; lia).
    cbn [orb negb].
    replace (Starpu.nrows v >? 1) with false
      by (symmetry; rewrite Z.gtb_ltb; apply Z.ltb_ge; lia).
    assert (Hwf : Starpu.well_formed v (0, 1) range).
    { unfold Starpu.well_formed; cbn [fst snd]. lia. }
    assert (Hca : Starpu.code_aligned v (0, 1) range <->
                  (Starpu.nblockcols v | fst range) /\
                  ((Starpu.nblockcols v | snd range - fst range) \/
                   (snd range = Starpu.ncols v /\
                    (Starpu.nblockcols v | snd range - fst range - 1)))).
    { unfold Starpu.code_aligned; cbn [fst snd]. rewrite H1.
      replace (1 - 0 - 1) with 0 by ring.
      pose proof (Z.divide_0_r (Starpu.nblockrows v)). tauto. }
    destruct (slice_outcome Hwf) as [(Hal & [t Hs] & _) | (Hnal & Hs & _)]; rewrite Hs.
    + split; [tauto | intros _; exists t; reflexivity].
    + split; [intros [t Ht]; discriminate | tauto].
  - intros H0 H1.
    replace (Starpu.nrows v <=? 1) with true by (symmetry; apply Z.leb_le; lia).
    cbn [orb negb].
    replace (Starpu.nrows v >? 1) with false
      by (symmetry; rewrite Z.gtb_ltb; apply Z.ltb_ge; lia).
    assert (Hwf : Starpu.well_formed v (0, 1) range).
    { unfold Starpu.well_formed; cbn [fst snd]. lia. }
    destruct (slice_outcome Hwf) as [(Hal & _) | (Hnal & Hs & _)]; [| rewrite Hs; reflexivity].
    exfalso. unfold Starpu.code_aligned in Hal; cbn [fst snd] in Hal.
    destruct Hal as (_ & _ & [Hd | [He _]] & _); [| lia].
    replace (1 - 0) with 1 in Hd by ring.
    apply (divide_one (proj1 Hmb)) in Hd. lia.
Qed.

End SliceViews.

Section SliceViewInstances.
Local Open Scope Z_scope.

Lemma row_col_succeed_iff_witness :
  Starpu.succeeds (Starpu.row ragged_7x6 6) /\ Starpu.succeeds (Starpu.col column_7 0).
Proof.
  split.
  - apply (proj1 (@row_col_succeed_iff ragged_7x6 6
                    ltac:(unfold Starpu.tiled; cbn; lia) ltac:(lia) ltac:(lia))).
    cbn. split; [exists 2; reflexivity |]. split; [right; reflexivity |].
    left. exists 2; reflexivity.
  - apply (proj2 (@row_col_succeed_iff column_7 0
                    ltac:(unfold Starpu.tiled; cbn; lia) ltac:(lia) ltac:(lia))).
    cbn. split; [exists 0; reflexivity |]. split; [left; reflexivity |].
    right. exists 2; reflexivity.
Defined.

(** A row that starts a tile of three rows and is not the last row of the
    matrix is no view. *)
Example row_inside_the_matrix :
  Starpu.row ragged_7x6 3 = Starpu.InvalidRangeError /\
  Starpu.row ragged_7x6 6 = Starpu.Tiles (Starpu.mk_tiles false 2 0 1 2).
Proof. split; reflexivity. Qed.

Lemma rows_cols_succeed_iff_witness :
  Starpu.succeeds (Starpu.rows ragged_7x6 (0, 7)) /\
  Starpu.succeeds (Starpu.cols ragged_7x6 (3, 6)).
Proof.
  split.
  - apply (proj1 (@rows_cols_succeed_iff ragged_7x6 (0, 7)
                    ltac:(unfold Starpu.tiled; cbn; lia) ltac:(cbn; lia) ltac:(cbn; lia))).
    unfold Starpu.extent_aligned; cbn.
    split; [exists 0; reflexivity |].
    split; [right; split; [reflexivity | exists 2; reflexivity] |].
    left. exists 2; reflexivity.
  - apply (proj2 (@rows_cols_succeed_iff ragged_7x6 (3, 6)
                    ltac:(unfold Starpu.tiled; cbn; lia) ltac:(cbn; lia) ltac:(cbn; lia))).
    unfold Starpu.extent_aligned; cbn.
    split; [exists 1; reflexivity |].
    split; [left; exists 1; reflexivity |].
    right. exists 2; reflexivity.
Defined.

(** On [ragged_5x5] the five columns are one past one tile and one more:
    no range of rows is a view. *)
Example rows_of_ragged_5x5 :
  map (fun r => Starpu.rows ragged_5x5 r) [(0, 3); (3, 5); (0, 5); (0, 0)] =
  [Starpu.InvalidRangeError; Starpu.InvalidRangeError; Starpu.InvalidRangeError;
   Starpu.InvalidRangeError].
Proof. reflexivity. Qed.

Lemma slice_returns_whole_tiles_witness :
  exists t,
    Starpu.slice ragged_7x6 (0, 7) (0, 6) = Starpu.Tiles t /\
    Starpu.tile_count 3 7 (Starpu.nx t) /\ Starpu.tile_count 3 6 (Starpu.ny t).
Proof.
  assert (Hwf : Starpu.well_formed ragged_7x6 (0, 7) (0, 6)).
  { unfold Starpu.well_formed; cbn; lia. }
  assert (Hal : Starpu.code_aligned ragged_7x6 (0, 7) (0, 6)).
  { unfold Starpu.code_aligned; cbn. repeat split.
    - exists 0; reflexivity.
    - exists 0; reflexivity.
    - right. split; [reflexivity | exists 2; reflexivity].
    - left. exists 2; reflexivity. }
  destruct (@slice_returns_whole_tiles ragged_7x6 (0, 7) (0, 6) Hwf Hal)
    as (t & Hs & _ & _ & _ & _ & Hx & Hy).
  exists t. split; [exact Hs | split; [exact Hx | exact Hy]].
Defined.

(** All seven rows are asked for, two tiles of three rows are returned. *)
Example slice_of_seven_rows :
  Starpu.slice ragged_7x6 (0, 7) (0, 6) = Starpu.Tiles (Starpu.mk_tiles false 0 0 2 2).
Proof. reflexivity. Qed.

Lemma slice_vector_outcomes_witness :
  (exists t, Starpu.slice_vector column_7 (3, 6) = Starpu.Sliced (Starpu.Tiles t)) /\
  Starpu.slice_vector ragged_7x6 (0, 3) = Starpu.NotAVector.
Proof.
  destruct (@slice_vector_outcomes column_7 (3, 6)
              ltac:(unfold Starpu.tiled; cbn; lia) ltac:(cbn; lia) ltac:(cbn; lia))
    as (_ & Hcol & _ & _).
  split.
  - apply (proj2 (Hcol ltac:(cbn; lia) ltac:(reflexivity))).
    unfold Starpu.extent_aligned; cbn.
    split; [exists 1; reflexivity | left; exists 1; reflexivity].
  - apply (proj1 (@slice_vector_outcomes ragged_7x6 (0, 3)
                    ltac:(unfold Starpu.tiled; cbn; lia) ltac:(cbn; lia) ltac:(cbn; lia)));
      cbn; lia.
Defined.

End SliceViewInstances.

Section SliceAtIndex.
Local Open Scope Z_scope.

(** [slice(v, range, colIdx)] and [slice(v, rowIdx, range)]: the range
    must pass the check of [slice], and the single column (row) must
    start a tile and be the last of the matrix unless the tiles are one
    column (row) wide. *)
Theorem slice_at_index_succeed_iff (v : Starpu.Matrix) (range : Z * Z) (i : Z) :
  Starpu.tiled v -> 0 <= fst range <= snd range -> snd range < 2 ^ 32 ->
  0 <= i -> i + 1 < 2 ^ 32 ->
  (Starpu.succeeds (Starpu.slice_at_col v range i) <->
   (Starpu.nblockrows v | fst range) /\
   Starpu.extent_aligned (Starpu.nblockrows v) (fst range) (snd range) (Starpu.nrows v) /\
   (Starpu.nblockcols v | i) /\
   (Starpu.nblockcols v = 1 \/ i + 1 = Starpu.ncols v)) /\
  (Starpu.succeeds (Starpu.slice_at_row v i range) <->
   (Starpu.nblockcols v | fst range) /\
   Starpu.extent_aligned (Starpu.nblockcols v) (fst range) (snd range) (Starpu.ncols v) /\
   (Starpu.nblockrows v | i) /\
   (Starpu.nblockrows v = 1 \/ i + 1 = Starpu.nrows v)).
Proof.
  intros (Hmb & Hnb & Hm & Hn) Hr Hr1 Hi Hi1.
  unfold Starpu.slice_at_col, Starpu.slice_at_row, Starpu.extent_aligned.
  rewrite uint32_t_small by lia.
  split.
  - assert (Hwf : Starpu.well_formed v range (i, i + 1)).
    { unfold Starpu.well_formed; cbn [fst snd]. lia. }
    assert (Hca : Starpu.code_aligned v range (i, i + 1) <->
                  (Starpu.nblockrows v | fst range) /\
                  ((Starpu.nblockrows v | snd range - fst range) \/
                   (snd range = Starpu.nrows v /\
                    (Starpu.nblockrows v | snd range - fst range - 1))) /\
                  (Starpu.nblockcols v | i) /\
                  (Starpu.nblockcols v = 1 \/ i + 1 = Starpu.ncols v)).
    { unfold Starpu.code_aligned; cbn [fst snd].
      replace (i + 1 - i) with 1 by ring. replace (1 - 1) with 0 by ring.
      rewrite (divide_one (proj1 Hnb)).
      pose proof (Z.divide_0_r (Starpu.nblockcols v)). tauto. }
    destruct (slice_outcome Hwf) as [(Hal & Hs & _) | (Hnal & Hs & _)].
    + tauto.
    + assert (~ Starpu.succeeds (Starpu.slice v range (i, i + 1))).
      { rewrite Hs. intros [t Ht]. discriminate. }
      tauto.
  - assert (Hwf : Starpu.well_formed v (i, i + 1) range).
    { unfold Starpu.well_formed; cbn [fst snd]. lia. }
    assert (Hca : Starpu.code_aligned v (i, i + 1) range <->
                  (Starpu.nblockcols v | fst range) /\
                  ((Starpu.nblockcols v | snd range - fst range) \/
                   (snd range = Starpu.ncols v /\
                    (Starpu.nblockcols v | snd range - fst range - 1))) /\
                  (Starpu.nblockrows v | i) /\
                  (Starpu.nblockrows v = 1 \/ i + 1 = Starpu.nrows v)).
    { unfold Starpu.code_aligned; cbn [fst snd].
      replace (i + 1 - i) with 1 by ring. replace (1 - 1) with 0 by ring.
      rewrite (divide_one (proj1 Hmb)).
      pose proof (Z.divide_0_r (Starpu.nblockrows v)). tauto. }
    destruct (slice_outcome Hwf) as [(Hal & Hs & _) | (Hnal & Hs & _)].
    + tauto.
    + assert (~ Starpu.succeeds (Starpu.slice v (i, i + 1) range)).
      { rewrite Hs. intros [t Ht]. discriminate. }
      tauto.
Qed.

Lemma slice_at_index_succeed_iff_witness :
  Starpu.succeeds (Starpu.slice_at_row ragged_7x6 6 (0, 3)).
Proof.
  apply (proj2 (@slice_at_index_succeed_iff ragged_7x6 (0, 3) 6
                  ltac:(unfold Starpu.tiled; cbn; lia) ltac:(cbn; lia) ltac:(cbn; lia)
                  ltac:(lia) ltac:(lia))).
  unfold Starpu.extent_aligned; cbn.
  split; [exists 0; reflexivity |].
  split; [left; exists 1; reflexivity |].
  split; [exists 2; reflexivity | right; reflexivity].
Defined.

End SliceAtIndex.

Section SliceBounds.
Local Open Scope Z_scope.

(** The extent [row1 - row0] in [uint32_t] when both ends are multiples
    of the tile extent: a multiple again, also when the subtraction
    wraps, if the tile extent divides [2^32]. *)
Lemma wrapped_extent_divides (mb r0 r1 : Z) :
  0 < mb -> 0 <= r0 < 2 ^ 32 -> 0 <= r1 < 2 ^ 32 ->
  (mb | r0) -> (mb | r1) -> r0 <= r1 \/ (mb | 2 ^ 32) ->
  (mb | Starpu.uint32_t (r1 - r0)).
Proof.
  intros Hmb H0 H1 D0 D1 Hord. unfold Starpu.uint32_t.
  destruct (Z_le_gt_dec r0 r1) as [Hle | Hgt].
  - rewrite Z.mod_small by lia. apply Z.divide_sub_r; assumption.
  - destruct Hord as [Hle | D]; [lia |].
    replace ((r1 - r0) mod 2 ^ 32) with (r1 - r0 + 2 ^ 32).
    + apply Z.divide_add_r; [apply Z.divide_sub_r; assumption | exact D].
    + apply (Z.mod_unique (r1 - r0) (2 ^ 32) (-1) (r1 - r0 + 2 ^ 32)); lia.
Qed.

(** [slice] compares no end of a range with the extents of the matrix
    when the extent is a whole number of tiles, nor the two ends with one
    another: ranges on tile boundaries pass every check of [slice]
    whatever the extents of the matrix are, and so does a range whose end
    is below its start when the tile extent divides [2^32]; the tiles
    asked of [get_tiles] are those of the extent as wrapped in
    [uint32_t]. *)
Theorem slice_does_not_bound_ranges (A : Starpu.Matrix) (rows cols : Z * Z) :
  0 < Starpu.nblockrows A < 2 ^ 32 -> 0 < Starpu.nblockcols A < 2 ^ 32 ->
  0 <= fst rows < 2 ^ 32 -> 0 <= snd rows < 2 ^ 32 ->
  0 <= fst cols < 2 ^ 32 -> 0 <= snd cols < 2 ^ 32 ->
  (Starpu.nblockrows A | fst rows) -> (Starpu.nblockrows A | snd rows) ->
  (Starpu.nblockcols A | fst cols) -> (Starpu.nblockcols A | snd cols) ->
  fst rows <= snd rows \/ (Starpu.nblockrows A | 2 ^ 32) ->
  fst cols <= snd cols \/ (Starpu.nblockcols A | 2 ^ 32) ->
  exists t,
    Starpu.slice A rows cols = Starpu.Tiles t /\
    Starpu.nx t * Starpu.nblockrows A = Starpu.uint32_t (snd rows - fst rows) /\
    Starpu.ny t * Starpu.nblockcols A = Starpu.uint32_t (snd cols - fst cols).
Proof.
  destruct rows as [r0 r1], cols as [c0 c1], A as [m n mb nb].
  cbn [fst snd Starpu.nrows Starpu.ncols Starpu.nblockrows Starpu.nblockcols].
  intros Hmb Hnb Hr0 Hr1 Hc0 Hc1 D0 D1 E0 E1 Or Oc.
  pose proof (wrapped_extent_divides (proj1 Hmb) Hr0 Hr1 D0 D1 Or) as Dr.
  pose proof (wrapped_extent_divides (proj1 Hnb) Hc0 Hc1 E0 E1 Oc) as Dc.
  unfold Starpu.slice.
  cbn [fst snd Starpu.nrows Starpu.ncols Starpu.nblockrows Starpu.nblockcols].
  rewrite !(uint32_t_small (z := r0)), !(uint32_t_small (z := r1)),
          !(uint32_t_small (z := c0)), !(uint32_t_small (z := c1)),
          !(uint32_t_small (z := mb)), !(uint32_t_small (z := nb)) by lia.
  replace (mb =? 0) with false by (symmetry; apply Z.eqb_neq; lia).
  replace (nb =? 0) with false by (symmetry; apply Z.eqb_neq; lia).
  rewrite (proj2 (rem_test_divide r0 (proj1 Hmb)) D0).
  rewrite (proj2 (rem_test_divide c0 (proj1 Hnb)) E0).
  rewrite (proj2 (rem_test_divide _ (proj1 Hmb)) Dr).
  rewrite (proj2 (rem_test_divide _ (proj1 Hnb)) Dc).
  cbn [negb orb]. eexists. split; [reflexivity |].
  cbn [Starpu.nx Starpu.ny].
  assert (Hcount : forall b e, 0 < b -> 0 <= e -> (b | e) ->
            (if e =? 0 then 0 else Z.max (e / b) 1) * b = e).
  { intros b e Hb He [q ->].
    destruct (Z.eqb_spec (q * b) 0) as [E | E]; [lia |].
    rewrite Z.div_mul by lia. assert (1 <= q) by nia.
    rewrite Z.max_l by lia. reflexivity. }
  assert (Hu : forall z, 0 <= Starpu.uint32_t z).
  { intros z. unfold Starpu.uint32_t. apply Z.mod_pos_bound. lia. }
  split; apply Hcount; try lia; try apply Hu; assumption.
Qed.

Lemma slice_does_not_bound_ranges_witness :
  exists t,
    Starpu.slice (Starpu.mk_Matrix 4 4 2 2) (6, 2) (0, 8) = Starpu.Tiles t /\
    Starpu.nx t * 2 = Starpu.uint32_t (2 - 6) /\
    Starpu.ny t * 2 = Starpu.uint32_t (8 - 0).
Proof.
  apply (@slice_does_not_bound_ranges (Starpu.mk_Matrix 4 4 2 2) (6, 2) (0, 8));
    cbn; try lia.
  - exists 3; reflexivity.
  - exists 1; reflexivity.
  - exists 0; reflexivity.
  - exists 4; reflexivity.
  - right. exists (2 ^ 31); reflexivity.
Defined.

(** A 4-by-4 matrix of 2-by-2 tiles, asked for rows 6 down to 2 and
    columns 0 to 8. *)
Example slice_of_reversed_rows :
  Starpu.slice (Starpu.mk_Matrix 4 4 2 2) (6, 2) (0, 8) =
  Starpu.Tiles (Starpu.mk_tiles false 3 0 2147483646 4).
Proof. reflexivity. Qed.

End SliceBounds.

(** ** The blocked drivers: validation *)

Section EnumerationTests.
Local Open Scope Z_scope.

(** The tests the routines make on [side] and [trans] decide membership
    in the enumerations. *)
Lemma valid_side_test side :
  negb (side =? Side.Left) && negb (side =? Side.Right) = false <-> valid_side side.
Proof.
  unfold valid_side.
  destruct (Z.eqb_spec side Side.Left), (Z.eqb_spec side Side.Right); cbn; intuition congruence.
Qed.

Lemma valid_trans_test trans :
  negb (trans =? Op.NoTrans) && negb (trans =? Op.Trans) && negb (trans =? Op.ConjTrans)
    = false <-> valid_trans trans.
Proof.
  unfold valid_trans.
  destruct (Z.eqb_spec trans Op.NoTrans), (Z.eqb_spec trans Op.Trans),
    (Z.eqb_spec trans Op.ConjTrans); cbn; intuition congruence.
Qed.

Lemma rejected_tests cplx side trans :
  rejected cplx side trans <->
  (negb (side =? Side.Left) && negb (side =? Side.Right) = true \/
   negb (trans =? Op.NoTrans) && negb (trans =? Op.Trans) && negb (trans =? Op.ConjTrans)
     = true \/
   (trans =? Op.Trans) && cplx = true).
Proof.
  unfold rejected, valid_side, valid_trans.
  destruct (Z.eqb_spec side Side.Left), (Z.eqb_spec side Side.Right),
    (Z.eqb_spec trans Op.NoTrans), (Z.eqb_spec trans Op.Trans),
    (Z.eqb_spec trans Op.ConjTrans), cplx; cbn;
    intuition (subst; try discriminate; try congruence).
Qed.

End EnumerationTests.

Section DriverProperties.
Context {R : Type} {SR : Scalar R}.
Local Open Scope Z_scope.

Variable ungqr_block : Z -> Z -> list R -> matrix R -> matrix R.
Variable unmlq_block : Z -> Z -> Z -> Z -> matrix R -> list R -> matrix R -> matrix R.
Variable unmrq_block : Z -> Z -> Z -> Z -> matrix R -> list R -> matrix R -> matrix R.






End DriverProperties.

(** ** The blocked drivers: termination *)

Section DriverTermination.
Context {R : Type} {SR : Scalar R}.
Local Open Scope Z_scope.

Variable ungqr_block : Z -> Z -> list R -> matrix R -> matrix R.
Variable unmlq_block : Z -> Z -> Z -> Z -> matrix R -> list R -> matrix R -> matrix R.
Variable unmrq_block : Z -> Z -> Z -> Z -> matrix R -> list R -> matrix R -> matrix R.
Variable is_complex_matrixA : bool.

(** A loop that counts down by [nb] from a multiple of [nb] reaches
    [idx_t(-nb)], the wrap of the step below zero, after one block per
    multiple. *)
Lemma block_loop_down (nb : Z) (next : Z -> Z) (body : Z -> matrix R -> matrix R) :
  0 < nb ->
  (forall i, 0 <= i < 2 ^ 64 -> next i = Tlapack.idx_t (i - nb)) ->
  forall (s fuel : nat) (X : matrix R),
    (s < fuel)%nat -> Z.of_nat s * nb + nb < 2 ^ 64 ->
    exists X', Tlapack.block_loop fuel (Z.of_nat s * nb) (Tlapack.idx_t (- nb)) next body X
               = Some X'.
Proof.
  intros Hnb Hnext.
  assert (HiN : forall t, 0 <= t -> t + nb < 2 ^ 64 ->
                  (t =? Tlapack.idx_t (- nb)) = false).
  { intros t Ht Hlt. apply Z.eqb_neq. unfold Tlapack.idx_t.
    replace (- nb) with (2 ^ 64 - nb + (-1) * 2 ^ 64) by ring.
    rewrite Z.mod_add by lia. rewrite Z.mod_small by lia. lia. }
  induction s as [| s IH]; intros fuel X Hf Hr.
  - destruct fuel as [| fuel]; [lia |].
    cbn [Tlapack.block_loop]. change (Z.of_nat 0 * nb) with 0.
    rewrite (HiN 0) by lia.
    rewrite Hnext by lia.
    replace (0 - nb) with (- nb) by ring.
    destruct fuel; cbn [Tlapack.block_loop]; rewrite Z.eqb_refl; eexists; reflexivity.
  - destruct fuel as [| fuel]; [lia |].
    cbn [Tlapack.block_loop].
    rewrite HiN by lia.
    rewrite Hnext by lia.
    replace (Tlapack.idx_t (Z.of_nat (S s) * nb - nb)) with (Z.of_nat s * nb).
    + apply IH; lia.
    + unfold Tlapack.idx_t. rewrite Z.mod_small by nia. nia.
Qed.

(** A loop that counts up by [nb] from a multiple of [nb] below [iN]
    reaches [iN], itself a multiple, after one block per multiple. *)
Lemma block_loop_up (nb : Z) (next : Z -> Z) (body : Z -> matrix R -> matrix R) (q : Z) :
  0 < nb -> 0 <= q -> q * nb < 2 ^ 64 ->
  (forall i, 0 <= i < 2 ^ 64 -> next i = Tlapack.idx_t (i + nb)) ->
  forall (r fuel : nat) (X : matrix R),
    (r <= fuel)%nat -> Z.of_nat r <= q ->
    exists X', Tlapack.block_loop fuel ((q - Z.of_nat r) * nb) (q * nb) next body X = Some X'.
Proof.
  intros Hnb Hq Hlt Hnext.
  induction r as [| r IH]; intros fuel X Hf Hr.
  - replace ((q - Z.of_nat 0) * nb) with (q * nb) by (cbn; ring).
    destruct fuel; cbn [Tlapack.block_loop]; rewrite Z.eqb_refl; eexists; reflexivity.
  - destruct fuel as [| fuel]; [lia |].
    cbn [Tlapack.block_loop].
    replace ((q - Z.of_nat (S r)) * nb =? q * nb) with false
      by (symmetry; apply Z.eqb_neq; nia).
    rewrite Hnext by nia.
    replace (Tlapack.idx_t ((q - Z.of_nat (S r)) * nb + nb)) with ((q - Z.of_nat r) * nb).
    + apply IH; lia.
    + unfold Tlapack.idx_t. rewrite Z.mod_small by nia. nia.
Qed.

(** The sweep of unmlq and unmrq over [k] reflectors in blocks of [nb]
    ends, in either direction. *)
Lemma block_sweep_terminates positiveInc (k nb : Z) (fuel : nat)
    (body : Z -> matrix R -> matrix R) (C : matrix R) :
  0 < nb <= k -> k < 2 ^ 63 -> k <= Z.of_nat fuel ->
  exists C', Tlapack.block_sweep positiveInc k nb fuel body C = Some C'.
Proof.
  intros Hnb Hk Hfuel. unfold Tlapack.block_sweep.
  set (q := (k - 1) / nb).
  assert (Hq : 0 <= q) by (apply Z.div_pos; lia).
  assert (Hq1 : q * nb <= k - 1).
  { unfold q. rewrite Z.mul_comm. apply Z.mul_div_le. lia. }
  assert (Hq2 : k - 1 < (q + 1) * nb).
  { unfold q. pose proof (Z.mul_succ_div_gt (k - 1) nb ltac:(lia)). lia. }
  assert (Hk1 : Tlapack.idx_t (k - 1) = k - 1).
  { unfold Tlapack.idx_t. apply Z.mod_small. lia. }
  rewrite Hk1. fold q.
  destruct positiveInc.
  - assert (HiN : Tlapack.idx_t ((q + 1) * nb) = (q + 1) * nb).
    { unfold Tlapack.idx_t. apply Z.mod_small. nia. }
    rewrite HiN.
    assert (Hsteps : 0 <= q + 1 <= Z.of_nat fuel) by nia.
    destruct (@block_loop_up nb (fun i => Tlapack.idx_t (i + nb)) body (q + 1)
                ltac:(lia) ltac:(lia) ltac:(nia) ltac:(intros; reflexivity)
                (Z.to_nat (q + 1)) fuel C ltac:(lia) ltac:(lia)) as [C' HC'].
    exists C'. rewrite <- HC'. f_equal. rewrite Z2Nat.id by lia. ring.
  - assert (Hi0 : Tlapack.idx_t (q * nb) = q * nb).
    { unfold Tlapack.idx_t. apply Z.mod_small. nia. }
    rewrite Hi0.
    destruct (@block_loop_down nb (fun i => Tlapack.idx_t (i + Tlapack.idx_t (- nb))) body
                ltac:(lia)
                ltac:(intros i Hi; unfold Tlapack.idx_t;
                      rewrite Zplus_mod_idemp_r; f_equal; ring)
                (Z.to_nat q) fuel C ltac:(nia) ltac:(rewrite Z2Nat.id by lia; nia))
      as [C' HC'].
    exists C'. rewrite <- HC'. f_equal. rewrite Z2Nat.id by lia. reflexivity.
Qed.

(** The blocked drivers run to completion.  With a block size of at least
    one and fewer than [2^63] reflectors, a call that passes its
    validation returns 0: the loop over the blocks, whose condition is an
    inequality on an unsigned index, meets its bound exactly. *)
Theorem drivers_complete side trans (A : matrix R) (tau : list R) (C : matrix R)
    (opts : Tlapack.Opts) :
  (1 <= Tlapack.nb opts)%nat -> Z.of_nat (length tau) < 2 ^ 63 ->
  ((1 <= length tau <= ncols A)%nat ->
   exists A', Tlapack.ungqr ungqr_block A tau opts = Tlapack.Return 0 A') /\
  (~ rejected is_complex_matrixA side trans ->
   exists C', Tlapack.unmlq unmlq_block is_complex_matrixA side trans A tau C opts
              = Tlapack.Return 0 C') /\
  (~ rejected is_complex side trans ->
   exists C', Tlapack.unmrq unmrq_block side trans A tau C opts = Tlapack.Return 0 C').
Proof.
  intros Hnb Hk.
  set (k := Z.of_nat (length tau)) in *.
  set (b := Z.min (Z.of_nat (Tlapack.nb opts)) k).
  split; [| split].
  - intros Hkn. unfold Tlapack.ungqr. fold k. fold b.
    replace (k >? Z.of_nat (ncols A)) with false
      by (symmetry; rewrite Z.gtb_ltb; apply Z.ltb_ge; lia).
    replace (Z.of_nat (ncols A) <=? 0) with false by (symmetry; apply Z.leb_gt; lia).
    replace (b =? 0) with false by (symmetry; apply Z.eqb_neq; lia).
    assert (Hb : 0 < b <= k) by lia.
    set (q := Tlapack.idx_t (k - 1) / b).
    assert (Hk1 : Tlapack.idx_t (k - 1) = k - 1).
    { unfold Tlapack.idx_t. apply Z.mod_small. lia. }
    assert (Hq : 0 <= q) by (unfold q; rewrite Hk1; apply Z.div_pos; lia).
    assert (Hq1 : q * b <= k - 1).
    { unfold q. rewrite Hk1, Z.mul_comm. apply Z.mul_div_le. lia. }
    assert (Hi0 : Tlapack.idx_t (q * b) = q * b).
    { unfold Tlapack.idx_t. apply Z.mod_small. nia. }
    rewrite Hi0.
    match goal with
    | |- context [Tlapack.block_loop ?f _ ?iN ?next ?body ?X] =>
        destruct (@block_loop_down b next body ltac:(lia) ltac:(intros; reflexivity)
                    (Z.to_nat q) f X ltac:(nia) ltac:(rewrite Z2Nat.id by lia; nia))
          as [A' HA']
    end.
    rewrite Z2Nat.id in HA' by lia. rewrite HA'. exists A'. reflexivity.
  - intros Hok. unfold Tlapack.unmlq. fold k. fold b.
    destruct (negb (side =? Side.Left) && negb (side =? Side.Right)) eqn:H1;
      [exfalso; apply Hok, rejected_tests; left; exact H1 |].
    destruct (negb (trans =? Op.NoTrans) && negb (trans =? Op.Trans) &&
              negb (trans =? Op.ConjTrans)) eqn:H2;
      [exfalso; apply Hok, rejected_tests; right; left; exact H2 |].
    destruct ((trans =? Op.Trans) && is_complex_matrixA) eqn:H3;
      [exfalso; apply Hok, rejected_tests; right; right; exact H3 |].
    destruct ((Z.of_nat (nrows C) =? 0) || (Z.of_nat (ncols C) =? 0) || (k =? 0)) eqn:Hq;
      [eexists; reflexivity |].
    assert (Hk0 : k <> 0).
    { intros E. rewrite E in Hq. rewrite orb_true_r in Hq. discriminate. }
    replace (b =? 0) with false by (symmetry; apply Z.eqb_neq; lia).
    match goal with
    | |- context [Tlapack.block_sweep ?p k b ?f ?body C] =>
        destruct (@block_sweep_terminates p k b f body C ltac:(lia) Hk ltac:(lia))
          as [C' HC']
    end.
    rewrite HC'. exists C'. reflexivity.
  - intros Hok. unfold Tlapack.unmrq. fold k. fold b.
    destruct (negb (side =? Side.Left) && negb (side =? Side.Right)) eqn:H1;
      [exfalso; apply Hok, rejected_tests; left; exact H1 |].
    destruct (negb (trans =? Op.NoTrans) && negb (trans =? Op.Trans) &&
              negb (trans =? Op.ConjTrans)) eqn:H2;
      [exfalso; apply Hok, rejected_tests; right; left; exact H2 |].
    destruct ((trans =? Op.Trans) && is_complex) eqn:H3;
      [exfalso; apply Hok, rejected_tests; right; right; exact H3 |].
    destruct ((Z.of_nat (nrows C) =? 0) || (Z.of_nat (ncols C) =? 0) || (k =? 0)) eqn:Hq;
      [eexists; reflexivity |].
    assert (Hk0 : k <> 0).
    { intros E. rewrite E in Hq. rewrite orb_true_r in Hq. discriminate. }
    replace (b =? 0) with false by (symmetry; apply Z.eqb_neq; lia).
    match goal with
    | |- context [Tlapack.block_sweep ?p k b ?f ?body C] =>
        destruct (@block_sweep_terminates p k b f body C ltac:(lia) Hk ltac:(lia))
          as [C' HC']
    end.
    rewrite HC'. exists C'. reflexivity.
Qed.

(** With no reflector and a matrix that has columns, ungqr divides by its
    block size [nb = min(opts.nb, 0) = 0]. *)
Lemma ungqr_no_reflector_divides_by_zero (A : matrix R) (opts : Tlapack.Opts) :
  (1 <= ncols A)%nat ->
  exists A', Tlapack.ungqr ungqr_block A [] opts = Tlapack.Trap A'.
Proof.
  intros Hn. unfold Tlapack.ungqr. cbn [length].
  replace (Z.of_nat 0 >? Z.of_nat (ncols A)) with false
    by (symmetry; rewrite Z.gtb_ltb; apply Z.ltb_ge; lia).
  replace (Z.of_nat (ncols A) <=? 0) with false by (symmetry; apply Z.leb_gt; lia).
  replace (Z.min (Z.of_nat (Tlapack.nb opts)) (Z.of_nat 0) =? 0) with true
    by (symmetry; apply Z.eqb_eq; lia).
  eexists; reflexivity.
Qed.
End DriverTermination.

(** ** The blocked drivers: the order of the blocks *)

Section DriverBlocks.
Context {R : Type} {SR : Scalar R}.
Local Open Scope Z_scope.

(** *** The blocks cover the reflectors *)

Lemma map_seq_from {A : Type} (f : nat -> A) (s n : nat) :
  map f (seq s n) = map (fun t => f (s + t)%nat) (seq 0 n).
Proof.
  rewrite <- (map_map (fun t => (s + t)%nat) f). f_equal.
  revert s. induction n as [| n IH]; intros s; [reflexivity |].
  cbn [seq map]. rewrite Nat.add_0_r. f_equal.
  rewrite <- (seq_shift n 0), map_map, IH.
  apply map_ext. intros t. lia.
Qed.

Lemma range_app (a b : Z) :
  0 <= a -> 0 <= b -> Tlapack.range 0 a ++ Tlapack.range a b = Tlapack.range 0 (a + b).
Proof.
  intros Ha Hb. unfold Tlapack.range.
  rewrite Z2Nat.inj_add by lia. rewrite seq_app, map_app. f_equal.
  cbn [Nat.add]. rewrite (map_seq_from _ (Z.to_nat a)).
  apply map_ext. intros t. rewrite Nat2Z.inj_add, Z2Nat.id by lia. reflexivity.
Qed.

Lemma blocks_cover_prefix (k nb : Z) (r : nat) :
  0 < nb -> Z.of_nat r * nb <= k + nb - 1 -> 0 <= k ->
  flat_map (fun b => Tlapack.range (fst b) (snd b))
    (map (fun j => let i := Z.of_nat j * nb in (i, Z.min nb (k - i))) (seq 0 r)) =
  Tlapack.range 0 (Z.min (Z.of_nat r * nb) k).
Proof.
  intros Hnb. induction r as [| r IH]; intros Hr Hk.
  - cbn. rewrite Z.min_l by lia. reflexivity.
  - rewrite seq_S, map_app, flat_map_app. rewrite IH by lia.
    cbn [map flat_map Nat.add fst snd]. cbv zeta. cbn [fst snd].
    rewrite app_nil_r.
    rewrite Z.min_l by lia.
    rewrite range_app by lia. f_equal. lia.
Qed.

(** The ranges of the blocks, one after the other, are [0 .. k-1]: every
    reflector is in one block, and in one only. *)
Lemma blocks_cover (k nb : Z) :
  0 < nb -> 0 < k ->
  flat_map (fun b => Tlapack.range (fst b) (snd b)) (Tlapack.blocks k nb) =
  Tlapack.range 0 k.
Proof.
  intros Hnb Hk. unfold Tlapack.blocks.
  set (q := (k - 1) / nb).
  assert (Hq : 0 <= q) by (apply Z.div_pos; lia).
  assert (Hq1 : q * nb <= k - 1).
  { unfold q. rewrite Z.mul_comm. apply Z.mul_div_le. lia. }
  assert (Hq2 : k - 1 < (q + 1) * nb).
  { unfold q. pose proof (Z.mul_succ_div_gt (k - 1) nb ltac:(lia)). lia. }
  rewrite blocks_cover_prefix; rewrite ?Z2Nat.id by lia; try lia.
  f_equal. lia.
Qed.


(** *** The loops over the blocks, as folds *)

Lemma block_loop_up_fold (nb : Z) (next : Z -> Z) (body : Z -> matrix R -> matrix R) (q : Z) :
  0 < nb -> 0 <= q -> q * nb < 2 ^ 64 ->
  (forall i, 0 <= i < 2 ^ 64 -> next i = Tlapack.idx_t (i + nb)) ->
  forall (r fuel : nat) (X : matrix R),
    (r <= fuel)%nat -> Z.of_nat r <= q ->
    Tlapack.block_loop fuel ((q - Z.of_nat r) * nb) (q * nb) next body X =
    Some (fold_left (fun X i => body i X)
            (map (fun j => (q - Z.of_nat r + Z.of_nat j) * nb) (seq 0 r)) X).
Proof.
  intros Hnb Hq Hlt Hnext.
  induction r as [| r IH]; intros fuel X Hf Hr.
  - replace ((q - Z.of_nat 0) * nb) with (q * nb) by (cbn; ring).
    destruct fuel; cbn [Tlapack.block_loop]; rewrite Z.eqb_refl; reflexivity.
  - destruct fuel as [| fuel]; [lia |].
    cbn [Tlapack.block_loop].
    replace ((q - Z.of_nat (S r)) * nb =? q * nb) with false
      by (symmetry; apply Z.eqb_neq; nia).
    rewrite Hnext by nia.
    replace (Tlapack.idx_t ((q - Z.of_nat (S r)) * nb + nb)) with ((q - Z.of_nat r) * nb).
    + rewrite IH by lia.
      cbn [seq map fold_left]. rewrite Z.add_0_r.
      rewrite (map_seq_from _ 1 r).
      f_equal. f_equal. apply map_ext. intros t. f_equal. lia.
    + unfold Tlapack.idx_t. rewrite Z.mod_small by nia. nia.
Qed.

Lemma block_loop_down_fold (nb : Z) (next : Z -> Z) (body : Z -> matrix R -> matrix R) :
  0 < nb ->
  (forall i, 0 <= i < 2 ^ 64 -> next i = Tlapack.idx_t (i - nb)) ->
  forall (s fuel : nat) (X : matrix R),
    (s < fuel)%nat -> Z.of_nat s * nb + nb < 2 ^ 64 ->
    Tlapack.block_loop fuel (Z.of_nat s * nb) (Tlapack.idx_t (- nb)) next body X =
    Some (fold_left (fun X i => body i X)
            (rev (map (fun j => Z.of_nat j * nb) (seq 0 (S s)))) X).
Proof.
  intros Hnb Hnext.
  assert (HiN : forall t, 0 <= t -> t + nb < 2 ^ 64 ->
                  (t =? Tlapack.idx_t (- nb)) = false).
  { intros t Ht Hlt. apply Z.eqb_neq. unfold Tlapack.idx_t.
    replace (- nb) with (2 ^ 64 - nb + (-1) * 2 ^ 64) by ring.
    rewrite Z.mod_add by lia. rewrite Z.mod_small by lia. lia. }
  induction s as [| s IH]; intros fuel X Hf Hr.
  - destruct fuel as [| fuel]; [lia |].
    cbn [Tlapack.block_loop]. change (Z.of_nat 0 * nb) with 0.
    rewrite (HiN 0) by lia.
    rewrite Hnext by lia.
    replace (0 - nb) with (- nb) by ring.
    destruct fuel; cbn [Tlapack.block_loop]; rewrite Z.eqb_refl; reflexivity.
  - destruct fuel as [| fuel]; [lia |].
    cbn [Tlapack.block_loop].
    rewrite HiN by lia.
    rewrite Hnext by lia.
    replace (Tlapack.idx_t (Z.of_nat (S s) * nb - nb)) with (Z.of_nat s * nb).
    + rewrite IH by lia.
      rewrite (seq_S (S s)), map_app, rev_app_distr. reflexivity.
    + unfold Tlapack.idx_t. rewrite Z.mod_small by nia. nia.
Qed.

(** The sweep of unmlq and unmrq visits the starts of the blocks in
    increasing order when [positiveInc] holds, in decreasing order
    otherwise. *)
Lemma block_sweep_fold positiveInc (k nb : Z) (fuel : nat)
    (body : Z -> matrix R -> matrix R) (C : matrix R) :
  0 < nb <= k -> k < 2 ^ 63 -> k <= Z.of_nat fuel ->
  Tlapack.block_sweep positiveInc k nb fuel body C =
  Some (fold_left (fun X i => body i X)
          (if positiveInc then map fst (Tlapack.blocks k nb)
           else rev (map fst (Tlapack.blocks k nb))) C).
Proof.
  intros Hnb Hk Hfuel. unfold Tlapack.block_sweep, Tlapack.blocks.
  rewrite map_map. cbn [fst].
  set (q := (k - 1) / nb).
  assert (Hq : 0 <= q) by (apply Z.div_pos; lia).
  assert (Hq1 : q * nb <= k - 1).
  { unfold q. rewrite Z.mul_comm. apply Z.mul_div_le. lia. }
  assert (Hq2 : k - 1 < (q + 1) * nb).
  { unfold q. pose proof (Z.mul_succ_div_gt (k - 1) nb ltac:(lia)). lia. }
  assert (Hk1 : Tlapack.idx_t (k - 1) = k - 1).
  { unfold Tlapack.idx_t. apply Z.mod_small. lia. }
  rewrite Hk1. fold q.
  destruct positiveInc.
  - assert (HiN : Tlapack.idx_t ((q + 1) * nb) = (q + 1) * nb).
    { unfold Tlapack.idx_t. apply Z.mod_small. nia. }
    rewrite HiN.
    pose proof (@block_loop_up_fold nb (fun i => Tlapack.idx_t (i + nb)) body (q + 1)
                  ltac:(lia) ltac:(lia) ltac:(nia) ltac:(intros; reflexivity)
                  (Z.to_nat (q + 1)) fuel C ltac:(nia) ltac:(lia)) as E.
    rewrite Z2Nat.id in E by lia.
    replace ((q + 1 - (q + 1)) * nb) with 0 in E by ring.
    rewrite E. f_equal. f_equal. apply map_ext. intros j. f_equal. lia.
  - assert (Hi0 : Tlapack.idx_t (q * nb) = q * nb).
    { unfold Tlapack.idx_t. apply Z.mod_small. nia. }
    rewrite Hi0.
    pose proof (@block_loop_down_fold nb (fun i => Tlapack.idx_t (i + Tlapack.idx_t (- nb)))
                  body ltac:(lia)
                  ltac:(intros i Hi; unfold Tlapack.idx_t;
                        rewrite Zplus_mod_idemp_r; f_equal; ring)
                  (Z.to_nat q) fuel C ltac:(nia) ltac:(rewrite Z2Nat.id by lia; nia)) as E.
    rewrite Z2Nat.id in E by lia.
    rewrite E. f_equal. f_equal. f_equal. f_equal. f_equal. lia.
Qed.


Lemma fold_left_on_blocks (l : list (Z * Z)) (body : Z -> matrix R -> matrix R)
    (blk : Z -> Z -> matrix R -> matrix R) (X : matrix R) :
  (forall b, In b l -> forall Y, body (fst b) Y = blk (fst b) (snd b) Y) ->
  fold_left (fun X i => body i X) (map fst l) X =
  fold_left (fun X b => blk (fst b) (snd b) X) l X.
Proof.
  revert X. induction l as [| b l IH]; intros X H; [reflexivity |].
  cbn [map fold_left]. rewrite (H b (or_introl eq_refl)).
  apply IH. intros b' Hb'. apply H. right. exact Hb'.
Qed.

Lemma blocks_in (k nb : Z) (b : Z * Z) :
  0 < nb -> 0 < k -> In b (Tlapack.blocks k nb) ->
  0 <= fst b <= k - 1 /\ snd b = Z.min nb (k - fst b).
Proof.
  intros Hnb Hk Hin. unfold Tlapack.blocks in Hin.
  apply in_map_iff in Hin. destruct Hin as (j & <- & Hj).
  apply in_seq in Hj. cbn [fst snd].
  assert (Hq : 0 <= (k - 1) / nb) by (apply Z.div_pos; lia).
  assert (Hq1 : (k - 1) / nb * nb <= k - 1).
  { rewrite Z.mul_comm. apply Z.mul_div_le. lia. }
  split; [| reflexivity].
  assert (Z.of_nat j <= (k - 1) / nb) by lia. nia.
Qed.

(** The sweep, block by block: block [(i, ib)] is handed to the work on a
    block with its start and its width. *)
Lemma block_sweep_on_blocks positiveInc (k nb : Z) (fuel : nat)
    (blk : Z -> Z -> matrix R -> matrix R) (C : matrix R) :
  0 < nb <= k -> k < 2 ^ 63 -> k <= Z.of_nat fuel ->
  Tlapack.block_sweep positiveInc k nb fuel
    (fun i C => blk i (Z.min nb (Tlapack.idx_t (k - i))) C) C =
  Some (fold_left (fun X b => blk (fst b) (snd b) X)
          (if positiveInc then Tlapack.blocks k nb else rev (Tlapack.blocks k nb)) C).
Proof.
  intros Hnb Hk Hfuel.
  rewrite block_sweep_fold by assumption. f_equal.
  assert (Hb : forall b, In b (Tlapack.blocks k nb) -> forall Y,
            blk (fst b) (Z.min nb (Tlapack.idx_t (k - fst b))) Y = blk (fst b) (snd b) Y).
  { intros b Hin Y. destruct (@blocks_in k nb b ltac:(lia) ltac:(lia) Hin) as [Hr ->].
    unfold Tlapack.idx_t. rewrite Z.mod_small by lia. reflexivity. }
  destruct positiveInc.
  - apply (fold_left_on_blocks _ (fun i Y => blk i (Z.min nb (Tlapack.idx_t (k - i))) Y)).
    exact Hb.
  - rewrite <- map_rev.
    apply (fold_left_on_blocks _ (fun i Y => blk i (Z.min nb (Tlapack.idx_t (k - i))) Y)).
    intros b Hin. apply Hb. apply in_rev. exact Hin.
Qed.

Variable ungqr_block : Z -> Z -> list R -> matrix R -> matrix R.
Variable unmlq_block : Z -> Z -> Z -> Z -> matrix R -> list R -> matrix R -> matrix R.
Variable unmrq_block : Z -> Z -> Z -> Z -> matrix R -> list R -> matrix R -> matrix R.
Variable is_complex_matrixA : bool.

(** unmlq applies the block reflectors one block after the other, each
    reflector in one block: in increasing order of the blocks for
    (Left, NoTrans) and for side = Right with a [trans] other than
    NoTrans, in decreasing order otherwise. *)
Theorem unmlq_sweeps_blocks side trans (A : matrix R) (tau : list R) (C : matrix R)
    (opts : Tlapack.Opts) (k nb : Z) :
  k = Z.of_nat (length tau) -> nb = Z.min (Z.of_nat (Tlapack.nb opts)) k ->
  (1 <= Tlapack.nb opts)%nat -> 0 < k < 2 ^ 63 ->
  nrows C <> 0%nat -> ncols C <> 0%nat ->
  ~ rejected is_complex_matrixA side trans ->
  ((side = Side.Left /\ trans = Op.NoTrans) \/ (side = Side.Right /\ trans <> Op.NoTrans) ->
   Tlapack.unmlq unmlq_block is_complex_matrixA side trans A tau C opts =
   Tlapack.Return 0
     (fold_left (fun X b => unmlq_block side trans (fst b) (snd b) A tau X)
        (Tlapack.blocks k nb) C)) /\
  ((side = Side.Left /\ trans <> Op.NoTrans) \/ (side = Side.Right /\ trans = Op.NoTrans) ->
   Tlapack.unmlq unmlq_block is_complex_matrixA side trans A tau C opts =
   Tlapack.Return 0
     (fold_left (fun X b => unmlq_block side trans (fst b) (snd b) A tau X)
        (rev (Tlapack.blocks k nb)) C)) /\
  flat_map (fun b => Tlapack.range (fst b) (snd b)) (Tlapack.blocks k nb) =
  Tlapack.range 0 k.
Proof.
  intros Ek Enb Hopt Hk Hm Hn Hok.
  assert (Hnb : 0 < nb <= k) by lia.
  assert (Hrun : Tlapack.unmlq unmlq_block is_complex_matrixA side trans A tau C opts =
                 Tlapack.Return 0
                   (fold_left (fun X b => unmlq_block side trans (fst b) (snd b) A tau X)
                      (if ((side =? Side.Left) && (trans =? Op.NoTrans)) ||
                          (negb (side =? Side.Left) && negb (trans =? Op.NoTrans))
                       then Tlapack.blocks k nb else rev (Tlapack.blocks k nb)) C)).
  { unfold Tlapack.unmlq. rewrite <- Ek, <- Enb.
    destruct (negb (side =? Side.Left) && negb (side =? Side.Right)) eqn:H1;
      [exfalso; apply Hok, rejected_tests; left; exact H1 |].
    destruct (negb (trans =? Op.NoTrans) && negb (trans =? Op.Trans) &&
              negb (trans =? Op.ConjTrans)) eqn:H2;
      [exfalso; apply Hok, rejected_tests; right; left; exact H2 |].
    destruct ((trans =? Op.Trans) && is_complex_matrixA) eqn:H3;
      [exfalso; apply Hok, rejected_tests; right; right; exact H3 |].
    replace (Z.of_nat (nrows C) =? 0) with false by (symmetry; apply Z.eqb_neq; lia).
    replace (Z.of_nat (ncols C) =? 0) with false by (symmetry; apply Z.eqb_neq; lia).
    replace (k =? 0) with false by (symmetry; apply Z.eqb_neq; lia).
    replace (nb =? 0) with false by (symmetry; apply Z.eqb_neq; lia).
    cbn [orb].
    rewrite (block_sweep_on_blocks _ (length tau)
               (fun i ib C0 => unmlq_block side trans i ib A tau C0) C Hnb (proj2 Hk)
               ltac:(lia)).
    reflexivity. }
  split; [| split].
  - intros Hdir. rewrite Hrun. f_equal. f_equal.
    destruct Hdir as [[-> ->] | [-> Ht]]; [reflexivity |].
    apply Z.eqb_neq in Ht. rewrite Ht. reflexivity.
  - intros Hdir. rewrite Hrun. f_equal. f_equal.
    destruct Hdir as [[-> Ht] | [-> ->]]; [| reflexivity].
    apply Z.eqb_neq in Ht. rewrite Ht. reflexivity.
  - apply blocks_cover; lia.
Qed.

(** unmrq sweeps the same blocks the other way round: in increasing
    order for side = Left with a [trans] other than NoTrans and for
    (Right, NoTrans), in decreasing order otherwise. *)
Theorem unmrq_sweeps_blocks side trans (A : matrix R) (tau : list R) (C : matrix R)
    (opts : Tlapack.Opts) (k nb : Z) :
  k = Z.of_nat (length tau) -> nb = Z.min (Z.of_nat (Tlapack.nb opts)) k ->
  (1 <= Tlapack.nb opts)%nat -> 0 < k < 2 ^ 63 ->
  nrows C <> 0%nat -> ncols C <> 0%nat ->
  ~ rejected is_complex side trans ->
  ((side = Side.Left /\ trans <> Op.NoTrans) \/ (side = Side.Right /\ trans = Op.NoTrans) ->
   Tlapack.unmrq unmrq_block side trans A tau C opts =
   Tlapack.Return 0
     (fold_left (fun X b => unmrq_block side trans (fst b) (snd b) A tau X)
        (Tlapack.blocks k nb) C)) /\
  ((side = Side.Left /\ trans = Op.NoTrans) \/ (side = Side.Right /\ trans <> Op.NoTrans) ->
   Tlapack.unmrq unmrq_block side trans A tau C opts =
   Tlapack.Return 0
     (fold_left (fun X b => unmrq_block side trans (fst b) (snd b) A tau X)
        (rev (Tlapack.blocks k nb)) C)) /\
  flat_map (fun b => Tlapack.range (fst b) (snd b)) (Tlapack.blocks k nb) =
  Tlapack.range 0 k.
Proof.
  intros Ek Enb Hopt Hk Hm Hn Hok.
  assert (Hnb : 0 < nb <= k) by lia.
  assert (Hrun : Tlapack.unmrq unmrq_block side trans A tau C opts =
                 Tlapack.Return 0
                   (fold_left (fun X b => unmrq_block side trans (fst b) (snd b) A tau X)
                      (if ((side =? Side.Left) && negb (trans =? Op.NoTrans)) ||
                          (negb (side =? Side.Left) && (trans =? Op.NoTrans))
                       then Tlapack.blocks k nb else rev (Tlapack.blocks k nb)) C)).
  { unfold Tlapack.unmrq. rewrite <- Ek, <- Enb.
    destruct (negb (side =? Side.Left) && negb (side =? Side.Right)) eqn:H1;
      [exfalso; apply Hok, rejected_tests; left; exact H1 |].
    destruct (negb (trans =? Op.NoTrans) && negb (trans =? Op.Trans) &&
              negb (trans =? Op.ConjTrans)) eqn:H2;
      [exfalso; apply Hok, rejected_tests; right; left; exact H2 |].
    destruct ((trans =? Op.Trans) && is_complex) eqn:H3;
      [exfalso; apply Hok, rejected_tests; right; right; exact H3 |].
    replace (Z.of_nat (nrows C) =? 0) with false by (symmetry; apply Z.eqb_neq; lia).
    replace (Z.of_nat (ncols C) =? 0) with false by (symmetry; apply Z.eqb_neq; lia).
    replace (k =? 0) with false by (symmetry; apply Z.eqb_neq; lia).
    replace (nb =? 0) with false by (symmetry; apply Z.eqb_neq; lia).
    cbn [orb].
    rewrite (block_sweep_on_blocks _ (length tau)
               (fun i ib C0 => unmrq_block side trans i ib A tau C0) C Hnb (proj2 Hk)
               ltac:(lia)).
    reflexivity. }
  split; [| split].
  - intros Hdir. rewrite Hrun. f_equal. f_equal.
    destruct Hdir as [[-> Ht] | [-> ->]]; [| reflexivity].
    apply Z.eqb_neq in Ht. rewrite Ht. reflexivity.
  - intros Hdir. rewrite Hrun. f_equal. f_equal.
    destruct Hdir as [[-> ->] | [-> Ht]]; [reflexivity |].
    apply Z.eqb_neq in Ht. rewrite Ht. reflexivity.
  - apply blocks_cover; lia.
Qed.


(** *** ungqr *)

Lemma zero_column_spec (cnt j : nat) (A : matrix R) :
  nrows (Tlapack.zero_column cnt j A) = nrows A /\
  ncols (Tlapack.zero_column cnt j A) = ncols A /\
  forall l' j', elt (Tlapack.zero_column cnt j A) l' j' =
                if (l' <? cnt)%nat && (j' =? j)%nat then s_zero else elt A l' j'.
Proof.
  unfold Tlapack.zero_column. induction cnt as [| cnt IH]; cbn [for_loop].
  - repeat split. 
  - destruct IH as (IH1 & IH2 & IH3). cbn [upd nrows ncols elt].
    repeat split; try assumption.
    intros l' j'. rewrite IH3.
    destruct (Nat.eqb_spec j' j) as [-> | Hj]; rewrite ?andb_true_r, ?andb_false_r;
      [| reflexivity].
    destruct (Nat.eqb_spec l' cnt) as [-> | Hl].
    + replace (cnt <? S cnt)%nat with true by (symmetry; apply Nat.ltb_lt; lia).
      reflexivity.
    + destruct (Nat.ltb_spec l' cnt), (Nat.ltb_spec l' (S cnt)); try lia; reflexivity.
Qed.

(** The initialisation makes columns [k .. min(m,n)-1] columns of the
    unit matrix and leaves the others. *)
Lemma ungqr_init_spec (A : matrix R) (tau : list R) :
  (length tau <= ncols A)%nat ->
  nrows (Tlapack.ungqr_init A tau) = nrows A /\
  ncols (Tlapack.ungqr_init A tau) = ncols A /\
  forall l j,
    elt (Tlapack.ungqr_init A tau) l j =
    if (length tau <=? j)%nat && (j <? Nat.min (nrows A) (ncols A))%nat
    then (if (l =? j)%nat then s_one
          else if (l <? nrows A)%nat then s_zero else elt A l j)
    else elt A l j.
Proof.
  intros Hkn. unfold Tlapack.ungqr_init. cbv zeta.
  assert (G : forall c : nat, (length tau + c <= Nat.max (length tau) (Nat.min (nrows A) (ncols A)))%nat ->
    let X := for_loop c
               (fun jj A0 =>
                  upd (Tlapack.zero_column (nrows A0) (length tau + jj) A0)
                    (length tau + jj) (length tau + jj) s_one) A in
    nrows X = nrows A /\ ncols X = ncols A /\
    forall l j, elt X l j =
      if (length tau <=? j)%nat && (j <? length tau + c)%nat
      then (if (l =? j)%nat then s_one
            else if (l <? nrows A)%nat then s_zero else elt A l j)
      else elt A l j).
  { induction c as [| c IH]; intros Hc; cbv zeta.
    - cbn [for_loop]. repeat split. intros l j.
      destruct (Nat.leb_spec (length tau) j), (Nat.ltb_spec j (length tau + 0));
        cbn [andb]; try reflexivity; lia.
    - cbn [for_loop]. destruct (IH ltac:(lia)) as (I1 & I2 & I3).
      set (X := for_loop c _ A) in *.
      destruct (zero_column_spec (nrows X) (length tau + c) X) as (Z1 & Z2 & Z3).
      cbn [upd nrows ncols elt]. rewrite Z1, Z2.
      repeat split; try assumption.
      intros l j. rewrite Z3, I3, I1.
      destruct (Nat.eqb_spec j (length tau + c)) as [-> | Hj].
      + replace (length tau <=? length tau + c)%nat with true
          by (symmetry; apply Nat.leb_le; lia).
        replace (length tau + c <? length tau + c)%nat with false
          by (symmetry; apply Nat.ltb_irrefl).
        replace (length tau + c <? length tau + S c)%nat with true
          by (symmetry; apply Nat.ltb_lt; lia).
        cbn [andb]. rewrite !andb_true_r.
        destruct (Nat.eqb_spec l (length tau + c)); [reflexivity |].
        destruct (l <? nrows A)%nat; reflexivity.
      + rewrite !andb_false_r.
        destruct (Nat.leb_spec (length tau) j); cbn [andb]; [| reflexivity].
        destruct (Nat.ltb_spec j (length tau + c)), (Nat.ltb_spec j (length tau + S c));
          try lia; reflexivity. }
  set (c := Z.to_nat (Z.min (Z.of_nat (nrows A)) (Z.of_nat (ncols A)) -
                      Z.of_nat (length tau))).
  destruct (G c ltac:(lia)) as (G1 & G2 & G3).
  repeat split; try assumption.
  intros l j. rewrite G3.
  destruct (Nat.leb_spec (length tau) j); cbn [andb]; [| reflexivity].
  destruct (Nat.ltb_spec j (length tau + c)), (Nat.ltb_spec j (Nat.min (nrows A) (ncols A)));
    try reflexivity; lia.
Qed.

(** The work on a block ends with zeros above the block. *)
Lemma ungqr_step_spec (tau : list R) (i ib : Z) (X : matrix R) (l j : nat) :
  elt (Tlapack.ungqr_step ungqr_block tau i ib X) l j =
  if (l <? Z.to_nat i)%nat && (Z.to_nat i <=? j)%nat && (j <? Z.to_nat i + Z.to_nat ib)%nat
  then s_zero else elt (ungqr_block i ib tau X) l j.
Proof.
  unfold Tlapack.ungqr_step. cbv zeta.
  generalize (ungqr_block i ib tau X). intros Y.
  generalize (Z.to_nat ib). intros c. generalize (Z.to_nat i). intros i0.
  induction c as [| c IH]; cbn [for_loop].
  - destruct (l <? i0)%nat, (Nat.leb_spec i0 j), (Nat.ltb_spec j (i0 + 0));
      cbn [andb]; try reflexivity; lia.
  - destruct (zero_column_spec i0 (i0 + c) (for_loop c
                (fun jj A => Tlapack.zero_column i0 (i0 + jj) A) Y)) as (_ & _ & Z3).
    rewrite Z3, IH.
    destruct (Nat.ltb_spec l i0); cbn [andb]; [| reflexivity].
    destruct (Nat.eqb_spec j (i0 + c)) as [-> | Hj].
    + replace (i0 <=? i0 + c)%nat with true by (symmetry; apply Nat.leb_le; lia).
      replace (i0 + c <? i0 + S c)%nat with true by (symmetry; apply Nat.ltb_lt; lia).
      reflexivity.
    + destruct (Nat.leb_spec i0 j); cbn [andb]; [| reflexivity].
      destruct (Nat.ltb_spec j (i0 + c)), (Nat.ltb_spec j (i0 + S c)); try lia; reflexivity.
Qed.

(** ungqr initialises the columns past the reflectors, then works through
    the blocks in decreasing order, each reflector in one block, and
    leaves zeros above each block as it goes. *)
Theorem ungqr_sweeps_blocks_downwards (A : matrix R) (tau : list R) (opts : Tlapack.Opts)
    (k nb : Z) :
  k = Z.of_nat (length tau) -> nb = Z.min (Z.of_nat (Tlapack.nb opts)) k ->
  (1 <= Tlapack.nb opts)%nat -> 0 < k < 2 ^ 63 -> (length tau <= ncols A)%nat ->
  Tlapack.ungqr ungqr_block A tau opts =
  Tlapack.Return 0
    (fold_left (fun X b => Tlapack.ungqr_step ungqr_block tau (fst b) (snd b) X)
       (rev (Tlapack.blocks k nb)) (Tlapack.ungqr_init A tau)) /\
  (forall l j,
     elt (Tlapack.ungqr_init A tau) l j =
     if (length tau <=? j)%nat && (j <? Nat.min (nrows A) (ncols A))%nat
     then (if (l =? j)%nat then s_one
           else if (l <? nrows A)%nat then s_zero else elt A l j)
     else elt A l j) /\
  (forall b X l j,
     elt (Tlapack.ungqr_step ungqr_block tau (fst b) (snd b) X) l j =
     if (l <? Z.to_nat (fst b))%nat && (Z.to_nat (fst b) <=? j)%nat &&
        (j <? Z.to_nat (fst b) + Z.to_nat (snd b))%nat
     then s_zero else elt (ungqr_block (fst b) (snd b) tau X) l j) /\
  flat_map (fun b => Tlapack.range (fst b) (snd b)) (Tlapack.blocks k nb) =
  Tlapack.range 0 k.
Proof.
  intros Ek Enb Hopt Hk Hkn.
  assert (Hnb : 0 < nb <= k) by lia.
  split; [| split; [| split]].
  - unfold Tlapack.ungqr.
    change (for_loop (Z.to_nat (Z.min (Z.of_nat (nrows A)) (Z.of_nat (ncols A)) -
                                Z.of_nat (length tau))) _ A)
      with (Tlapack.ungqr_init A tau).
    rewrite <- Ek, <- Enb.
    replace (k >? Z.of_nat (ncols A)) with false
      by (symmetry; rewrite Z.gtb_ltb; apply Z.ltb_ge; lia).
    replace (Z.of_nat (ncols A) <=? 0) with false by (symmetry; apply Z.leb_gt; lia).
    replace (nb =? 0) with false by (symmetry; apply Z.eqb_neq; lia).
    set (q := (k - 1) / nb).
    assert (Hq : 0 <= q) by (apply Z.div_pos; lia).
    assert (Hq1 : q * nb <= k - 1).
    { unfold q. rewrite Z.mul_comm. apply Z.mul_div_le. lia. }
    assert (Hk1 : Tlapack.idx_t (k - 1) = k - 1).
    { unfold Tlapack.idx_t. apply Z.mod_small. lia. }
    rewrite Hk1. fold q.
    assert (Hi0 : Tlapack.idx_t (q * nb) = q * nb).
    { unfold Tlapack.idx_t. apply Z.mod_small. nia. }
    rewrite Hi0.
    pose proof (@block_loop_down_fold nb (fun i => Tlapack.idx_t (i - nb))
                  (fun i X => Tlapack.ungqr_step ungqr_block tau i
                                (Z.min nb (Tlapack.idx_t (k - i))) X)
                  ltac:(lia) ltac:(intros; reflexivity)
                  (Z.to_nat q) (length tau) (Tlapack.ungqr_init A tau)
                  ltac:(nia) ltac:(rewrite Z2Nat.id by lia; nia)) as E.
    rewrite Z2Nat.id in E by lia.
    unfold Tlapack.ungqr_step in E at 1. cbv zeta in E.
    rewrite E. f_equal.
    assert (Hl : map (fun j => Z.of_nat j * nb) (seq 0 (S (Z.to_nat q))) =
                 map fst (Tlapack.blocks k nb)).
    { unfold Tlapack.blocks. rewrite map_map. cbn [fst]. fold q.
      f_equal. f_equal. lia. }
    rewrite Hl, <- map_rev.
    apply (fold_left_on_blocks _
             (fun i X => Tlapack.ungqr_step ungqr_block tau i
                           (Z.min nb (Tlapack.idx_t (k - i))) X)).
    intros b Hin Y. apply in_rev in Hin.
    destruct (@blocks_in k nb b ltac:(lia) ltac:(lia) Hin) as [Hr ->].
    unfold Tlapack.idx_t. rewrite Z.mod_small by lia. reflexivity.
  - apply ungqr_init_spec. exact Hkn.
  - intros b X l j. apply ungqr_step_spec.
  - apply blocks_cover; lia.
Qed.

End DriverBlocks.

(** ** The blocked drivers: a block size of zero *)

Section DriverBlockSize.
Context {R : Type} {SR : Scalar R}.
Local Open Scope Z_scope.

Variable ungqr_block : Z -> Z -> list R -> matrix R -> matrix R.
Variable unmlq_block : Z -> Z -> Z -> Z -> matrix R -> list R -> matrix R -> matrix R.
Variable unmrq_block : Z -> Z -> Z -> Z -> matrix R -> list R -> matrix R -> matrix R.
Variable is_complex_matrixA : bool.

(** A block size of zero is not rejected: each driver passes its
    validation and its quick return, and divides by [nb = min(0, k) = 0]
    when it prepares its loop; unmlq and unmrq have not touched [C] by
    then. *)
Theorem drivers_divide_by_zero_block_size side trans (A : matrix R) (tau : list R)
    (C : matrix R) (opts : Tlapack.Opts) :
  Tlapack.nb opts = 0%nat ->
  ((1 <= ncols A)%nat -> (length tau <= ncols A)%nat ->
   exists A', Tlapack.ungqr ungqr_block A tau opts = Tlapack.Trap A') /\
  (nrows C <> 0%nat -> ncols C <> 0%nat -> length tau <> 0%nat ->
   (~ rejected is_complex_matrixA side trans ->
    Tlapack.unmlq unmlq_block is_complex_matrixA side trans A tau C opts = Tlapack.Trap C) /\
   (~ rejected is_complex side trans ->
    Tlapack.unmrq unmrq_block side trans A tau C opts = Tlapack.Trap C)).
Proof.
  intros Hnb. split.
  - intros Hn Hk. unfold Tlapack.ungqr. rewrite Hnb.
    replace (Z.of_nat (length tau) >? Z.of_nat (ncols A)) with false
      by (symmetry; rewrite Z.gtb_ltb; apply Z.ltb_ge; lia).
    replace (Z.of_nat (ncols A) <=? 0) with false by (symmetry; apply Z.leb_gt; lia).
    replace (Z.min (Z.of_nat 0) (Z.of_nat (length tau)) =? 0) with true
      by (symmetry; apply Z.eqb_eq; lia).
    eexists; reflexivity.
  - intros Hm Hn Hk. split; intros Hok.
    + unfold Tlapack.unmlq. rewrite Hnb.
      destruct (negb (side =? Side.Left) && negb (side =? Side.Right)) eqn:H1;
        [exfalso; apply Hok, rejected_tests; left; exact H1 |].
      destruct (negb (trans =? Op.NoTrans) && negb (trans =? Op.Trans) &&
                negb (trans =? Op.ConjTrans)) eqn:H2;
        [exfalso; apply Hok, rejected_tests; right; left; exact H2 |].
      destruct ((trans =? Op.Trans) && is_complex_matrixA) eqn:H3;
        [exfalso; apply Hok, rejected_tests; right; right; exact H3 |].
      replace (Z.of_nat (nrows C) =? 0) with false by (symmetry; apply Z.eqb_neq; lia).
      replace (Z.of_nat (ncols C) =? 0) with false by (symmetry; apply Z.eqb_neq; lia).
      replace (Z.of_nat (length tau) =? 0) with false by (symmetry; apply Z.eqb_neq; lia).
      replace (Z.min (Z.of_nat 0) (Z.of_nat (length tau)) =? 0) with true
        by (symmetry; apply Z.eqb_eq; lia).
      reflexivity.
    + unfold Tlapack.unmrq. rewrite Hnb.
      destruct (negb (side =? Side.Left) && negb (side =? Side.Right)) eqn:H1;
        [exfalso; apply Hok, rejected_tests; left; exact H1 |].
      destruct (negb (trans =? Op.NoTrans) && negb (trans =? Op.Trans) &&
                negb (trans =? Op.ConjTrans)) eqn:H2;
        [exfalso; apply Hok, rejected_tests; right; left; exact H2 |].
      destruct ((trans =? Op.Trans) && is_complex) eqn:H3;
        [exfalso; apply Hok, rejected_tests; right; right; exact H3 |].
      replace (Z.of_nat (nrows C) =? 0) with false by (symmetry; apply Z.eqb_neq; lia).
      replace (Z.of_nat (ncols C) =? 0) with false by (symmetry; apply Z.eqb_neq; lia).
      replace (Z.of_nat (length tau) =? 0) with false by (symmetry; apply Z.eqb_neq; lia).
      replace (Z.min (Z.of_nat 0) (Z.of_nat (length tau)) =? 0) with true
        by (symmetry; apply Z.eqb_eq; lia).
      reflexivity.
Qed.

End DriverBlockSize.

(** ** Workspace queries *)

Section WorkspaceProperties.
Context {WQ : Tlapack.WorkQueries} {WL : Tlapack.WorkQueriesLaws}.
Variable is_same_T : bool.

Lemma WorkInfo_le_refl w : Tlapack.WorkInfo.le w w.
Proof. split; apply Nat.le_refl. Qed.

(** C8.  The workspace query of ungqr is monotone in the extents of [A]:
    for the same [tau] and options, a matrix at least as large in both
    extents is answered by a workspace at least as large in both. *)
Theorem ungqr_worksize_monotone (m1 n1 m2 n2 k : nat) (opts : Tlapack.Opts) :
  (m1 <= m2)%nat -> (n1 <= n2)%nat ->
  Tlapack.WorkInfo.le (Tlapack.ungqr_worksize is_same_T (m1, n1) k opts)
                      (Tlapack.ungqr_worksize is_same_T (m2, n2) k opts).
Proof.
  intros Hm Hn. unfold Tlapack.ungqr_worksize, Tlapack.slice_shape.
  cbn [fst snd].
  set (b := Nat.min (Tlapack.nb opts) k).
  apply Tlapack.minMax_mono.
  - destruct (Nat.ltb_spec b n1) as [H1 | H1], (Nat.ltb_spec b n2) as [H2 | H2].
    + assert (Hq : Tlapack.WorkInfo.le
                     (Tlapack.larfb_worksize Side.Left Op.NoTrans Direction.Forward
                        StoreV.Columnwise (m1 - 0, b - 0) (b - 0, b - 0) (m1 - 0, n1 - b))%nat
                     (Tlapack.larfb_worksize Side.Left Op.NoTrans Direction.Forward
                        StoreV.Columnwise (m2 - 0, b - 0) (b - 0, b - 0) (m2 - 0, n2 - b))%nat).
      { apply Tlapack.larfb_worksize_mono; cbn [fst snd]; lia. }
      destruct is_same_T; [| exact Hq].
      apply Tlapack.plus_mono; [exact Hq | apply WorkInfo_le_refl].
    + lia.
    + apply Tlapack.empty_least.
    + apply WorkInfo_le_refl.
  - apply Tlapack.ung2r_worksize_mono; cbn [fst snd]; lia.
Qed.

(** The query of unmrq is monotone in the extents of [C] in the same
    way. *)
Theorem unmrq_worksize_monotone side trans (A : Tlapack.shape) (m1 n1 m2 n2 k : nat)
    (opts : Tlapack.Opts) :
  (m1 <= m2)%nat -> (n1 <= n2)%nat ->
  Tlapack.WorkInfo.le (Tlapack.unmrq_worksize is_same_T side trans A k (m1, n1) opts)
                      (Tlapack.unmrq_worksize is_same_T side trans A k (m2, n2) opts).
Proof.
  intros Hm Hn. unfold Tlapack.unmrq_worksize, Tlapack.slice_shape.
  cbn [fst snd].
  apply Tlapack.plus_mono; [apply WorkInfo_le_refl |].
  apply Tlapack.larfb_worksize_mono; cbn [fst snd]; try lia.
  destruct (side =? Side.Left)%Z; lia.
Qed.

End WorkspaceProperties.

(** The element-wise instance satisfies the laws. *)
Lemma spec_WorkQueriesLaws : @Tlapack.WorkQueriesLaws Tlapack.spec_WorkQueries.
Proof.
  split; unfold Tlapack.WorkInfo.le; cbn.
  - intros w; lia.
  - intros a a' b b' [? ?] [? ?]; lia.
  - intros a a' b b' [? ?] [? ?]; lia.
  - intros side _ _ _ V V' T C C' ? ? ? ?.
    destruct (side =? Side.Left)%Z; cbn; lia.
  - intros Ai Ai' _ ? ?; lia.
Qed.

Lemma ungqr_worksize_monotone_witness :
  Tlapack.WorkInfo.le
    (Tlapack.ungqr_worksize (WQ := Tlapack.spec_WorkQueries) true (6, 4)%nat 3 Tlapack.default_Opts)
    (Tlapack.ungqr_worksize (WQ := Tlapack.spec_WorkQueries) true (8, 7)%nat 3 Tlapack.default_Opts).
Proof.
  apply (ungqr_worksize_monotone (WL := spec_WorkQueriesLaws)); lia.
Defined.

(** ** rscl *)

Section RsclProperties.
Local Open Scope Q_scope.
Variables safeMax safeMin : Q.

Lemma Qgtb_lt a b : Tlapack.Qgtb a b = true <-> b < a.
Proof.
  unfold Tlapack.Qgtb. rewrite negb_true_iff, <- not_true_iff_false, Qle_bool_iff.
  split; [apply Qnot_le_lt | apply Qlt_not_le].
Qed.

Lemma Qltb_lt a b : Tlapack.Qltb a b = true <-> a < b.
Proof.
  unfold Tlapack.Qltb. rewrite negb_true_iff, <- not_true_iff_false, Qle_bool_iff.
  split; [apply Qnot_le_lt | apply Qlt_not_le].
Qed.

Lemma Qgtb_false a b : Tlapack.Qgtb a b = false <-> a <= b.
Proof.
  unfold Tlapack.Qgtb. rewrite negb_false_iff. apply Qle_bool_iff.
Qed.

Lemma Qltb_false a b : Tlapack.Qltb a b = false <-> b <= a.
Proof.
  unfold Tlapack.Qltb. rewrite negb_false_iff. apply Qle_bool_iff.
Qed.

Lemma Qabs_zero_iff a : Qabs a == 0 <-> a == 0.
Proof.
  split.
  - apply (Qabs_case a (fun y => y == 0 -> a == 0)); intros; lra.
  - intros H. rewrite H. reflexivity.
Qed.

(** Two lists built by [map] agree when the functions agree. *)
Lemma Forall2_map_pointwise {A B : Type} (E : B -> B -> Prop) (f g : A -> B) (l : list A) :
  (forall a, E (f a) (g a)) -> Forall2 E (map f l) (map g l).
Proof.
  intros H. induction l as [| a l IH]; cbn; constructor; auto.
Qed.

(** The three branches of the real overload, by the position of [|alpha|]. *)
Lemma rscl_large {elt_t} {Sc : Tlapack.Scal Q elt_t} alpha (x : list elt_t) :
  safeMax < Qabs alpha ->
  Tlapack.rscl safeMax safeMin alpha x =
  Tlapack.scal (safeMax / alpha) (Tlapack.scal safeMin x).
Proof.
  intros H. unfold Tlapack.rscl.
  rewrite (proj2 (Qgtb_lt _ _) H). reflexivity.
Qed.

Lemma rscl_small {elt_t} {Sc : Tlapack.Scal Q elt_t} alpha (x : list elt_t) :
  safeMin <= safeMax -> Qabs alpha < safeMin ->
  Tlapack.rscl safeMax safeMin alpha x =
  Tlapack.scal (safeMin / alpha) (Tlapack.scal safeMax x).
Proof.
  intros Hmm H. unfold Tlapack.rscl.
  rewrite (proj2 (Qgtb_false _ _)) by lra.
  rewrite (proj2 (Qltb_lt _ _) H). reflexivity.
Qed.

Lemma rscl_safe {elt_t} {Sc : Tlapack.Scal Q elt_t} alpha (x : list elt_t) :
  safeMin <= Qabs alpha <= safeMax ->
  Tlapack.rscl safeMax safeMin alpha x = Tlapack.scal (1 / alpha) x.
Proof.
  intros [Hlo Hhi]. unfold Tlapack.rscl.
  rewrite (proj2 (Qgtb_false _ _) Hhi), (proj2 (Qltb_false _ _) Hlo). reflexivity.
Qed.

(** Whatever the branch, the real overload divides each element by
    [alpha]. *)
Lemma rscl_divides alpha (x : list Q) :
  safeMin * safeMax == 1 -> ~ alpha == 0 ->
  Forall2 Qeq (Tlapack.rscl safeMax safeMin alpha x) (map (fun xi => xi / alpha) x).
Proof.
  intros Hprod Ha. unfold Tlapack.rscl, Tlapack.scal.
  destruct (Tlapack.Qgtb (Qabs alpha) safeMax);
    [| destruct (Tlapack.Qltb (Qabs alpha) safeMin)];
    rewrite ?map_map; apply Forall2_map_pointwise; intros xi;
    unfold Tlapack.scale, Tlapack.Scal_real_real.
  - transitivity (xi * (safeMin * safeMax) / alpha); [field; exact Ha |].
    rewrite Hprod. field. exact Ha.
  - transitivity (xi * (safeMin * safeMax) / alpha); [field; exact Ha |].
    rewrite Hprod. field. exact Ha.
  - field. exact Ha.
Qed.

(** C4, in exact arithmetic.  With thresholds [safeMin <= safeMax] whose
    product is 1 and a nonzero [alpha], the real overload takes exactly
    one of three branches, chosen by [|alpha|] against the safe range,
    and in each the combined scaling divides every element of [x] by
    [alpha]. *)
Theorem rscl_real_three_branches alpha (x : list Q) :
  safeMin <= safeMax -> safeMin * safeMax == 1 -> ~ alpha == 0 ->
  (safeMax < Qabs alpha ->
   Tlapack.rscl safeMax safeMin alpha x =
   Tlapack.scal (safeMax / alpha) (Tlapack.scal safeMin x)) /\
  (Qabs alpha < safeMin ->
   Tlapack.rscl safeMax safeMin alpha x =
   Tlapack.scal (safeMin / alpha) (Tlapack.scal safeMax x)) /\
  (safeMin <= Qabs alpha <= safeMax ->
   Tlapack.rscl safeMax safeMin alpha x = Tlapack.scal (1 / alpha) x) /\
  (safeMax < Qabs alpha \/ Qabs alpha < safeMin \/ safeMin <= Qabs alpha <= safeMax) /\
  Forall2 Qeq (Tlapack.rscl safeMax safeMin alpha x) (map (fun xi => xi / alpha) x).
Proof.
  intros Hmm Hprod Ha.
  split; [apply rscl_large |].
  split; [apply rscl_small; exact Hmm |].
  split; [apply rscl_safe |].
  split; [| apply rscl_divides; assumption].
  destruct (Qlt_le_dec safeMax (Qabs alpha)) as [H | H]; [left; exact H |].
  destruct (Qlt_le_dec (Qabs alpha) safeMin) as [H' | H']; [right; left; exact H' |].
  right; right; split; assumption.
Qed.

(** With a zero real part and a nonzero imaginary part, the complex
    overload reaches its second case: the guards of the real overload,
    applied to the imaginary part. *)
Lemma rscl_complex_imaginary alpha (x : list Tlapack.complex) :
  Tlapack.real alpha == 0 -> ~ Tlapack.imag alpha == 0 ->
  Tlapack.rscl_complex safeMax safeMin alpha x =
  if Tlapack.Qgtb (Qabs (Tlapack.imag alpha)) safeMax then
    Tlapack.scal (Tlapack.mk_complex 0 (- safeMax / Tlapack.imag alpha))
                 (Tlapack.scal safeMin x)
  else if Tlapack.Qltb (Qabs (Tlapack.imag alpha)) safeMin then
    Tlapack.scal (Tlapack.mk_complex 0 (- safeMin / Tlapack.imag alpha))
                 (Tlapack.scal safeMax x)
  else
    Tlapack.scal (Tlapack.mk_complex 0 (- (1) / Tlapack.imag alpha)) x.
Proof.
  intros HR HI. unfold Tlapack.rscl_complex.
  destruct (Qeq_bool (Qabs (Tlapack.imag alpha)) 0) eqn:HbI.
  - exfalso. apply HI. apply Qabs_zero_iff. apply Qeq_bool_iff. exact HbI.
  - assert (HbR : Qeq_bool (Qabs (Tlapack.real alpha)) 0 = true).
    { apply Qeq_bool_iff. apply Qabs_zero_iff. exact HR. }
    rewrite HbR. reflexivity.
Qed.

(** Scaling a complex element by a real, then by the imaginary number
    [-(c/aI) i], is scaling by the two reals and rotating by [-i]. *)
Lemma scale_imaginary_rotates (c d aI : Q) (z : Tlapack.complex) :
  ~ aI == 0 ->
  Tlapack.ceq
    (Tlapack.scale (Tlapack.mk_complex 0 (- c / aI)) (Tlapack.scale d z))
    (Tlapack.mul_neg_i (Tlapack.scale (c / aI) (Tlapack.scale d z))).
Proof.
  intros H. destruct z as [a b].
  unfold Tlapack.ceq, Tlapack.scale, Tlapack.Scal_complex_complex,
    Tlapack.Scal_real_complex, Tlapack.cmul, Tlapack.mul_neg_i; cbn.
  split; field; exact H.
Qed.

Lemma scale_imaginary_rotates_1 (aI : Q) (z : Tlapack.complex) :
  ~ aI == 0 ->
  Tlapack.ceq
    (Tlapack.scale (Tlapack.mk_complex 0 (- (1) / aI)) z)
    (Tlapack.mul_neg_i (Tlapack.scale (1 / aI) z)).
Proof.
  intros H. destruct z as [a b].
  unfold Tlapack.ceq, Tlapack.scale, Tlapack.Scal_complex_complex,
    Tlapack.Scal_real_complex, Tlapack.cmul, Tlapack.mul_neg_i; cbn.
  split; field; exact H.
Qed.

(** The complex overload on [alpha = aI i] is the real overload on [aI],
    rotated by [-i]. *)
Lemma rscl_complex_delegates alpha (x : list Tlapack.complex) :
  Tlapack.real alpha == 0 -> ~ Tlapack.imag alpha == 0 ->
  Forall2 Tlapack.ceq
    (Tlapack.rscl_complex safeMax safeMin alpha x)
    (map Tlapack.mul_neg_i (Tlapack.rscl safeMax safeMin (Tlapack.imag alpha) x)).
Proof.
  intros HR HI. rewrite (rscl_complex_imaginary alpha x HR HI).
  unfold Tlapack.rscl, Tlapack.scal.
  destruct (Tlapack.Qgtb (Qabs (Tlapack.imag alpha)) safeMax);
    [| destruct (Tlapack.Qltb (Qabs (Tlapack.imag alpha)) safeMin)];
    rewrite ?map_map; apply Forall2_map_pointwise; intros z.
  - apply scale_imaginary_rotates; exact HI.
  - apply scale_imaginary_rotates; exact HI.
  - apply scale_imaginary_rotates_1; exact HI.
Qed.

(** Dividing by [aI i] is dividing by [aI] and rotating by [-i]. *)
Lemma cdiv_imaginary alpha (z : Tlapack.complex) :
  Tlapack.real alpha == 0 -> ~ Tlapack.imag alpha == 0 ->
  Tlapack.ceq (Tlapack.cdiv z alpha)
    (Tlapack.mul_neg_i
       (Tlapack.mk_complex (Tlapack.real z / Tlapack.imag alpha)
                           (Tlapack.imag z / Tlapack.imag alpha))).
Proof.
  intros HR HI. destruct alpha as [aR aI], z as [a b]. cbn in *.
  unfold Tlapack.ceq, Tlapack.cdiv, Tlapack.mul_neg_i; cbn.
  rewrite HR. split; field; exact HI.
Qed.

Lemma rscl_complex_divides alpha (x : list Tlapack.complex) :
  safeMin * safeMax == 1 ->
  Tlapack.real alpha == 0 -> ~ Tlapack.imag alpha == 0 ->
  Forall2 Tlapack.ceq
    (Tlapack.rscl_complex safeMax safeMin alpha x)
    (map (fun z => Tlapack.cdiv z alpha) x).
Proof.
  intros Hprod HR HI. rewrite (rscl_complex_imaginary alpha x HR HI).
  unfold Tlapack.scal.
  assert (Hstep : forall (c d : Q) (z : Tlapack.complex), d * c == 1 ->
            Tlapack.ceq
              (Tlapack.scale (Tlapack.mk_complex 0 (- c / Tlapack.imag alpha))
                             (Tlapack.scale d z))
              (Tlapack.cdiv z alpha)).
  { intros c d z Hdc.
    destruct (cdiv_imaginary alpha z HR HI) as [E1 E2].
    destruct (scale_imaginary_rotates c d z HI) as [F1 F2].
    destruct z as [a b].
    unfold Tlapack.ceq in *. rewrite E1, E2, F1, F2.
    unfold Tlapack.scale, Tlapack.Scal_real_complex, Tlapack.mul_neg_i; cbn.
    split.
    - transitivity (b * (d * c) / Tlapack.imag alpha); [field; exact HI |].
      rewrite Hdc. field. exact HI.
    - transitivity (- (a * (d * c) / Tlapack.imag alpha)); [field; exact HI |].
      rewrite Hdc. field. exact HI. }
  destruct (Tlapack.Qgtb (Qabs (Tlapack.imag alpha)) safeMax);
    [| destruct (Tlapack.Qltb (Qabs (Tlapack.imag alpha)) safeMin)];
    rewrite ?map_map; apply Forall2_map_pointwise; intros z.
  - apply Hstep. exact Hprod.
  - apply Hstep. rewrite Qmult_comm. exact Hprod.
  - destruct (cdiv_imaginary alpha z HR HI) as [E1 E2].
    destruct (scale_imaginary_rotates_1 z HI) as [F1 F2].
    destruct z as [a b].
    unfold Tlapack.ceq in *. rewrite E1, E2, F1, F2.
    unfold Tlapack.scale, Tlapack.Scal_real_complex, Tlapack.mul_neg_i; cbn.
    split; field; exact HI.
Qed.

(** C5, in exact arithmetic.  With thresholds [safeMin <= safeMax] whose
    product is 1, for [alpha] with a zero real part and a nonzero
    imaginary part the complex overload applies the guards of the real
    overload to the imaginary part, scaling by the purely imaginary
    reciprocal: its result is that of the real overload on [imag alpha]
    rotated by [-i], which is [x / alpha]. *)
Theorem rscl_complex_zero_real_part alpha (x : list Tlapack.complex) :
  safeMin <= safeMax -> safeMin * safeMax == 1 ->
  Tlapack.real alpha == 0 -> ~ Tlapack.imag alpha == 0 ->
  (safeMax < Qabs (Tlapack.imag alpha) ->
   Tlapack.rscl_complex safeMax safeMin alpha x =
   Tlapack.scal (Tlapack.mk_complex 0 (- safeMax / Tlapack.imag alpha))
                (Tlapack.scal safeMin x)) /\
  (Qabs (Tlapack.imag alpha) < safeMin ->
   Tlapack.rscl_complex safeMax safeMin alpha x =
   Tlapack.scal (Tlapack.mk_complex 0 (- safeMin / Tlapack.imag alpha))
                (Tlapack.scal safeMax x)) /\
  (safeMin <= Qabs (Tlapack.imag alpha) <= safeMax ->
   Tlapack.rscl_complex safeMax safeMin alpha x =
   Tlapack.scal (Tlapack.mk_complex 0 (- (1) / Tlapack.imag alpha)) x) /\
  Forall2 Tlapack.ceq
    (Tlapack.rscl_complex safeMax safeMin alpha x)
    (map Tlapack.mul_neg_i (Tlapack.rscl safeMax safeMin (Tlapack.imag alpha) x)) /\
  Forall2 Tlapack.ceq
    (Tlapack.rscl_complex safeMax safeMin alpha x)
    (map (fun z => Tlapack.cdiv z alpha) x).
Proof.
  intros Hmm Hprod HR HI.
  rewrite (rscl_complex_imaginary alpha x HR HI).
  split; [intros H; rewrite (proj2 (Qgtb_lt _ _) H); reflexivity |].
  split; [intros H; rewrite (proj2 (Qgtb_false _ _)) by lra;
          rewrite (proj2 (Qltb_lt _ _) H); reflexivity |].
  split; [intros [Hlo Hhi];
          rewrite (proj2 (Qgtb_false _ _) Hhi), (proj2 (Qltb_false _ _) Hlo);
          reflexivity |].
  rewrite <- (rscl_complex_imaginary alpha x HR HI).
  split; [apply rscl_complex_delegates | apply rscl_complex_divides]; assumption.
Qed.

End RsclProperties.

(** *** The complex overload, every branch *)

Section RsclComplex.
Local Open Scope Q_scope.
Variables safeMax safeMin : Q.

Lemma norm_nonzero (alpha : Tlapack.complex) :
  ~ (Tlapack.real alpha == 0 /\ Tlapack.imag alpha == 0) ->
  ~ Tlapack.real alpha * Tlapack.real alpha + Tlapack.imag alpha * Tlapack.imag alpha == 0.
Proof.
  intros H E. apply H.
  assert (0 <= Tlapack.real alpha * Tlapack.real alpha) by nra.
  assert (0 <= Tlapack.imag alpha * Tlapack.imag alpha) by nra.
  split; nra.
Qed.

(** Scaling by the real [d], then by [c / alpha], divides by [alpha]
    when [d * c = 1]. *)
Lemma scale_twice_divides (c d : Q) (alpha z : Tlapack.complex) :
  d * c == 1 ->
  ~ (Tlapack.real alpha == 0 /\ Tlapack.imag alpha == 0) ->
  Tlapack.ceq (Tlapack.scale (Tlapack.div_real c alpha) (Tlapack.scale d z))
              (Tlapack.cdiv z alpha).
Proof.
  intros Hdc Ha. pose proof (norm_nonzero alpha Ha) as Hn.
  destruct alpha as [aR aI], z as [a b]. cbn in Hn.
  unfold Tlapack.ceq, Tlapack.scale, Tlapack.Scal_complex_complex, Tlapack.Scal_real_complex,
    Tlapack.div_real, Tlapack.Recip_complex, Tlapack.cmul, Tlapack.cdiv; cbn.
  split.
  - transitivity ((d * c) * ((a * aR + b * aI) / (aR * aR + aI * aI))); [field; exact Hn |].
    rewrite Hdc. field. exact Hn.
  - transitivity ((d * c) * ((b * aR - a * aI) / (aR * aR + aI * aI))); [field; exact Hn |].
    rewrite Hdc. field. exact Hn.
Qed.

Lemma scale_once_divides (alpha z : Tlapack.complex) :
  ~ (Tlapack.real alpha == 0 /\ Tlapack.imag alpha == 0) ->
  Tlapack.ceq (Tlapack.scale (Tlapack.div_real 1 alpha) z) (Tlapack.cdiv z alpha).
Proof.
  intros Ha. pose proof (norm_nonzero alpha Ha) as Hn.
  destruct alpha as [aR aI], z as [a b]. cbn in Hn.
  unfold Tlapack.ceq, Tlapack.scale, Tlapack.Scal_complex_complex,
    Tlapack.div_real, Tlapack.Recip_complex, Tlapack.cmul, Tlapack.cdiv; cbn.
  split; field; exact Hn.
Qed.

(** Scaling a complex element by two reals with [d * c / aR], for a real
    [alpha = aR]. *)
Lemma scale_real_divides (c d : Q) (alpha z : Tlapack.complex) :
  d * c == 1 -> Tlapack.imag alpha == 0 -> ~ Tlapack.real alpha == 0 ->
  Tlapack.ceq (Tlapack.scale (c / Tlapack.real alpha) (Tlapack.scale d z))
              (Tlapack.cdiv z alpha).
Proof.
  intros Hdc HI HR. destruct alpha as [aR aI], z as [a b]. cbn in *.
  unfold Tlapack.ceq, Tlapack.scale, Tlapack.Scal_real_complex, Tlapack.cdiv; cbn.
  rewrite HI. split.
  - transitivity ((d * c) * (a / aR)); [field; exact HR |].
    rewrite Hdc. field. exact HR.
  - transitivity ((d * c) * (b / aR)); [field; exact HR |].
    rewrite Hdc. field. exact HR.
Qed.

Lemma scale_real_once_divides (alpha z : Tlapack.complex) :
  Tlapack.imag alpha == 0 -> ~ Tlapack.real alpha == 0 ->
  Tlapack.ceq (Tlapack.scale (1 / Tlapack.real alpha) z) (Tlapack.cdiv z alpha).
Proof.
  intros HI HR. destruct alpha as [aR aI], z as [a b]. cbn in *.
  unfold Tlapack.ceq, Tlapack.scale, Tlapack.Scal_real_complex, Tlapack.cdiv; cbn.
  rewrite HI. split; field; exact HR.
Qed.

(** Whatever the branch, the complex overload divides every element of
    [x] by [alpha]: through the real overload when [alpha] is real,
    through the imaginary reciprocal when its real part is zero, and
    through [c / alpha] for [c] one of [safeMax], [safeMin], 1 otherwise. *)
Theorem rscl_complex_divides_by_alpha (alpha : Tlapack.complex) (x : list Tlapack.complex) :
  safeMin * safeMax == 1 ->
  ~ (Tlapack.real alpha == 0 /\ Tlapack.imag alpha == 0) ->
  Forall2 Tlapack.ceq
    (Tlapack.rscl_complex safeMax safeMin alpha x)
    (map (fun z => Tlapack.cdiv z alpha) x).
Proof.
  intros Hprod Ha.
  assert (Hprod' : safeMax * safeMin == 1) by (rewrite Qmult_comm; exact Hprod).
  destruct (Qeq_dec (Tlapack.imag alpha) 0) as [HI | HI].
  - (* alpha is real *)
    assert (HR : ~ Tlapack.real alpha == 0) by tauto.
    unfold Tlapack.rscl_complex. cbv zeta.
    replace (Qeq_bool (Qabs (Tlapack.imag alpha)) 0) with true
      by (symmetry; apply Qeq_bool_iff, Qabs_zero_iff; exact HI).
    unfold Tlapack.rscl, Tlapack.scal.
    destruct (Tlapack.Qgtb (Qabs (Tlapack.real alpha)) safeMax);
      [| destruct (Tlapack.Qltb (Qabs (Tlapack.real alpha)) safeMin)];
      rewrite ?map_map; apply Forall2_map_pointwise; intros z.
    + apply scale_real_divides; assumption.
    + apply scale_real_divides; assumption.
    + apply scale_real_once_divides; assumption.
  - destruct (Qeq_dec (Tlapack.real alpha) 0) as [HR | HR].
    + (* alpha is imaginary *)
      apply rscl_complex_divides; assumption.
    + unfold Tlapack.rscl_complex. cbv zeta.
      replace (Qeq_bool (Qabs (Tlapack.imag alpha)) 0) with false.
      2:{ symmetry. apply not_true_iff_false. intros E. apply HI.
          apply Qabs_zero_iff, Qeq_bool_iff. exact E. }
      replace (Qeq_bool (Qabs (Tlapack.real alpha)) 0) with false.
      2:{ symmetry. apply not_true_iff_false. intros E. apply HR.
          apply Qabs_zero_iff, Qeq_bool_iff. exact E. }
      unfold Tlapack.scal.
      repeat match goal with
             | |- context [if ?b then _ else _] => destruct b
             end;
        rewrite ?map_map; apply Forall2_map_pointwise; intros z;
        first [ apply scale_twice_divides; assumption
              | apply scale_once_divides; assumption ].
Qed.

End RsclComplex.

(** ** Sums and the BLAS-level primitives *)

Section SumProperties.
Context {R : Type} {SR : Scalar R} {L : ScalarLaws R}.
Local Open Scope scalar_scope.

Add Ring scalar_ring_inst : scalar_ring.

Lemma sum_ext (n : nat) (f g : nat -> R) :
  (forall l, (l < n)%nat -> f l = g l) -> sum n f = sum n g.
Proof.
  induction n as [| n IH]; intros H; cbn [sum]; [reflexivity |].
  rewrite IH by (intros l Hl; apply H; lia).
  rewrite (H n) by lia. reflexivity.
Qed.

Lemma sum_zero (n : nat) : sum n (fun _ => 0) = 0.
Proof. induction n as [| n IH]; cbn [sum]; [reflexivity | rewrite IH; ring]. Qed.

Lemma sum_add (n : nat) (f g : nat -> R) :
  sum n (fun l => f l + g l) = sum n f + sum n g.
Proof. induction n as [| n IH]; cbn [sum]; [ring | rewrite IH; ring]. Qed.

Lemma sum_scale_l (n : nat) (c : R) (f : nat -> R) :
  sum n (fun l => c * f l) = c * sum n f.
Proof. induction n as [| n IH]; cbn [sum]; [ring | rewrite IH; ring]. Qed.

Lemma sum_scale_r (n : nat) (c : R) (f : nat -> R) :
  sum n (fun l => f l * c) = sum n f * c.
Proof. induction n as [| n IH]; cbn [sum]; [ring | rewrite IH; ring]. Qed.

(** Exchange of two summations. *)
Lemma sum_swap (n m : nat) (f : nat -> nat -> R) :
  sum n (fun a => sum m (fun b => f a b)) = sum m (fun b => sum n (fun a => f a b)).
Proof.
  induction n as [| n IH]; cbn [sum].
  - symmetry. apply sum_zero.
  - rewrite IH, <- sum_add. reflexivity.
Qed.

(** A summation over [a + b] terms splits after the first [a]. *)
Lemma sum_split (a b : nat) (f : nat -> R) :
  sum (a + b) f = sum a f + sum b (fun l => f (a + l)%nat).
Proof.
  induction b as [| b IH].
  - rewrite Nat.add_0_r. cbn [sum]. ring.
  - rewrite Nat.add_succ_r. cbn [sum]. rewrite IH. ring.
Qed.

(** Summing against a row of the identity picks one term. *)
Lemma sum_delta (n i : nat) (f : nat -> R) :
  (i < n)%nat ->
  sum n (fun l => (if (i =? l)%nat then 1 else 0) * f l) = f i.
Proof.
  induction n as [| n IH]; intros Hi; [lia |].
  cbn [sum]. destruct (Nat.eqb_spec i n) as [-> | Hne].
  - rewrite (sum_ext _ (fun _ => 0)).
    + rewrite sum_zero. ring.
    + intros l Hl. destruct (Nat.eqb_spec n l); [lia | ring].
  - rewrite IH by lia. ring.
Qed.

(** Above the range of the index nothing is picked. *)
Lemma sum_delta_out (n i : nat) (f : nat -> R) :
  (n <= i)%nat ->
  sum n (fun l => (if (i =? l)%nat then 1 else 0) * f l) = 0.
Proof.
  intros Hi. rewrite (sum_ext _ (fun _ => 0)); [apply sum_zero |].
  intros l Hl. destruct (Nat.eqb_spec i l); [lia | ring].
Qed.

Lemma sum_sub (n : nat) (f g : nat -> R) :
  sum n (fun l => f l - g l) = sum n f - sum n g.
Proof. induction n as [| n IH]; cbn [sum]; [ring | rewrite IH; ring]. Qed.

Lemma sum_split_le (k m : nat) (f : nat -> R) :
  (k <= m)%nat -> sum m f = sum k f + sum (m - k) (fun l => f (k + l)%nat).
Proof.
  intros H. replace m with (k + (m - k))%nat at 1 by lia. apply sum_split.
Qed.

Lemma lacpy_dense_elt (A B : matrix R) (i j : nat) :
  (i < nrows A)%nat -> (j < ncols A)%nat -> elt (lacpy dense A B) i j = elt A i j.
Proof.
  intros Hi Hj. cbn [lacpy elt].
  rewrite (proj2 (Nat.ltb_lt _ _) Hi), (proj2 (Nat.ltb_lt _ _) Hj). reflexivity.
Qed.

Lemma trmm_left_elt uplo trans diag alpha (A B : matrix R) (i j : nat) :
  (i < nrows B)%nat -> (j < ncols B)%nat ->
  elt (trmm Side.Left uplo trans diag alpha A B) i j =
  alpha * sum (nrows B) (fun l => elt (op trans (tri uplo diag A)) i l * elt B l j).
Proof.
  intros Hi Hj. cbn [trmm elt].
  rewrite (proj2 (Nat.ltb_lt _ _) Hi), (proj2 (Nat.ltb_lt _ _) Hj). reflexivity.
Qed.

Lemma trmm_right_elt uplo trans diag alpha (A B : matrix R) (i j : nat) :
  (i < nrows B)%nat -> (j < ncols B)%nat ->
  elt (trmm Side.Right uplo trans diag alpha A B) i j =
  alpha * sum (ncols B) (fun l => elt B i l * elt (op trans (tri uplo diag A)) l j).
Proof.
  intros Hi Hj. cbn [trmm elt].
  rewrite (proj2 (Nat.ltb_lt _ _) Hi), (proj2 (Nat.ltb_lt _ _) Hj). reflexivity.
Qed.

Lemma gemm_elt transA transB alpha (A B : matrix R) beta (C : matrix R) (i j : nat) :
  (i < nrows C)%nat -> (j < ncols C)%nat ->
  elt (gemm transA transB alpha A B beta C) i j =
  alpha * sum (ncols (op transA A))
            (fun l => elt (op transA A) i l * elt (op transB B) l j) +
  beta * elt C i j.
Proof.
  intros Hi Hj. cbn [gemm elt].
  rewrite (proj2 (Nat.ltb_lt _ _) Hi), (proj2 (Nat.ltb_lt _ _) Hj). reflexivity.
Qed.

(** Reassociation of [(V T V^H) C] into [V (T (V^H C))], entry by entry. *)
Lemma triple_sum_assoc (m k : nat) (x : nat -> R) (t y : nat -> nat -> R) (c : nat -> R) :
  sum m (fun l => sum k (fun a => sum k (fun b => x a * t a b * y l b)) * c l) =
  sum k (fun a => x a * sum k (fun b => t a b * sum m (fun l => y l b * c l))).
Proof.
  transitivity (sum m (fun l => sum k (fun a => sum k (fun b => x a * (t a b * (y l b * c l)))))).
  { apply sum_ext; intros l _. rewrite <- sum_scale_r.
    apply sum_ext; intros a _. rewrite <- sum_scale_r.
    apply sum_ext; intros b _. ring. }
  rewrite sum_swap. apply sum_ext; intros a _.
  rewrite <- sum_scale_l.
  transitivity (sum m (fun l => sum k (fun b => x a * (t a b * (y l b * c l))))); [reflexivity |].
  rewrite sum_swap. apply sum_ext; intros b _.
  rewrite <- sum_scale_l, <- sum_scale_l.
  apply sum_ext; intros l _. ring.
Qed.

(** *** The loops [C1(i,j) += W(i,j)] *)

Lemma for_loop_invariant {S : Type} (P : S -> Prop) (n : nat) (body : nat -> S -> S) (s : S) :
  P s -> (forall i x, (i < n)%nat -> P x -> P (body i x)) -> P (for_loop n body s).
Proof.
  induction n as [| n IH]; intros H0 Hstep; cbn [for_loop]; [exact H0 |].
  apply Hstep; [lia |]. apply IH; [exact H0 |].
  intros i x Hi. apply Hstep. lia.
Qed.

Lemma add_column_elt (ni j : nat) (W C1 : matrix R) (i' j' : nat) :
  elt (for_loop ni (fun i C1 => upd C1 i j (elt C1 i j + elt W i j)) C1) i' j' =
  if (i' <? ni)%nat && (j' =? j)%nat then elt C1 i' j' + elt W i' j' else elt C1 i' j'.
Proof.
  revert i' j'. induction ni as [| ni IH]; intros i' j'; cbn [for_loop]; [reflexivity |].
  cbn [upd elt]. rewrite !IH.
  destruct (Nat.eqb_spec j' j) as [Hj | Hj].
  - subst j'. rewrite !andb_true_r.
    destruct (Nat.eqb_spec i' ni) as [Hi | Hi].
    + subst i'. rewrite Nat.ltb_irrefl, Nat.eqb_refl. cbn [andb].
      replace (ni <? S ni)%nat with true by (symmetry; apply Nat.ltb_lt; lia).
      reflexivity.
    + destruct (Nat.ltb_spec i' ni), (Nat.ltb_spec i' (S ni)); try lia; reflexivity.
  - rewrite !andb_false_r. reflexivity.
Qed.

Lemma add_W_elt (nj ni : nat) (C1 W : matrix R) (i j : nat) :
  elt (add_W nj ni C1 W) i j =
  if (i <? ni)%nat && (j <? nj)%nat then elt C1 i j + elt W i j else elt C1 i j.
Proof.
  unfold add_W. revert i j. induction nj as [| nj IH]; intros i j; cbn [for_loop].
  - rewrite andb_false_r. reflexivity.
  - rewrite add_column_elt, !IH.
    destruct (Nat.ltb_spec i ni); cbn [andb]; [| reflexivity].
    destruct (Nat.eqb_spec j nj) as [-> | Hne].
    + rewrite Nat.ltb_irrefl.
      replace (nj <? S nj)%nat with true by (symmetry; apply Nat.ltb_lt; lia).
      reflexivity.
    + destruct (Nat.ltb_spec j nj), (Nat.ltb_spec j (S nj)); try lia; reflexivity.
Qed.

Lemma add_W_extents (nj ni : nat) (C1 W : matrix R) :
  nrows (add_W nj ni C1 W) = nrows C1 /\ ncols (add_W nj ni C1 W) = ncols C1.
Proof.
  unfold add_W.
  apply (for_loop_invariant (fun X => nrows X = nrows C1 /\ ncols X = ncols C1));
    [split; reflexivity |].
  intros j X _ HX.
  apply (for_loop_invariant (fun Y => nrows Y = nrows C1 /\ ncols Y = ncols C1));
    [exact HX |].
  intros i Y _ HY. exact HY.
Qed.

(** *** Views that receive what they held, and empty products *)

Lemma gemm_empty_one transA transB alpha (A B C : matrix R) (i j : nat) :
  ncols (op transA A) = 0%nat ->
  elt (gemm transA transB alpha A B 1 C) i j = elt C i j.
Proof.
  intros H. cbn [gemm elt]. rewrite H. cbn [sum].
  destruct ((i <? nrows C)%nat && (j <? ncols C)%nat); [ring | reflexivity].
Qed.

Lemma assign_rows_same (C B : matrix R) (r : nat * nat) (i j : nat) :
  (forall i' j', elt B i' j' = elt (rows C r) i' j') ->
  elt (assign_rows C r B) i j = elt C i j.
Proof.
  intros H. cbn [assign_rows elt].
  destruct (Nat.leb_spec (fst r) i) as [Hle | Hgt]; cbn [andb]; [| reflexivity].
  destruct (i <? snd r)%nat; [| reflexivity].
  rewrite H. cbn [rows elt]. f_equal. lia.
Qed.

Lemma assign_cols_same (C B : matrix R) (r : nat * nat) (i j : nat) :
  (forall i' j', elt B i' j' = elt (cols C r) i' j') ->
  elt (assign_cols C r B) i j = elt C i j.
Proof.
  intros H. cbn [assign_cols elt].
  destruct (Nat.leb_spec (fst r) j) as [Hle | Hgt]; cbn [andb]; [| reflexivity].
  destruct (j <? snd r)%nat; [| reflexivity].
  rewrite H. cbn [cols elt]. f_equal. lia.
Qed.

Lemma assign_rows_empty (C B : matrix R) (r : nat * nat) (i j : nat) :
  (snd r <= fst r)%nat -> elt (assign_rows C r B) i j = elt C i j.
Proof.
  intros H. cbn [assign_rows elt].
  destruct (Nat.leb_spec (fst r) i), (Nat.ltb_spec i (snd r)); cbn [andb];
    try reflexivity; lia.
Qed.

Lemma assign_cols_empty (C B : matrix R) (r : nat * nat) (i j : nat) :
  (snd r <= fst r)%nat -> elt (assign_cols C r B) i j = elt C i j.
Proof.
  intros H. cbn [assign_cols elt].
  destruct (Nat.leb_spec (fst r) j), (Nat.ltb_spec j (snd r)); cbn [andb];
    try reflexivity; lia.
Qed.

End SumProperties.

(** ** larfb *)

Section LarfbProperties.
Context {R : Type} {SR : Scalar R} {L : ScalarLaws R} {AR : Access R}.
Local Open Scope scalar_scope.

Add Ring scalar_ring_larfb : scalar_ring.

Lemma apply_reflectors_extents k V tau (C : matrix R) :
  nrows (Lapack.apply_reflectors k V tau C) = nrows C /\
  ncols (Lapack.apply_reflectors k V tau C) = ncols C.
Proof.
  revert C. induction k as [| k IH]; intros C; cbn [Lapack.apply_reflectors]; [split; reflexivity |].
  destruct (IH (Lapack.larf_left (fun i => elt (Lapack.unit_lower V) i k) (tau k) C)) as [-> ->].
  split; reflexivity.
Qed.

(** The sequential application, in the factored form [C - V (T (V^H C))]
    restricted to the first [j] reflectors. *)
Lemma apply_reflectors_factored (V T : matrix R) (tau : nat -> R) :
  Lapack.triangular_factor V tau T ->
  forall j, (j <= nrows T)%nat ->
  forall (C : matrix R) (i c : nat), nrows C = nrows V ->
    elt (Lapack.apply_reflectors j V tau C) i c =
    elt C i c -
    sum j (fun a => elt (Lapack.unit_lower V) i a *
      sum j (fun b => elt (Lapack.upper T) a b *
        sum (nrows V) (fun l => s_conj (elt (Lapack.unit_lower V) l b) * elt C l c))).
Proof.
  intros HT. set (Vu := Lapack.unit_lower V). set (Tu := Lapack.upper T). set (m := nrows V).
  induction j as [| j IH]; intros Hj C i c HC.
  - cbn [Lapack.apply_reflectors sum]. ring.
  - cbn [Lapack.apply_reflectors]. fold Vu.
    set (C1 := Lapack.larf_left (fun i0 => elt Vu i0 j) (tau j) C).
    rewrite (IH ltac:(lia) C1 i c) by exact HC.
    set (z := sum m (fun l => s_conj (elt Vu l j) * elt C l c)).
    set (Y := fun b => sum m (fun l => s_conj (elt Vu l b) * elt C l c)).
    set (g := fun b => sum m (fun l => s_conj (elt Vu l b) * elt Vu l j)).
    assert (E1 : forall l, elt C1 l c = elt C l c - tau j * elt Vu l j * z).
    { intros l. unfold C1, z. cbn [Lapack.larf_left elt]. rewrite HC. reflexivity. }
    assert (E2 : forall b, sum m (fun l => s_conj (elt Vu l b) * elt C1 l c) =
                           Y b - tau j * z * g b).
    { intros b. unfold Y, g.
      rewrite (sum_ext _ (fun l => s_conj (elt Vu l b) * elt C l c -
                                   tau j * z * (s_conj (elt Vu l b) * elt Vu l j)))
        by (intros l _; rewrite E1; ring).
      rewrite sum_sub, sum_scale_l. reflexivity. }
    destruct (HT j ltac:(lia)) as [Hjj Hij].
    assert (Tjj : elt Tu j j = tau j).
    { unfold Tu. cbn -[Nat.ltb Nat.eqb]. rewrite Nat.eqb_refl. exact Hjj. }
    assert (Tjb : forall b, (b < j)%nat -> elt Tu j b = 0).
    { intros b Hb. unfold Tu. cbn -[Nat.ltb Nat.eqb].
      destruct (Nat.eqb_spec j b); [lia |].
      destruct (Nat.ltb_spec j b); [lia | reflexivity]. }
    assert (Taj : forall a, (a < j)%nat ->
              elt Tu a j = s_opp (tau j) * sum j (fun b => elt Tu a b * g b)).
    { intros a Ha. unfold Tu at 1. cbn -[Nat.ltb Nat.eqb].
      destruct (Nat.eqb_spec a j); [lia |].
      destruct (Nat.ltb_spec a j); [| lia].
      rewrite (Hij a Ha). reflexivity. }
    (* the target, expanded on its last row and column *)
    cbn [sum]. fold z.
    set (A1 := sum j (fun a => elt Vu i a * sum j (fun b => elt Tu a b * Y b))).
    set (A2 := sum j (fun a => elt Vu i a * sum j (fun b => elt Tu a b * g b))).
    assert (L1 : sum j (fun a => elt Vu i a *
                   sum j (fun b => elt Tu a b *
                     sum m (fun l => s_conj (elt Vu l b) * elt C1 l c))) =
                 A1 - tau j * z * A2).
    { unfold A1, A2. rewrite <- sum_scale_l, <- sum_sub.
      apply sum_ext; intros a _.
      rewrite (sum_ext _ (fun b => elt Tu a b * Y b - tau j * z * (elt Tu a b * g b)))
        by (intros b _; rewrite E2; ring).
      rewrite sum_sub, sum_scale_l. ring. }
    assert (R1 : sum j (fun a => elt Vu i a *
                   (sum j (fun b => elt Tu a b *
                      sum m (fun l => s_conj (elt Vu l b) * elt C l c)) +
                    elt Tu a j * z)) =
                 A1 - tau j * z * A2).
    { unfold A1, A2. rewrite <- sum_scale_l, <- sum_sub.
      apply sum_ext; intros a Ha. rewrite (Taj a Ha). unfold Y. ring. }
    assert (R2 : sum j (fun b => elt Tu j b *
                   sum m (fun l => s_conj (elt Vu l b) * elt C l c)) = 0).
    { rewrite (sum_ext _ (fun _ => 0)) by (intros b Hb; rewrite (Tjb b Hb); ring).
      apply sum_zero. }
    rewrite L1, R1, R2, Tjj, E1. ring.
Qed.

(** [H C] in the order the routine computes it: [C - V (T (V^H C))]. *)
Lemma block_reflector_factored (V T C : matrix R) (i c : nat) :
  (i < nrows V)%nat ->
  elt (Lapack.mmul (Lapack.block_reflector V T) C) i c =
  elt C i c -
  sum (nrows T) (fun a => elt (Lapack.unit_lower V) i a *
    sum (nrows T) (fun b => elt (Lapack.upper T) a b *
      sum (nrows V) (fun l => s_conj (elt (Lapack.unit_lower V) l b) * elt C l c))).
Proof.
  intros Hi.
  cbn [Lapack.mmul Lapack.block_reflector elt ncols].
  set (Vu := Lapack.unit_lower V). set (Tu := Lapack.upper T).
  rewrite (sum_ext _ (fun l => (if (i =? l)%nat then 1 else 0) * elt C l c -
                               sum (nrows T) (fun a => sum (nrows T) (fun b =>
                                 elt Vu i a * elt Tu a b * s_conj (elt Vu l b))) * elt C l c))
    by (intros l _; ring).
  rewrite sum_sub, sum_delta by assumption.
  rewrite (triple_sum_assoc (nrows V) (nrows T) (fun a => elt Vu i a) (fun a b => elt Tu a b)
             (fun l b => s_conj (elt Vu l b)) (fun l => elt C l c)).
  reflexivity.
Qed.

(** A block reflector whose [T] is the triangular factor of [(V, tau)] is
    the product of the elementary reflectors, applied last to first. *)
Lemma block_reflector_is_product (V T C : matrix R) (tau : nat -> R) (i c : nat) :
  Lapack.triangular_factor V tau T -> nrows C = nrows V -> (i < nrows V)%nat ->
  elt (Lapack.mmul (Lapack.block_reflector V T) C) i c =
  elt (Lapack.apply_reflectors (nrows T) V tau C) i c.
Proof.
  intros HT HC Hi.
  rewrite block_reflector_factored by exact Hi.
  rewrite (apply_reflectors_factored HT (Nat.le_refl _) C i c HC).
  reflexivity.
Qed.

(** The six steps of the branch side = Left, direction = Forward,
    storeMode = Columnwise compute [H C], entry by entry. *)
Lemma larfb_col_fwd_left_spec (V T C W : matrix R) (i j : nat) :
  (nrows T <= nrows C)%nat ->
  ncols V = nrows T -> nrows W = nrows T -> ncols W = ncols C ->
  nrows V = nrows C ->
  (i < nrows C)%nat -> (j < ncols C)%nat ->
  elt (fst (Lapack.larfb_col_fwd_left Side.Left Op.NoTrans V T C W)) i j =
  elt (Lapack.mmul (Lapack.block_reflector V T) C) i j.
Proof.
  intros Hkm HV HWr HWc HVr Hi Hj.
  unfold Lapack.larfb_col_fwd_left.
  set (m := nrows C) in *. set (n := ncols C) in *. set (k := nrows T) in *.
  cbv zeta.
  set (W0 := lacpy dense (rows C (0%nat, k)) W).
  set (W1 := trmm Side.Left Uplo.Lower Op.ConjTrans Diag.Unit 1 (rows V (0%nat, k)) W0).
  set (W2 := if (k <? m)%nat then _ else W1).
  set (W3 := trmm Side.Left Uplo.Upper Op.NoTrans Diag.NonUnit 1 T W2).
  set (C' := if (k <? m)%nat then _ else C).
  set (W4 := trmm Side.Left Uplo.Lower Op.NoTrans Diag.Unit (s_opp 1) (rows V (0%nat, k)) W3).
  set (Vu := Lapack.unit_lower V). set (Tu := Lapack.upper T).
  set (Y := fun b j => sum m (fun l => s_conj (elt Vu l b) * elt C l j)).
  assert (E0 : forall l j, (l < k)%nat -> (j < n)%nat -> elt W0 l j = elt C l j).
  { intros l j' Hl Hj'. unfold W0. rewrite lacpy_dense_elt; cbn; try lia. reflexivity. }
  assert (E1 : forall b j, (b < k)%nat -> (j < n)%nat ->
                 elt W1 b j = sum k (fun l => s_conj (elt Vu l b) * elt C l j)).
  { intros b j' Hb Hj'. unfold W1.
    rewrite trmm_left_elt by (cbn; lia).
    replace (nrows W0) with k by (symmetry; exact HWr).
    rewrite <- sum_scale_l. apply sum_ext; intros l Hl.
    rewrite E0 by assumption. cbn. ring. }
  assert (E2 : forall b j, (b < k)%nat -> (j < n)%nat -> elt W2 b j = Y b j).
  { intros b j' Hb Hj'. unfold W2, Y.
    destruct (Nat.ltb_spec k m) as [Hlt | Hge].
    - rewrite gemm_elt by (cbn; lia).
      rewrite E1 by assumption.
      rewrite (sum_split_le _ Hkm).
      replace (ncols (op Op.ConjTrans (rows V (k, m)))) with (m - k)%nat by reflexivity.
      rewrite (sum_ext (fun l => elt (op Op.ConjTrans (rows V (k, m))) b l *
                                 elt (op Op.NoTrans (rows C (k, m))) l j')
                       (fun l => s_conj (elt Vu (k + l) b) * elt C (k + l) j')).
      + ring.
      + intros l Hl. cbn -[Nat.ltb Nat.leb Nat.eqb].
        destruct (Nat.eqb_spec (k + l) b); [lia |].
        destruct (Nat.ltb_spec b (k + l)); [reflexivity | lia].
    - rewrite E1 by assumption. replace m with k by lia. reflexivity. }
  assert (E3 : forall a j, (a < k)%nat -> (j < n)%nat ->
                 elt W3 a j = sum k (fun b => elt Tu a b * Y b j)).
  { intros a j' Ha Hj'. unfold W3.
    assert (X2 : nrows W2 = k /\ ncols W2 = n).
    { unfold W2. destruct (k <? m)%nat; cbn; auto. }
    rewrite trmm_left_elt by (rewrite ?(proj1 X2), ?(proj2 X2); assumption).
    destruct X2 as [-> _].
    rewrite <- sum_scale_l. apply sum_ext; intros b Hb.
    rewrite E2 by assumption. cbn. ring. }
  assert (E4 : forall a j, (a < k)%nat -> (j < n)%nat ->
                 elt W4 a j = s_opp (sum k (fun b => elt Vu a b * elt W3 b j))).
  { intros a j' Ha Hj'. unfold W4.
    assert (X3 : nrows W3 = k /\ ncols W3 = n).
    { unfold W3, W2. destruct (k <? m)%nat; cbn; auto. }
    rewrite trmm_left_elt by (rewrite ?(proj1 X3), ?(proj2 X3); assumption).
    destruct X3 as [-> _].
    transitivity (s_opp 1 * sum k (fun b => elt Vu a b * elt W3 b j')); [| ring].
    f_equal. }
  assert (EC : forall a j, (a < m)%nat -> (j < n)%nat ->
                 elt C' a j =
                 if (k <=? a)%nat
                 then elt C a j - sum k (fun b => elt Vu a b * elt W3 b j)
                 else elt C a j).
  { intros a j' Ha Hj'. unfold C'.
    destruct (Nat.ltb_spec k m) as [Hlt | Hge].
    - cbn [assign_rows elt fst snd].
      destruct (Nat.leb_spec k a) as [Hka | Hka].
      + replace (a <? m)%nat with true by (symmetry; apply Nat.ltb_lt; assumption).
        cbn [andb].
        rewrite gemm_elt by (cbn; lia).
        replace (ncols (op Op.NoTrans (rows V (k, m)))) with k by (symmetry; exact HV).
        rewrite (sum_ext (fun l => elt (op Op.NoTrans (rows V (k, m))) (a - k) l *
                                   elt (op Op.NoTrans W3) l j')
                         (fun b => elt Vu a b * elt W3 b j')).
        * cbn -[Nat.ltb Nat.leb Nat.eqb]. replace (k + (a - k))%nat with a by lia. ring.
        * intros b Hb. cbn -[Nat.ltb Nat.leb Nat.eqb].
          replace (k + (a - k))%nat with a by lia.
          destruct (Nat.eqb_spec a b); [lia |].
          destruct (Nat.ltb_spec b a); [reflexivity | lia].
      + reflexivity.
    - destruct (Nat.leb_spec k a); [lia | reflexivity]. }
  assert (EL : elt (fst (assign_rows C' (0%nat, k)
                           (add_W n k (rows C' (0%nat, k)) W4), W4)) i j =
               elt C i j - sum k (fun a => elt Vu i a * elt W3 a j)).
  { cbn [fst snd assign_rows elt]. rewrite Nat.sub_0_r.
    destruct (Nat.ltb_spec i k) as [Hik | Hik]; cbn [Nat.leb andb].
    - rewrite add_W_elt.
      rewrite (proj2 (Nat.ltb_lt _ _) Hik), (proj2 (Nat.ltb_lt _ _) Hj). cbn [andb].
      cbn [rows elt fst Nat.add]. rewrite EC, E4 by assumption.
      destruct (Nat.leb_spec k i); [lia | ring].
    - rewrite EC by assumption.
      destruct (Nat.leb_spec k i); [reflexivity | lia]. }
  rewrite EL. symmetry.
  cbn [Lapack.mmul Lapack.block_reflector elt ncols].
  rewrite HVr. fold m. fold k. fold Vu. fold Tu.
  rewrite (sum_ext _ (fun l => (if (i =? l)%nat then 1 else 0) * elt C l j -
                               sum k (fun a => sum k (fun b =>
                                 elt Vu i a * elt Tu a b * s_conj (elt Vu l b))) * elt C l j))
    by (intros l _; ring).
  rewrite sum_sub, sum_delta by assumption.
  rewrite (triple_sum_assoc m k (fun a => elt Vu i a) (fun a b => elt Tu a b)
             (fun l b => s_conj (elt Vu l b)) (fun l => elt C l j)).
  f_equal. apply sum_ext; intros a Ha.
  rewrite E3 by assumption. reflexivity.
Qed.

(** The extents of [C] are those of the caller's matrix on every path. *)
Lemma larfb_extents side trans direction storeMode (V T C W : matrix R) :
  nrows (Lapack.C_out (Lapack.larfb side trans direction storeMode V T C W)) = nrows C /\
  ncols (Lapack.C_out (Lapack.larfb side trans direction storeMode V T C W)) = ncols C.
Proof.
  unfold Lapack.larfb.
  destruct (Lapack.larfb_check side trans direction storeMode V T C W);
    [split; reflexivity |].
  destruct ((nrows C <=? 0)%nat || (ncols C <=? 0)%nat); [split; reflexivity |].
  destruct (storeMode =? StoreV.Columnwise)%Z, (direction =? Direction.Forward)%Z,
    (side =? Side.Left)%Z; cbn [Lapack.C_out];
    unfold Lapack.larfb_col_fwd_left, Lapack.larfb_col_fwd_right,
      Lapack.larfb_col_bwd_left, Lapack.larfb_col_bwd_right,
      Lapack.larfb_row_fwd_left, Lapack.larfb_row_fwd_right,
      Lapack.larfb_row_bwd_left, Lapack.larfb_row_bwd_right;
    cbv zeta; cbn [Lapack.C_out assign_rows assign_cols nrows ncols];
    match goal with
    | |- context [if ?b then _ else C] => destruct b
    end; split; reflexivity.
Qed.

(** A call whose arguments pass the checks returns 0. *)
Lemma larfb_info_ok side trans direction storeMode (V T C W : matrix R) :
  Lapack.larfb_check side trans direction storeMode V T C W = None ->
  Lapack.info (Lapack.larfb side trans direction storeMode V T C W) = 0%Z.
Proof.
  intros Hcheck. unfold Lapack.larfb. rewrite Hcheck.
  destruct ((nrows C <=? 0)%nat || (ncols C <=? 0)%nat); [reflexivity |].
  match goal with
  | |- context [let '(_, _) := ?p in _] => destruct p
  end.
  reflexivity.
Qed.

(** C1.  For side = Left, trans = NoTrans, direction = Forward and
    storeMode = Columnwise, on arguments that pass the checks and have the
    documented extents ([V] m-by-k, [T] k-by-k, [C] m-by-n, [W] k-by-n,
    [k <= m]), the call returns 0 and its six steps leave in [C] the
    product [H C] with [H = I - V T V^H], [V] read as unit lower
    trapezoidal and [T] as upper triangular; when [T] is the triangular
    factor of the reflectors [(V, tau)], that is the result of applying
    the k elementary reflectors one after the other, [H(k)] first. *)
Theorem larfb_left_forward_columnwise_applies_H (V T C W : matrix R) :
  Lapack.larfb_check Side.Left Op.NoTrans Direction.Forward StoreV.Columnwise V T C W = None ->
  Lapack.larfb_shapes Side.Left StoreV.Columnwise V T C W ->
  Lapack.info (Lapack.larfb Side.Left Op.NoTrans Direction.Forward StoreV.Columnwise V T C W)
    = 0%Z /\
  nrows (Lapack.C_out
           (Lapack.larfb Side.Left Op.NoTrans Direction.Forward StoreV.Columnwise V T C W))
    = nrows C /\
  ncols (Lapack.C_out
           (Lapack.larfb Side.Left Op.NoTrans Direction.Forward StoreV.Columnwise V T C W))
    = ncols C /\
  (forall i j, (i < nrows C)%nat -> (j < ncols C)%nat ->
     elt (Lapack.C_out
            (Lapack.larfb Side.Left Op.NoTrans Direction.Forward StoreV.Columnwise V T C W))
         i j =
     elt (Lapack.mmul (Lapack.block_reflector V T) C) i j) /\
  (forall tau, Lapack.triangular_factor V tau T ->
   forall i j, (i < nrows C)%nat -> (j < ncols C)%nat ->
     elt (Lapack.C_out
            (Lapack.larfb Side.Left Op.NoTrans Direction.Forward StoreV.Columnwise V T C W))
         i j =
     elt (Lapack.apply_reflectors (nrows T) V tau C) i j).
Proof.
  intros Hcheck Hshapes.
  destruct (larfb_extents Side.Left Op.NoTrans Direction.Forward StoreV.Columnwise V T C W)
    as [Er Ec].
  pose proof Hshapes as Hs.
  unfold Lapack.larfb_shapes in Hs.
  change (Side.Left =? Side.Left)%Z with true in Hs.
  change (StoreV.Columnwise =? StoreV.Columnwise)%Z with true in Hs.
  cbv zeta iota in Hs.
  destruct Hs as (HT & (Hkm & HWr & HWc) & (HVr & HVc)).
  assert (HH : forall i j, (i < nrows C)%nat -> (j < ncols C)%nat ->
     elt (Lapack.C_out
            (Lapack.larfb Side.Left Op.NoTrans Direction.Forward StoreV.Columnwise V T C W))
         i j =
     elt (Lapack.mmul (Lapack.block_reflector V T) C) i j).
  { intros i j Hi Hj.
    unfold Lapack.larfb. rewrite Hcheck.
    destruct (Nat.leb_spec (nrows C) 0); [lia |].
    destruct (Nat.leb_spec (ncols C) 0); [lia |].
    cbn [orb].
    change (StoreV.Columnwise =? StoreV.Columnwise)%Z with true.
    change (Direction.Forward =? Direction.Forward)%Z with true.
    change (Side.Left =? Side.Left)%Z with true.
    cbv iota.
    rewrite <- (larfb_col_fwd_left_spec V T C W Hkm HVc HWr HWc HVr Hi Hj).
    destruct (Lapack.larfb_col_fwd_left Side.Left Op.NoTrans V T C W); reflexivity. }
  split; [apply larfb_info_ok; exact Hcheck |].
  split; [exact Er |]. split; [exact Ec |]. split; [exact HH |].
  intros tau Htau i j Hi Hj.
  rewrite (HH i j Hi Hj).
  apply block_reflector_is_product; [exact Htau | symmetry; exact HVr | lia].
Qed.

(** [op(A)] for the members of [Op]. *)
Lemma op_NoTrans (A : matrix R) : op Op.NoTrans A = A.
Proof. reflexivity. Qed.

(** A matrix [W] keeps its extents through the steps on it. *)
Lemma ncols_trmm side uplo trans diag alpha (A B : matrix R) :
  ncols (trmm side uplo trans diag alpha A B) = ncols B.
Proof. reflexivity. Qed.

Lemma ncols_gemm transA transB alpha (A B : matrix R) beta (C : matrix R) :
  ncols (gemm transA transB alpha A B beta C) = ncols C.
Proof. reflexivity. Qed.

Lemma ncols_lacpy part (A B : matrix R) : ncols (lacpy part A B) = ncols B.
Proof. reflexivity. Qed.

Lemma add_W_none_rows (nj : nat) (C1 W : matrix R) (i j : nat) :
  elt (add_W nj 0 C1 W) i j = elt C1 i j.
Proof. rewrite add_W_elt. reflexivity. Qed.

Lemma add_W_none_cols (ni : nat) (C1 W : matrix R) (i j : nat) :
  elt (add_W 0 ni C1 W) i j = elt C1 i j.
Proof. reflexivity. Qed.

(** With no reflector the update of the remainder of [C] multiplies over
    an empty range, and the leading or trailing block is empty. *)
Ltac no_reflector :=
  match goal with
  | |- context [let '(_, _) := ?p in _] =>
      let E := fresh "E" in
      let C' := fresh "C'" in
      let W' := fresh "W'" in
      destruct p as [C' W'] eqn:E;
      cbn [Lapack.C_out]; change C' with (fst (C', W')); rewrite <- E
  end;
  unfold Lapack.larfb_col_fwd_left, Lapack.larfb_col_fwd_right,
    Lapack.larfb_col_bwd_left, Lapack.larfb_col_bwd_right,
    Lapack.larfb_row_fwd_left, Lapack.larfb_row_fwd_right,
    Lapack.larfb_row_bwd_left, Lapack.larfb_row_bwd_right;
  cbv zeta;
  match goal with
  | Hk : nrows _ = 0%nat |- _ => rewrite Hk
  end;
  cbn [fst];
  first [ rewrite assign_rows_empty by (cbn [fst snd]; lia)
        | rewrite assign_cols_empty by (cbn [fst snd]; lia) ];
  match goal with
  | |- context [if ?b then _ else _] => destruct b; [| reflexivity]
  end;
  first [apply assign_rows_same | apply assign_cols_same]; intros ? ?;
  apply gemm_empty_one; cbn; assumption.

Lemma larfb_no_reflector side trans direction storeMode (V T C W : matrix R) (i j : nat) :
  Lapack.larfb_shapes side storeMode V T C W -> nrows T = 0%nat ->
  elt (Lapack.C_out (Lapack.larfb side trans direction storeMode V T C W)) i j = elt C i j.
Proof.
  intros Hshapes Hk.
  unfold Lapack.larfb.
  destruct (Lapack.larfb_check side trans direction storeMode V T C W);
    [reflexivity |].
  destruct ((nrows C <=? 0)%nat || (ncols C <=? 0)%nat); [reflexivity |].
  unfold Lapack.larfb_shapes in Hshapes. cbv zeta in Hshapes. rewrite Hk in Hshapes.
  destruct Hshapes as (HT & HW & HV).
  destruct (storeMode =? StoreV.Columnwise)%Z, (direction =? Direction.Forward)%Z,
    (side =? Side.Left)%Z.
  - destruct HW as (_ & HWr & HWc), HV as (HVr & HVc).
    no_reflector.
  - destruct HW as (_ & HWr & HWc), HV as (HVr & HVc).
    no_reflector.
  - destruct HW as (_ & HWr & HWc), HV as (HVr & HVc).
    no_reflector.
  - destruct HW as (_ & HWr & HWc), HV as (HVr & HVc).
    no_reflector.
  - destruct HW as (_ & HWr & HWc), HV as (HVr & HVc).
    no_reflector.
  - destruct HW as (_ & HWr & HWc), HV as (HVr & HVc).
    no_reflector.
  - destruct HW as (_ & HWr & HWc), HV as (HVr & HVc).
    no_reflector.
  - destruct HW as (_ & HWr & HWc), HV as (HVr & HVc).
    no_reflector.
Qed.

(** C7.  On arguments that pass the checks: with no row or no column in
    [C] the call returns 0 and leaves [C] and [W] as they were; with
    [k = 0] and the documented extents it returns 0 and every entry of
    [C] keeps its value. *)
Theorem larfb_degenerate_is_noop side trans direction storeMode (V T C W : matrix R) :
  Lapack.larfb_check side trans direction storeMode V T C W = None ->
  (nrows C = 0%nat \/ ncols C = 0%nat ->
   Lapack.larfb side trans direction storeMode V T C W = Lapack.mk_outcome 0%Z C W) /\
  (Lapack.larfb_shapes side storeMode V T C W -> nrows T = 0%nat ->
   Lapack.info (Lapack.larfb side trans direction storeMode V T C W) = 0%Z /\
   nrows (Lapack.C_out (Lapack.larfb side trans direction storeMode V T C W)) = nrows C /\
   ncols (Lapack.C_out (Lapack.larfb side trans direction storeMode V T C W)) = ncols C /\
   forall i j,
     elt (Lapack.C_out (Lapack.larfb side trans direction storeMode V T C W)) i j =
     elt C i j).
Proof.
  intros Hcheck. split.
  - intros Hmn. unfold Lapack.larfb. rewrite Hcheck.
    replace ((nrows C <=? 0)%nat || (ncols C <=? 0)%nat) with true; [reflexivity |].
    symmetry. apply orb_true_iff.
    destruct Hmn as [-> | ->]; [left | right]; reflexivity.
  - intros Hshapes Hk.
    split; [apply larfb_info_ok; exact Hcheck |].
    destruct (larfb_extents side trans direction storeMode V T C W) as [Er Ec].
    split; [exact Er | split; [exact Ec |]].
    intros i j. apply larfb_no_reflector; assumption.
Qed.

(** C6, as the code has it.  On a complex type every call with
    [trans = Op::Trans] fails and leaves [C] and [W] as they were.  The
    error names [trans] (info = -2) when [side] is a member of its
    enumeration, and [side] (info = -1) when it is not: [side] is checked
    first.  On a real type [Op::Trans] passes the checks exactly as
    [Op::ConjTrans] does, and the call never ends with info = -2. *)
Theorem larfb_Trans_only_for_real side direction storeMode (V T C W : matrix R) :
  (is_complex = true ->
   (side = Side.Left \/ side = Side.Right ->
    Lapack.larfb side Op.Trans direction storeMode V T C W =
    Lapack.mk_outcome (-2)%Z C W) /\
   (side <> Side.Left -> side <> Side.Right ->
    Lapack.larfb side Op.Trans direction storeMode V T C W =
    Lapack.mk_outcome (-1)%Z C W) /\
   Lapack.C_out (Lapack.larfb side Op.Trans direction storeMode V T C W) = C /\
   Lapack.W_out (Lapack.larfb side Op.Trans direction storeMode V T C W) = W /\
   Lapack.info (Lapack.larfb side Op.Trans direction storeMode V T C W) <> 0%Z) /\
  (is_complex = false ->
   Lapack.larfb_check side Op.Trans direction storeMode V T C W =
   Lapack.larfb_check side Op.ConjTrans direction storeMode V T C W /\
   Lapack.info (Lapack.larfb side Op.Trans direction storeMode V T C W) <> (-2)%Z).
Proof.
  split.
  - intros Hc.
    assert (Hvalid : side = Side.Left \/ side = Side.Right ->
              Lapack.larfb side Op.Trans direction storeMode V T C W =
              Lapack.mk_outcome (-2)%Z C W).
    { intros Hside. unfold Lapack.larfb, Lapack.larfb_check.
      replace (negb (side =? Side.Left)%Z && negb (side =? Side.Right)%Z) with false
        by (destruct Hside as [-> | ->]; reflexivity).
      rewrite Hc. reflexivity. }
    assert (Hinvalid : side <> Side.Left -> side <> Side.Right ->
              Lapack.larfb side Op.Trans direction storeMode V T C W =
              Lapack.mk_outcome (-1)%Z C W).
    { intros HL HR. unfold Lapack.larfb, Lapack.larfb_check.
      apply Z.eqb_neq in HL, HR. rewrite HL, HR. reflexivity. }
    split; [exact Hvalid |]. split; [exact Hinvalid |].
    destruct (Z.eq_dec side Side.Left) as [EL | NL].
    + rewrite (Hvalid (or_introl EL)). cbn. repeat split; discriminate.
    + destruct (Z.eq_dec side Side.Right) as [ER | NR].
      * rewrite (Hvalid (or_intror ER)). cbn. repeat split; discriminate.
      * rewrite (Hinvalid NL NR). cbn. repeat split; discriminate.
  - intros Hr.
    assert (Heq : Lapack.larfb_check side Op.Trans direction storeMode V T C W =
                  Lapack.larfb_check side Op.ConjTrans direction storeMode V T C W).
    { unfold Lapack.larfb_check. rewrite Hr. reflexivity. }
    split; [exact Heq |].
    unfold Lapack.larfb.
    destruct (Lapack.larfb_check side Op.Trans direction storeMode V T C W) as [code |] eqn:E.
    + cbn [Lapack.info]. unfold Lapack.larfb_check in E. rewrite Hr in E.
      change (negb (Op.Trans =? Op.NoTrans)%Z && negb (Op.Trans =? Op.ConjTrans)%Z &&
              (negb (Op.Trans =? Op.Trans)%Z || false)) with false in E.
      repeat match type of E with
             | (if ?b then _ else _) = _ => destruct b
             end; inversion E; discriminate.
    + destruct ((nrows C <=? 0)%nat || (ncols C <=? 0)%nat); [discriminate |].
      match goal with
      | |- context [let '(_, _) := ?p in _] => destruct p
      end.
      discriminate.
Qed.

End LarfbProperties.

(** ** larfb: every branch *)

Section LarfbBranches.
Context {R : Type} {SR : Scalar R} {L : ScalarLaws R} {AR : Access R}.
Local Open Scope scalar_scope.

Add Ring scalar_ring_branches : scalar_ring.

(** Each branch is an instance of the common shape. *)
Lemma larfb_col_fwd_left_steps side trans (V T C W : matrix R) :
  Lapack.larfb_col_fwd_left side trans V T C W =
  Lapack.left_steps side trans Uplo.Lower Uplo.Upper Op.ConjTrans Op.NoTrans
    (0%nat, nrows T) (nrows T, nrows C)
    (rows V (0%nat, nrows T)) (rows V (nrows T, nrows C)) T C W.
Proof. reflexivity. Qed.

Lemma larfb_col_bwd_left_steps side trans (V T C W : matrix R) :
  Lapack.larfb_col_bwd_left side trans V T C W =
  Lapack.left_steps side trans Uplo.Upper Uplo.Lower Op.ConjTrans Op.NoTrans
    ((nrows C - nrows T)%nat, nrows C) (0%nat, (nrows C - nrows T)%nat)
    (rows V ((nrows C - nrows T)%nat, nrows C)) (rows V (0%nat, (nrows C - nrows T)%nat))
    T C W.
Proof. reflexivity. Qed.

Lemma larfb_row_fwd_left_steps side trans (V T C W : matrix R) :
  Lapack.larfb_row_fwd_left side trans V T C W =
  Lapack.left_steps side trans Uplo.Upper Uplo.Upper Op.NoTrans Op.ConjTrans
    (0%nat, nrows T) (nrows T, nrows C)
    (cols V (0%nat, nrows T)) (cols V (nrows T, nrows C)) T C W.
Proof. reflexivity. Qed.

Lemma larfb_row_bwd_left_steps side trans (V T C W : matrix R) :
  Lapack.larfb_row_bwd_left side trans V T C W =
  Lapack.left_steps side trans Uplo.Lower Uplo.Lower Op.NoTrans Op.ConjTrans
    ((nrows C - nrows T)%nat, nrows C) (0%nat, (nrows C - nrows T)%nat)
    (cols V ((nrows C - nrows T)%nat, nrows C)) (cols V (0%nat, (nrows C - nrows T)%nat))
    T C W.
Proof. reflexivity. Qed.

Lemma larfb_col_fwd_right_steps side trans (V T C W : matrix R) :
  Lapack.larfb_col_fwd_right side trans V T C W =
  Lapack.right_steps side Side.Right trans Uplo.Lower Uplo.Upper Op.NoTrans Op.ConjTrans
    (0%nat, nrows T) (nrows T, ncols C)
    (rows V (0%nat, nrows T)) (rows V (nrows T, ncols C)) T C W.
Proof. reflexivity. Qed.

Lemma larfb_col_bwd_right_steps side trans (V T C W : matrix R) :
  Lapack.larfb_col_bwd_right side trans V T C W =
  Lapack.right_steps side side trans Uplo.Upper Uplo.Lower Op.NoTrans Op.ConjTrans
    ((ncols C - nrows T)%nat, ncols C) (0%nat, (ncols C - nrows T)%nat)
    (rows V ((ncols C - nrows T)%nat, ncols C)) (rows V (0%nat, (ncols C - nrows T)%nat))
    T C W.
Proof. reflexivity. Qed.

Lemma larfb_row_fwd_right_steps side trans (V T C W : matrix R) :
  Lapack.larfb_row_fwd_right side trans V T C W =
  Lapack.right_steps side side trans Uplo.Upper Uplo.Upper Op.ConjTrans Op.NoTrans
    (0%nat, nrows T) (nrows T, ncols C)
    (cols V (0%nat, nrows T)) (cols V (nrows T, ncols C)) T C W.
Proof. reflexivity. Qed.

Lemma larfb_row_bwd_right_steps side trans (V T C W : matrix R) :
  Lapack.larfb_row_bwd_right side trans V T C W =
  Lapack.right_steps side side trans Uplo.Lower Uplo.Lower Op.ConjTrans Op.NoTrans
    ((ncols C - nrows T)%nat, ncols C) (0%nat, (ncols C - nrows T)%nat)
    (cols V ((ncols C - nrows T)%nat, ncols C)) (cols V (0%nat, (ncols C - nrows T)%nat))
    T C W.
Proof. reflexivity. Qed.

(** A summation over the rows of [C], split into the [k] rows from [p0]
    and the [m - k] rows from [q0]. *)
Lemma sum_two_parts (m k p0 q0 : nat) (f g h : nat -> R) :
  (k <= m)%nat ->
  (p0 = 0%nat /\ q0 = k) \/ (q0 = 0%nat /\ p0 = (m - k)%nat) ->
  (forall l, (l < k)%nat -> f (p0 + l)%nat = g l) ->
  (forall l, (l < m - k)%nat -> f (q0 + l)%nat = h l) ->
  sum m f = sum k g + sum (m - k) h.
Proof.
  intros Hkm [[-> ->] | [-> ->]] Hg Hh.
  - rewrite (sum_split_le f Hkm).
    rewrite (sum_ext f g) by (intros l Hl; apply (Hg l Hl)).
    rewrite (sum_ext (fun l => f (k + l)%nat) h) by (intros l Hl; apply (Hh l Hl)).
    reflexivity.
  - rewrite (sum_split_le f (Nat.le_sub_l m k)).
    replace (m - (m - k))%nat with k by lia.
    rewrite (sum_ext f h) by (intros l Hl; apply (Hh l Hl)).
    rewrite (sum_ext (fun l => f (m - k + l)%nat) g) by (intros l Hl; apply (Hg l Hl)).
    ring.
Qed.

(** The six steps with side = Left compute [C - L (op(T) (R C))], [L] and
    [R] being what the two views of [V] hold where they are read. *)
Lemma left_steps_spec trans uploV uploT tA tB (p0 p1 q0 q1 : nat)
    (Vt Vg T C W : matrix R) (i j : nat) :
  (nrows T <= nrows C)%nat -> nrows W = nrows T -> ncols W = ncols C ->
  p1 = (p0 + nrows T)%nat -> q1 = (q0 + (nrows C - nrows T))%nat ->
  (p0 = 0%nat /\ q0 = nrows T) \/ (q0 = 0%nat /\ p0 = (nrows C - nrows T)%nat) ->
  ncols (op tA Vg) = (nrows C - nrows T)%nat -> ncols (op tB Vg) = nrows T ->
  (i < nrows C)%nat -> (j < ncols C)%nat ->
  elt (fst (Lapack.left_steps Side.Left trans uploV uploT tA tB (p0, p1) (q0, q1)
              Vt Vg T C W)) i j =
  elt C i j -
  sum (nrows T) (fun a =>
    (if (p0 <=? i)%nat && (i <? p1)%nat
     then elt (op tB (tri uploV Diag.Unit Vt)) (i - p0) a
     else elt (op tB Vg) (i - q0) a) *
    sum (nrows T) (fun b =>
      elt (op trans (tri uploT Diag.NonUnit T)) a b *
      sum (nrows C) (fun l =>
        (if (p0 <=? l)%nat && (l <? p1)%nat
         then elt (op tA (tri uploV Diag.Unit Vt)) b (l - p0)
         else elt (op tA Vg) b (l - q0)) * elt C l j))).
Proof.
  intros Hkm HWr HWc Hp1 Hq1 Hpart HgA HgB Hi Hj.
  unfold Lapack.left_steps.
  set (m := nrows C) in *. set (n := ncols C) in *. set (k := nrows T) in *.
  cbv zeta.
  set (Vu := tri uploV Diag.Unit Vt). set (Tt := op trans (tri uploT Diag.NonUnit T)).
  set (W0 := lacpy dense (rows C (p0, p1)) W).
  set (W1 := trmm Side.Left uploV tA Diag.Unit 1 Vt W0).
  set (W2 := if (k <? m)%nat then _ else W1).
  set (W3 := trmm Side.Left uploT trans Diag.NonUnit 1 T W2).
  set (C' := if (k <? m)%nat then _ else C).
  set (W4 := trmm Side.Left uploV tB Diag.Unit (s_opp 1) Vt W3).
  set (Rf := fun b l => if (p0 <=? l)%nat && (l <? p1)%nat
                        then elt (op tA Vu) b (l - p0) else elt (op tA Vg) b (l - q0)).
  set (Lf := fun i a => if (p0 <=? i)%nat && (i <? p1)%nat
                        then elt (op tB Vu) (i - p0) a else elt (op tB Vg) (i - q0) a).
  set (Y := fun b j => sum m (fun l => Rf b l * elt C l j)).
  assert (inP : forall l, (l < k)%nat -> (p0 <=? p0 + l)%nat && (p0 + l <? p1)%nat = true).
  { intros l Hl. apply andb_true_iff. split; [apply Nat.leb_le | apply Nat.ltb_lt]; lia. }
  assert (inQ : forall l, (l < m - k)%nat ->
                  (p0 <=? q0 + l)%nat && (q0 + l <? p1)%nat = false).
  { intros l Hl. apply andb_false_iff.
    destruct Hpart as [[Hp Hq] | [Hq Hp]].
    - right. apply Nat.ltb_ge. lia.
    - left. apply Nat.leb_gt. lia. }
  assert (E0 : forall l j, (l < k)%nat -> (j < n)%nat -> elt W0 l j = elt C (p0 + l) j).
  { intros l j' Hl Hj'. unfold W0. rewrite lacpy_dense_elt; cbn; try lia. reflexivity. }
  assert (E1 : forall b j, (b < k)%nat -> (j < n)%nat ->
                 elt W1 b j = sum k (fun l => elt (op tA Vu) b l * elt C (p0 + l) j)).
  { intros b j' Hb Hj'. unfold W1.
    rewrite trmm_left_elt by (cbn; lia).
    replace (nrows W0) with k by (symmetry; exact HWr).
    rewrite <- sum_scale_l. apply sum_ext; intros l Hl.
    rewrite E0 by assumption. fold Vu. ring. }
  assert (E2 : forall b j, (b < k)%nat -> (j < n)%nat -> elt W2 b j = Y b j).
  { intros b j' Hb Hj'. unfold W2, Y.
    rewrite (@sum_two_parts m k p0 q0 (fun l => Rf b l * elt C l j')
               (fun l => elt (op tA Vu) b l * elt C (p0 + l) j')
               (fun l => elt (op tA Vg) b l * elt C (q0 + l) j') Hkm Hpart).
    - destruct (Nat.ltb_spec k m) as [Hlt | Hge].
      + rewrite gemm_elt by (cbn; lia).
        rewrite E1 by assumption. rewrite HgA.
        rewrite (sum_ext (fun l => elt (op tA Vg) b l *
                                   elt (op Op.NoTrans (rows C (q0, q1))) l j')
                         (fun l => elt (op tA Vg) b l * elt C (q0 + l) j'))
          by (intros l Hl; reflexivity).
        ring.
      + rewrite E1 by assumption. replace (m - k)%nat with 0%nat by lia.
        cbn [sum]. ring.
    - intros l Hl. unfold Rf. rewrite (inP l Hl).
      replace (p0 + l - p0)%nat with l by lia. reflexivity.
    - intros l Hl. unfold Rf. rewrite (inQ l Hl).
      replace (q0 + l - q0)%nat with l by lia. reflexivity. }
  assert (X2 : nrows W2 = k /\ ncols W2 = n).
  { unfold W2. destruct (k <? m)%nat; cbn; auto. }
  assert (E3 : forall a j, (a < k)%nat -> (j < n)%nat ->
                 elt W3 a j = sum k (fun b => elt Tt a b * Y b j)).
  { intros a j' Ha Hj'. unfold W3.
    rewrite trmm_left_elt by (rewrite ?(proj1 X2), ?(proj2 X2); assumption).
    rewrite (proj1 X2).
    rewrite <- sum_scale_l. apply sum_ext; intros b Hb.
    rewrite E2 by assumption. fold Tt. ring. }
  assert (X3 : nrows W3 = k /\ ncols W3 = n).
  { unfold W3. cbn [trmm nrows ncols]. exact X2. }
  assert (E4 : forall a j, (a < k)%nat -> (j < n)%nat ->
                 elt W4 a j = s_opp (sum k (fun b => elt (op tB Vu) a b * elt W3 b j))).
  { intros a j' Ha Hj'. unfold W4.
    rewrite trmm_left_elt by (rewrite ?(proj1 X3), ?(proj2 X3); assumption).
    rewrite (proj1 X3). fold Vu. ring. }
  assert (EC : forall a j, (a < m)%nat -> (j < n)%nat ->
                 elt C' a j =
                 if (p0 <=? a)%nat && (a <? p1)%nat
                 then elt C a j
                 else elt C a j - sum k (fun b => elt (op tB Vg) (a - q0) b * elt W3 b j)).
  { intros a j' Ha Hj'. unfold C'.
    destruct (Nat.ltb_spec k m) as [Hlt | Hge].
    - cbn [assign_rows elt fst snd].
      destruct (Nat.leb_spec p0 a) as [Hpa | Hpa];
        destruct (Nat.ltb_spec a p1) as [Hap | Hap];
        destruct (Nat.leb_spec q0 a) as [Hqa | Hqa];
        destruct (Nat.ltb_spec a q1) as [Haq | Haq];
        cbn [andb]; try reflexivity; try (exfalso; lia).
      + rewrite gemm_elt by (cbn; lia). rewrite HgB.
        cbn [rows elt fst]. replace (q0 + (a - q0))%nat with a by lia.
        rewrite (sum_ext (fun l => elt (op tB Vg) (a - q0) l * elt (op Op.NoTrans W3) l j')
                         (fun b => elt (op tB Vg) (a - q0) b * elt W3 b j'))
          by (intros l Hl; reflexivity).
        ring.
      + rewrite gemm_elt by (cbn; lia). rewrite HgB.
        cbn [rows elt fst]. replace (q0 + (a - q0))%nat with a by lia.
        rewrite (sum_ext (fun l => elt (op tB Vg) (a - q0) l * elt (op Op.NoTrans W3) l j')
                         (fun b => elt (op tB Vg) (a - q0) b * elt W3 b j'))
          by (intros l Hl; reflexivity).
        ring.
    - destruct (Nat.leb_spec p0 a) as [Hpa | Hpa];
        destruct (Nat.ltb_spec a p1) as [Hap | Hap];
        cbn [andb]; try reflexivity; exfalso; lia. }
  assert (EL : elt (fst (assign_rows C' (p0, p1)
                           (add_W n k (rows C' (p0, p1)) W4), W4)) i j =
               elt C i j - sum k (fun a => Lf i a * elt W3 a j)).
  { cbn [fst snd assign_rows elt]. unfold Lf.
    destruct ((p0 <=? i)%nat && (i <? p1)%nat) eqn:HP.
    - apply andb_true_iff in HP. destruct HP as [HP1 HP2].
      apply Nat.leb_le in HP1. apply Nat.ltb_lt in HP2.
      rewrite add_W_elt.
      replace (i - p0 <? k)%nat with true by (symmetry; apply Nat.ltb_lt; lia).
      rewrite (proj2 (Nat.ltb_lt _ _) Hj). cbn [andb].
      cbn [rows elt fst]. replace (p0 + (i - p0))%nat with i by lia.
      rewrite EC by assumption.
      replace ((p0 <=? i)%nat && (i <? p1)%nat) with true
        by (symmetry; apply andb_true_iff; split;
            [apply Nat.leb_le | apply Nat.ltb_lt]; lia).
      rewrite E4 by (try assumption; lia). ring.
    - rewrite EC by assumption. rewrite HP. reflexivity. }
  rewrite EL. f_equal. apply sum_ext; intros a Ha.
  rewrite E3 by assumption. reflexivity.
Qed.


(** The six steps with side = Right compute [C - ((C L) op(T)) R]. *)
Lemma right_steps_spec trans uploV uploT tA tB (p0 p1 q0 q1 : nat)
    (Vt Vg T C W : matrix R) (i j : nat) :
  (nrows T <= ncols C)%nat -> nrows W = nrows C -> ncols W = nrows T ->
  p1 = (p0 + nrows T)%nat -> q1 = (q0 + (ncols C - nrows T))%nat ->
  (p0 = 0%nat /\ q0 = nrows T) \/ (q0 = 0%nat /\ p0 = (ncols C - nrows T)%nat) ->
  (i < nrows C)%nat -> (j < ncols C)%nat ->
  elt (fst (Lapack.right_steps Side.Right Side.Right trans uploV uploT tA tB
              (p0, p1) (q0, q1) Vt Vg T C W)) i j =
  elt C i j -
  sum (nrows T) (fun a =>
    sum (nrows T) (fun b =>
      sum (ncols C) (fun l =>
        elt C i l *
        (if (p0 <=? l)%nat && (l <? p1)%nat
         then elt (op tA (tri uploV Diag.Unit Vt)) (l - p0) b
         else elt (op tA Vg) (l - q0) b)) *
      elt (op trans (tri uploT Diag.NonUnit T)) b a) *
    (if (p0 <=? j)%nat && (j <? p1)%nat
     then elt (op tB (tri uploV Diag.Unit Vt)) a (j - p0)
     else elt (op tB Vg) a (j - q0))).
Proof.
  intros Hkn HWr HWc Hp1 Hq1 Hpart Hi Hj.
  unfold Lapack.right_steps.
  set (m := nrows C) in *. set (n := ncols C) in *. set (k := nrows T) in *.
  cbv zeta.
  set (Vu := tri uploV Diag.Unit Vt). set (Tt := op trans (tri uploT Diag.NonUnit T)).
  set (W0 := lacpy dense (cols C (p0, p1)) W).
  set (W1 := trmm Side.Right uploV tA Diag.Unit 1 Vt W0).
  set (W2 := if (k <? n)%nat then _ else W1).
  set (W3 := trmm Side.Right uploT trans Diag.NonUnit 1 T W2).
  set (C' := if (k <? n)%nat then _ else C).
  set (W4 := trmm Side.Right uploV tB Diag.Unit (s_opp 1) Vt W3).
  set (Lf := fun l b => if (p0 <=? l)%nat && (l <? p1)%nat
                        then elt (op tA Vu) (l - p0) b else elt (op tA Vg) (l - q0) b).
  set (Rf := fun a j => if (p0 <=? j)%nat && (j <? p1)%nat
                        then elt (op tB Vu) a (j - p0) else elt (op tB Vg) a (j - q0)).
  set (Y := fun i b => sum n (fun l => elt C i l * Lf l b)).
  assert (inP : forall l, (l < k)%nat -> (p0 <=? p0 + l)%nat && (p0 + l <? p1)%nat = true).
  { intros l Hl. apply andb_true_iff. split; [apply Nat.leb_le | apply Nat.ltb_lt]; lia. }
  assert (inQ : forall l, (l < n - k)%nat ->
                  (p0 <=? q0 + l)%nat && (q0 + l <? p1)%nat = false).
  { intros l Hl. apply andb_false_iff.
    destruct Hpart as [[Hp Hq] | [Hq Hp]].
    - right. apply Nat.ltb_ge. lia.
    - left. apply Nat.leb_gt. lia. }
  assert (E0 : forall i l, (i < m)%nat -> (l < k)%nat -> elt W0 i l = elt C i (p0 + l)).
  { intros i' l Hi' Hl. unfold W0. rewrite lacpy_dense_elt; cbn; try lia. reflexivity. }
  assert (E1 : forall i b, (i < m)%nat -> (b < k)%nat ->
                 elt W1 i b = sum k (fun l => elt C i (p0 + l) * elt (op tA Vu) l b)).
  { intros i' b Hi' Hb. unfold W1.
    rewrite trmm_right_elt by (cbn; lia).
    replace (ncols W0) with k by (symmetry; exact HWc).
    rewrite <- sum_scale_l. apply sum_ext; intros l Hl.
    rewrite E0 by assumption. fold Vu. ring. }
  assert (E2 : forall i b, (i < m)%nat -> (b < k)%nat -> elt W2 i b = Y i b).
  { intros i' b Hi' Hb. unfold W2, Y.
    rewrite (@sum_two_parts n k p0 q0 (fun l => elt C i' l * Lf l b)
               (fun l => elt C i' (p0 + l) * elt (op tA Vu) l b)
               (fun l => elt C i' (q0 + l) * elt (op tA Vg) l b) Hkn Hpart).
    - destruct (Nat.ltb_spec k n) as [Hlt | Hge].
      + rewrite gemm_elt by (cbn; lia).
        rewrite E1 by assumption.
        replace (ncols (op Op.NoTrans (cols C (q0, q1)))) with (n - k)%nat
          by (cbn; lia).
        rewrite (sum_ext (fun l => elt (op Op.NoTrans (cols C (q0, q1))) i' l *
                                   elt (op tA Vg) l b)
                         (fun l => elt C i' (q0 + l) * elt (op tA Vg) l b))
          by (intros l Hl; reflexivity).
        ring.
      + rewrite E1 by assumption. replace (n - k)%nat with 0%nat by lia.
        cbn [sum]. ring.
    - intros l Hl. unfold Lf. rewrite (inP l Hl).
      replace (p0 + l - p0)%nat with l by lia. reflexivity.
    - intros l Hl. unfold Lf. rewrite (inQ l Hl).
      replace (q0 + l - q0)%nat with l by lia. reflexivity. }
  assert (X2 : nrows W2 = m /\ ncols W2 = k).
  { unfold W2. destruct (k <? n)%nat; cbn; auto. }
  assert (E3 : forall i a, (i < m)%nat -> (a < k)%nat ->
                 elt W3 i a = sum k (fun b => Y i b * elt Tt b a)).
  { intros i' a Hi' Ha. unfold W3.
    rewrite trmm_right_elt by (rewrite ?(proj1 X2), ?(proj2 X2); assumption).
    rewrite (proj2 X2).
    rewrite <- sum_scale_l. apply sum_ext; intros b Hb.
    rewrite E2 by assumption. fold Tt. ring. }
  assert (X3 : nrows W3 = m /\ ncols W3 = k).
  { unfold W3. cbn [trmm nrows ncols]. exact X2. }
  assert (E4 : forall i c, (i < m)%nat -> (c < k)%nat ->
                 elt W4 i c = s_opp (sum k (fun a => elt W3 i a * elt (op tB Vu) a c))).
  { intros i' c Hi' Hc. unfold W4.
    rewrite trmm_right_elt by (rewrite ?(proj1 X3), ?(proj2 X3); assumption).
    rewrite (proj2 X3). fold Vu. ring. }
  assert (EC : forall i c, (i < m)%nat -> (c < n)%nat ->
                 elt C' i c =
                 if (p0 <=? c)%nat && (c <? p1)%nat
                 then elt C i c
                 else elt C i c - sum k (fun a => elt W3 i a * elt (op tB Vg) a (c - q0))).
  { intros i' c Hi' Hc. unfold C'.
    destruct (Nat.ltb_spec k n) as [Hlt | Hge].
    - cbn [assign_cols elt fst snd].
      destruct (Nat.leb_spec p0 c) as [Hpa | Hpa];
        destruct (Nat.ltb_spec c p1) as [Hap | Hap];
        destruct (Nat.leb_spec q0 c) as [Hqa | Hqa];
        destruct (Nat.ltb_spec c q1) as [Haq | Haq];
        cbn [andb]; try reflexivity; try (exfalso; lia).
      + rewrite gemm_elt by (cbn; lia).
        replace (ncols (op Op.NoTrans W3)) with k by (symmetry; exact (proj2 X3)).
        cbn [cols elt fst]. replace (q0 + (c - q0))%nat with c by lia.
        rewrite (sum_ext (fun l => elt (op Op.NoTrans W3) i' l * elt (op tB Vg) l (c - q0))
                         (fun a => elt W3 i' a * elt (op tB Vg) a (c - q0)))
          by (intros l Hl; reflexivity).
        ring.
      + rewrite gemm_elt by (cbn; lia).
        replace (ncols (op Op.NoTrans W3)) with k by (symmetry; exact (proj2 X3)).
        cbn [cols elt fst]. replace (q0 + (c - q0))%nat with c by lia.
        rewrite (sum_ext (fun l => elt (op Op.NoTrans W3) i' l * elt (op tB Vg) l (c - q0))
                         (fun a => elt W3 i' a * elt (op tB Vg) a (c - q0)))
          by (intros l Hl; reflexivity).
        ring.
    - destruct (Nat.leb_spec p0 c) as [Hpa | Hpa];
        destruct (Nat.ltb_spec c p1) as [Hap | Hap];
        cbn [andb]; try reflexivity; exfalso; lia. }
  assert (EL : elt (fst (assign_cols C' (p0, p1)
                           (add_W k m (cols C' (p0, p1)) W4), W4)) i j =
               elt C i j - sum k (fun a => elt W3 i a * Rf a j)).
  { cbn [fst snd assign_cols elt]. unfold Rf.
    destruct ((p0 <=? j)%nat && (j <? p1)%nat) eqn:HP.
    - apply andb_true_iff in HP. destruct HP as [HP1 HP2].
      apply Nat.leb_le in HP1. apply Nat.ltb_lt in HP2.
      rewrite add_W_elt.
      replace (j - p0 <? k)%nat with true by (symmetry; apply Nat.ltb_lt; lia).
      rewrite (proj2 (Nat.ltb_lt _ _) Hi). cbn [andb].
      cbn [cols elt fst]. replace (p0 + (j - p0))%nat with j by lia.
      rewrite EC by assumption.
      replace ((p0 <=? j)%nat && (j <? p1)%nat) with true
        by (symmetry; apply andb_true_iff; split;
            [apply Nat.leb_le | apply Nat.ltb_lt]; lia).
      rewrite E4 by (try assumption; lia). ring.
    - rewrite EC by assumption. rewrite HP. reflexivity. }
  rewrite EL. f_equal. apply sum_ext; intros a Ha.
  rewrite E3 by assumption. reflexivity.
Qed.


(** *** What the views of [V] hold *)

Lemma stored_V_col_fwd (V : matrix R) (k q p a : nat) :
  (a < k)%nat ->
  ((0 <=? p)%nat && (p <? k)%nat = true ->
   elt (tri Uplo.Lower Diag.Unit (rows V (0%nat, k))) (p - 0) a =
   elt (Lapack.stored_V Direction.Forward StoreV.Columnwise k V) p a) /\
  ((0 <=? p)%nat && (p <? k)%nat = false ->
   elt (rows V (k, q)) (p - k) a =
   elt (Lapack.stored_V Direction.Forward StoreV.Columnwise k V) p a).
Proof.
  intros Ha. unfold Lapack.stored_V.
  change (Direction.Forward =? Direction.Forward)%Z with true.
  change (StoreV.Columnwise =? StoreV.Columnwise)%Z with true.
  cbn -[Nat.ltb Nat.leb Nat.eqb Nat.sub]. rewrite Nat.sub_0_r, Nat.add_0_r.
  split; intros HP.
  - reflexivity.
  - apply Nat.ltb_ge in HP.
    destruct (Nat.eqb_spec p a); [lia |].
    destruct (Nat.ltb_spec a p); [| lia].
    f_equal. lia.
Qed.

Lemma stored_V_col_bwd (V : matrix R) (k q p a : nat) :
  nrows V = q -> (k <= q)%nat -> (p < q)%nat -> (a < k)%nat ->
  ((q - k <=? p)%nat && (p <? q)%nat = true ->
   elt (tri Uplo.Upper Diag.Unit (rows V ((q - k)%nat, q))) (p - (q - k)) a =
   elt (Lapack.stored_V Direction.Backward StoreV.Columnwise k V) p a) /\
  ((q - k <=? p)%nat && (p <? q)%nat = false ->
   elt (rows V (0%nat, (q - k)%nat)) (p - 0) a =
   elt (Lapack.stored_V Direction.Backward StoreV.Columnwise k V) p a).
Proof.
  intros HV Hkq Hp Ha. unfold Lapack.stored_V.
  change (Direction.Backward =? Direction.Forward)%Z with false.
  change (StoreV.Columnwise =? StoreV.Columnwise)%Z with true.
  cbn -[Nat.ltb Nat.leb Nat.eqb Nat.sub]. rewrite HV, Nat.sub_0_r.
  split; intros HP.
  - apply andb_true_iff in HP. destruct HP as [HP _]. apply Nat.leb_le in HP.
    replace (q - k + (p - (q - k)))%nat with p by lia.
    destruct (Nat.eqb_spec (p - (q - k)) a), (Nat.eqb_spec p (a + (q - k)));
      try lia; [reflexivity |].
    destruct (Nat.ltb_spec (p - (q - k)) a), (Nat.ltb_spec p (a + (q - k)));
      try lia; reflexivity.
  - apply andb_false_iff in HP.
    assert (Hlt : (p < q - k)%nat).
    { destruct HP as [HP | HP]; [apply Nat.leb_gt in HP; exact HP |].
      apply Nat.ltb_ge in HP. lia. }
    destruct (Nat.eqb_spec p (a + (q - k))); [lia |].
    destruct (Nat.ltb_spec p (a + (q - k))); [reflexivity | lia].
Qed.

Lemma stored_V_row_fwd (V : matrix R) (k q p a : nat) :
  (a < k)%nat ->
  ((0 <=? p)%nat && (p <? k)%nat = true ->
   elt (tri Uplo.Upper Diag.Unit (cols V (0%nat, k))) a (p - 0) =
   elt (Lapack.stored_V Direction.Forward StoreV.Rowwise k V) a p) /\
  ((0 <=? p)%nat && (p <? k)%nat = false ->
   elt (cols V (k, q)) a (p - k) =
   elt (Lapack.stored_V Direction.Forward StoreV.Rowwise k V) a p).
Proof.
  intros Ha. unfold Lapack.stored_V.
  change (Direction.Forward =? Direction.Forward)%Z with true.
  change (StoreV.Rowwise =? StoreV.Columnwise)%Z with false.
  cbn -[Nat.ltb Nat.leb Nat.eqb Nat.sub]. rewrite Nat.sub_0_r, Nat.add_0_r.
  split; intros HP.
  - destruct (Nat.eqb_spec a p), (Nat.eqb_spec p a); try lia; reflexivity.
  - apply Nat.ltb_ge in HP.
    destruct (Nat.eqb_spec p a); [lia |].
    destruct (Nat.ltb_spec a p); [| lia].
    f_equal. lia.
Qed.

Lemma stored_V_row_bwd (V : matrix R) (k q p a : nat) :
  ncols V = q -> (k <= q)%nat -> (p < q)%nat -> (a < k)%nat ->
  ((q - k <=? p)%nat && (p <? q)%nat = true ->
   elt (tri Uplo.Lower Diag.Unit (cols V ((q - k)%nat, q))) a (p - (q - k)) =
   elt (Lapack.stored_V Direction.Backward StoreV.Rowwise k V) a p) /\
  ((q - k <=? p)%nat && (p <? q)%nat = false ->
   elt (cols V (0%nat, (q - k)%nat)) a (p - 0) =
   elt (Lapack.stored_V Direction.Backward StoreV.Rowwise k V) a p).
Proof.
  intros HV Hkq Hp Ha. unfold Lapack.stored_V.
  change (Direction.Backward =? Direction.Forward)%Z with false.
  change (StoreV.Rowwise =? StoreV.Columnwise)%Z with false.
  cbn -[Nat.ltb Nat.leb Nat.eqb Nat.sub]. rewrite HV, Nat.sub_0_r.
  split; intros HP.
  - apply andb_true_iff in HP. destruct HP as [HP _]. apply Nat.leb_le in HP.
    replace (q - k + (p - (q - k)))%nat with p by lia.
    destruct (Nat.eqb_spec a (p - (q - k))), (Nat.eqb_spec p (a + (q - k)));
      try lia; [reflexivity |].
    destruct (Nat.ltb_spec (p - (q - k)) a), (Nat.ltb_spec p (a + (q - k)));
      try lia; reflexivity.
  - apply andb_false_iff in HP.
    assert (Hlt : (p < q - k)%nat).
    { destruct HP as [HP | HP]; [apply Nat.leb_gt in HP; exact HP |].
      apply Nat.ltb_ge in HP. lia. }
    destruct (Nat.eqb_spec p (a + (q - k))); [lia |].
    destruct (Nat.ltb_spec p (a + (q - k))); [reflexivity | lia].
Qed.


(** *** Products with [I - L T R] *)

Lemma mmul_left_factored (q k : nat) (Lm Tm Rm : nat -> nat -> R) (c : nat -> R) (i : nat) :
  (i < q)%nat ->
  sum q (fun l => ((if (i =? l)%nat then 1 else 0) -
                   sum k (fun a => sum k (fun b => Lm i a * Tm a b * Rm b l))) * c l) =
  c i - sum k (fun a => Lm i a * sum k (fun b => Tm a b * sum q (fun l => Rm b l * c l))).
Proof.
  intros Hi.
  rewrite (sum_ext _ (fun l => (if (i =? l)%nat then 1 else 0) * c l -
                               sum k (fun a => sum k (fun b => Lm i a * Tm a b * Rm b l)) * c l))
    by (intros l _; ring).
  rewrite sum_sub, sum_delta by assumption.
  rewrite (triple_sum_assoc q k (fun a => Lm i a) Tm (fun l b => Rm b l) c).
  reflexivity.
Qed.

Lemma mmul_right_factored (n k : nat) (Lm Tm Rm : nat -> nat -> R) (c : nat -> R) (j : nat) :
  (j < n)%nat ->
  sum n (fun l => c l * ((if (l =? j)%nat then 1 else 0) -
                         sum k (fun a => sum k (fun b => Lm l a * Tm a b * Rm b j)))) =
  c j - sum k (fun a => sum k (fun b => sum n (fun l => c l * Lm l b) * Tm b a) * Rm a j).
Proof.
  intros Hj.
  rewrite (sum_ext _ (fun l => (if (j =? l)%nat then 1 else 0) * c l -
                               sum k (fun a => sum k (fun b => Lm l a * Tm a b * Rm b j)) * c l)).
  2:{ intros l _. rewrite (Nat.eqb_sym l j). ring. }
  rewrite sum_sub, sum_delta by assumption.
  f_equal.
  (* both sides as the sum over [b], [a], [l] of the same product *)
  transitivity (sum k (fun b => sum k (fun a => sum n (fun l =>
                  c l * Lm l a * Tm a b * Rm b j)))).
  - transitivity (sum n (fun l => sum k (fun b => sum k (fun a =>
                    c l * Lm l a * Tm a b * Rm b j)))).
    + apply sum_ext; intros l _. rewrite <- sum_scale_r.
      rewrite sum_swap. apply sum_ext; intros b _.
      rewrite <- sum_scale_r. apply sum_ext; intros a _. ring.
    + rewrite sum_swap. apply sum_ext; intros b _.
      rewrite sum_swap. reflexivity.
  - apply sum_ext; intros b _. rewrite <- sum_scale_r.
    apply sum_ext; intros a _. rewrite <- !sum_scale_r.
    apply sum_ext; intros l _. ring.
Qed.


(** *** The eight branches *)

(** Arguments that pass the checks name members of the enumerations. *)
Lemma larfb_check_members side trans direction storeMode (V T C W : matrix R) :
  Lapack.larfb_check side trans direction storeMode V T C W = None ->
  (side = Side.Left \/ side = Side.Right) /\
  (direction = Direction.Forward \/ direction = Direction.Backward) /\
  (storeMode = StoreV.Columnwise \/ storeMode = StoreV.Rowwise).
Proof.
  unfold Lapack.larfb_check. intros H.
  destruct (Z.eqb_spec side Side.Left), (Z.eqb_spec side Side.Right);
    cbn [negb andb] in H; try discriminate;
  (destruct (negb (trans =? Op.NoTrans)%Z && negb (trans =? Op.ConjTrans)%Z &&
             (negb (trans =? Op.Trans)%Z || is_complex)); [discriminate |]);
  (destruct (Z.eqb_spec direction Direction.Backward),
            (Z.eqb_spec direction Direction.Forward);
    cbn [negb andb] in H; try discriminate);
  (destruct (Z.eqb_spec storeMode StoreV.Columnwise),
            (Z.eqb_spec storeMode StoreV.Rowwise);
    cbn [negb andb] in H; try discriminate);
  repeat split; auto.
Qed.

(** An entry of [L] or [R] is an entry of [stored_V], in the triangle and
    out of it. *)
Ltac by_entries lemmaP :=
  match goal with
  | |- context [if ?c then _ else _] =>
      let HP := fresh "HP" in
      destruct c eqn:HP;
      [ rewrite <- (proj1 lemmaP HP) | rewrite <- (proj2 lemmaP HP) ];
      reflexivity
  end.

Lemma larfb_left_branches trans direction storeMode (V T C W : matrix R) (i j : nat) :
  direction = Direction.Forward \/ direction = Direction.Backward ->
  storeMode = StoreV.Columnwise \/ storeMode = StoreV.Rowwise ->
  Lapack.larfb_shapes Side.Left storeMode V T C W ->
  (i < nrows C)%nat -> (j < ncols C)%nat ->
  elt (fst (if (storeMode =? StoreV.Columnwise)%Z then
              if (direction =? Direction.Forward)%Z
              then Lapack.larfb_col_fwd_left Side.Left trans V T C W
              else Lapack.larfb_col_bwd_left Side.Left trans V T C W
            else
              if (direction =? Direction.Forward)%Z
              then Lapack.larfb_row_fwd_left Side.Left trans V T C W
              else Lapack.larfb_row_bwd_left Side.Left trans V T C W)) i j =
  elt (Lapack.mmul (Lapack.block_reflector_op trans direction storeMode V T) C) i j.
Proof.
  intros Hd Hs Hshapes Hi Hj.
  unfold Lapack.larfb_shapes in Hshapes.
  change (Side.Left =? Side.Left)%Z with true in Hshapes. cbv zeta iota in Hshapes.
  destruct Hshapes as (HT & (Hkm & HWr & HWc) & HV).
  set (m := nrows C) in *. set (n := ncols C) in *. set (k := nrows T) in *.
  destruct Hs as [-> | ->], Hd as [-> | ->].
  - (* Columnwise, Forward *)
    change (StoreV.Columnwise =? StoreV.Columnwise)%Z with true in *.
    change (Direction.Forward =? Direction.Forward)%Z with true.
    cbv iota. cbv iota in HV. destruct HV as [HVr HVc].
    rewrite larfb_col_fwd_left_steps.
    rewrite left_steps_spec; try assumption; try reflexivity;
      try (fold m k; lia); try (left; split; reflexivity);
      try (right; split; reflexivity); try (cbn; fold m k; lia).
    fold m k.
    unfold Lapack.mmul, Lapack.block_reflector_op.
    change (StoreV.Columnwise =? StoreV.Columnwise)%Z with true.
    cbv zeta iota. cbn [elt ncols nrows]. rewrite HVr. fold k.
    symmetry.
    etransitivity; [apply (@mmul_left_factored m k
        (fun i a => elt (Lapack.stored_V Direction.Forward StoreV.Columnwise k V) i a)
        (fun a b => elt (op trans (Lapack.stored_T Direction.Forward T)) a b)
        (fun b l => s_conj (elt (Lapack.stored_V Direction.Forward StoreV.Columnwise k V) l b))
        (fun l => elt C l j) i Hi) |].
    f_equal. apply sum_ext; intros a Ha. f_equal.
    + by_entries (@stored_V_col_fwd V k m i a Ha).
    + apply sum_ext; intros b Hb. f_equal.
      apply sum_ext; intros l Hl. f_equal.
      change (elt (op Op.ConjTrans ?X) ?r ?c) with (s_conj (elt X c r)).
      by_entries (@stored_V_col_fwd V k m l b Hb).
  - (* Columnwise, Backward *)
    change (StoreV.Columnwise =? StoreV.Columnwise)%Z with true in *.
    change (Direction.Backward =? Direction.Forward)%Z with false.
    cbv iota. cbv iota in HV. destruct HV as [HVr HVc].
    rewrite larfb_col_bwd_left_steps.
    rewrite left_steps_spec; try assumption; try reflexivity;
      try (fold m k; lia); try (left; split; reflexivity);
      try (right; split; reflexivity); try (cbn; fold m k; lia).
    fold m k.
    unfold Lapack.mmul, Lapack.block_reflector_op.
    change (StoreV.Columnwise =? StoreV.Columnwise)%Z with true.
    cbv zeta iota. cbn [elt ncols nrows]. rewrite HVr. fold k.
    symmetry.
    etransitivity; [apply (@mmul_left_factored m k
        (fun i a => elt (Lapack.stored_V Direction.Backward StoreV.Columnwise k V) i a)
        (fun a b => elt (op trans (Lapack.stored_T Direction.Backward T)) a b)
        (fun b l => s_conj (elt (Lapack.stored_V Direction.Backward StoreV.Columnwise k V) l b))
        (fun l => elt C l j) i Hi) |].
    f_equal. apply sum_ext; intros a Ha. f_equal.
    + by_entries (@stored_V_col_bwd V k m i a HVr Hkm Hi Ha).
    + apply sum_ext; intros b Hb. f_equal.
      apply sum_ext; intros l Hl. f_equal.
      change (elt (op Op.ConjTrans ?X) ?r ?c) with (s_conj (elt X c r)).
      by_entries (@stored_V_col_bwd V k m l b HVr Hkm Hl Hb).
  - (* Rowwise, Forward *)
    change (StoreV.Rowwise =? StoreV.Columnwise)%Z with false in *.
    change (Direction.Forward =? Direction.Forward)%Z with true.
    cbv iota. cbv iota in HV. destruct HV as [HVr HVc].
    rewrite larfb_row_fwd_left_steps.
    rewrite left_steps_spec; try assumption; try reflexivity;
      try (fold m k; lia); try (left; split; reflexivity);
      try (right; split; reflexivity); try (cbn; fold m k; lia).
    fold m k.
    unfold Lapack.mmul, Lapack.block_reflector_op.
    change (StoreV.Rowwise =? StoreV.Columnwise)%Z with false.
    cbv zeta iota. cbn [elt ncols nrows]. rewrite HVc. fold k.
    symmetry.
    etransitivity; [apply (@mmul_left_factored m k
        (fun i a => s_conj (elt (Lapack.stored_V Direction.Forward StoreV.Rowwise k V) a i))
        (fun a b => elt (op trans (Lapack.stored_T Direction.Forward T)) a b)
        (fun b l => elt (Lapack.stored_V Direction.Forward StoreV.Rowwise k V) b l)
        (fun l => elt C l j) i Hi) |].
    f_equal. apply sum_ext; intros a Ha. f_equal.
    + change (elt (op Op.ConjTrans ?X) ?r ?c) with (s_conj (elt X c r)).
      by_entries (@stored_V_row_fwd V k m i a Ha).
    + apply sum_ext; intros b Hb. f_equal.
      apply sum_ext; intros l Hl. f_equal.
      by_entries (@stored_V_row_fwd V k m l b Hb).
  - (* Rowwise, Backward *)
    change (StoreV.Rowwise =? StoreV.Columnwise)%Z with false in *.
    change (Direction.Backward =? Direction.Forward)%Z with false.
    cbv iota. cbv iota in HV. destruct HV as [HVr HVc].
    rewrite larfb_row_bwd_left_steps.
    rewrite left_steps_spec; try assumption; try reflexivity;
      try (fold m k; lia); try (left; split; reflexivity);
      try (right; split; reflexivity); try (cbn; fold m k; lia).
    fold m k.
    unfold Lapack.mmul, Lapack.block_reflector_op.
    change (StoreV.Rowwise =? StoreV.Columnwise)%Z with false.
    cbv zeta iota. cbn [elt ncols nrows]. rewrite HVc. fold k.
    symmetry.
    etransitivity; [apply (@mmul_left_factored m k
        (fun i a => s_conj (elt (Lapack.stored_V Direction.Backward StoreV.Rowwise k V) a i))
        (fun a b => elt (op trans (Lapack.stored_T Direction.Backward T)) a b)
        (fun b l => elt (Lapack.stored_V Direction.Backward StoreV.Rowwise k V) b l)
        (fun l => elt C l j) i Hi) |].
    f_equal. apply sum_ext; intros a Ha. f_equal.
    + change (elt (op Op.ConjTrans ?X) ?r ?c) with (s_conj (elt X c r)).
      by_entries (@stored_V_row_bwd V k m i a HVc Hkm Hi Ha).
    + apply sum_ext; intros b Hb. f_equal.
      apply sum_ext; intros l Hl. f_equal.
      by_entries (@stored_V_row_bwd V k m l b HVc Hkm Hl Hb).
Qed.


Lemma larfb_right_branches trans direction storeMode (V T C W : matrix R) (i j : nat) :
  direction = Direction.Forward \/ direction = Direction.Backward ->
  storeMode = StoreV.Columnwise \/ storeMode = StoreV.Rowwise ->
  Lapack.larfb_shapes Side.Right storeMode V T C W ->
  (i < nrows C)%nat -> (j < ncols C)%nat ->
  elt (fst (if (storeMode =? StoreV.Columnwise)%Z then
              if (direction =? Direction.Forward)%Z
              then Lapack.larfb_col_fwd_right Side.Right trans V T C W
              else Lapack.larfb_col_bwd_right Side.Right trans V T C W
            else
              if (direction =? Direction.Forward)%Z
              then Lapack.larfb_row_fwd_right Side.Right trans V T C W
              else Lapack.larfb_row_bwd_right Side.Right trans V T C W)) i j =
  elt (Lapack.mmul C (Lapack.block_reflector_op trans direction storeMode V T)) i j.
Proof.
  intros Hd Hs Hshapes Hi Hj.
  unfold Lapack.larfb_shapes in Hshapes.
  change (Side.Right =? Side.Left)%Z with false in Hshapes. cbv zeta iota in Hshapes.
  destruct Hshapes as (HT & (Hkn & HWr & HWc) & HV).
  set (m := nrows C) in *. set (n := ncols C) in *. set (k := nrows T) in *.
  destruct Hs as [-> | ->], Hd as [-> | ->].
  - (* Columnwise, Forward *)
    change (StoreV.Columnwise =? StoreV.Columnwise)%Z with true in *.
    change (Direction.Forward =? Direction.Forward)%Z with true.
    cbv iota. cbv iota in HV. destruct HV as [HVr HVc].
    rewrite larfb_col_fwd_right_steps.
    rewrite right_steps_spec; try assumption; try reflexivity;
      try (fold n k; lia); try (left; split; reflexivity);
      try (right; split; reflexivity).
    fold n k.
    unfold Lapack.mmul, Lapack.block_reflector_op.
    change (StoreV.Columnwise =? StoreV.Columnwise)%Z with true.
    cbv zeta iota. cbn [elt ncols nrows]. fold n k.
    symmetry.
    etransitivity; [apply (@mmul_right_factored n k
        (fun l a => elt (Lapack.stored_V Direction.Forward StoreV.Columnwise k V) l a)
        (fun a b => elt (op trans (Lapack.stored_T Direction.Forward T)) a b)
        (fun b j => s_conj (elt (Lapack.stored_V Direction.Forward StoreV.Columnwise k V) j b))
        (fun l => elt C i l) j Hj) |].
    f_equal. apply sum_ext; intros a Ha. f_equal.
    + apply sum_ext; intros b Hb. f_equal.
      apply sum_ext; intros l Hl. f_equal.
      by_entries (@stored_V_col_fwd V k n l b Hb).
    +
      change (elt (op Op.ConjTrans ?X) ?r ?c) with (s_conj (elt X c r)).
      by_entries (@stored_V_col_fwd V k n j a Ha).
  - (* Columnwise, Backward *)
    change (StoreV.Columnwise =? StoreV.Columnwise)%Z with true in *.
    change (Direction.Backward =? Direction.Forward)%Z with false.
    cbv iota. cbv iota in HV. destruct HV as [HVr HVc].
    rewrite larfb_col_bwd_right_steps.
    rewrite right_steps_spec; try assumption; try reflexivity;
      try (fold n k; lia); try (left; split; reflexivity);
      try (right; split; reflexivity).
    fold n k.
    unfold Lapack.mmul, Lapack.block_reflector_op.
    change (StoreV.Columnwise =? StoreV.Columnwise)%Z with true.
    cbv zeta iota. cbn [elt ncols nrows]. fold n k.
    symmetry.
    etransitivity; [apply (@mmul_right_factored n k
        (fun l a => elt (Lapack.stored_V Direction.Backward StoreV.Columnwise k V) l a)
        (fun a b => elt (op trans (Lapack.stored_T Direction.Backward T)) a b)
        (fun b j => s_conj (elt (Lapack.stored_V Direction.Backward StoreV.Columnwise k V) j b))
        (fun l => elt C i l) j Hj) |].
    f_equal. apply sum_ext; intros a Ha. f_equal.
    + apply sum_ext; intros b Hb. f_equal.
      apply sum_ext; intros l Hl. f_equal.
      by_entries (@stored_V_col_bwd V k n l b HVr Hkn Hl Hb).
    +
      change (elt (op Op.ConjTrans ?X) ?r ?c) with (s_conj (elt X c r)).
      by_entries (@stored_V_col_bwd V k n j a HVr Hkn Hj Ha).
  - (* Rowwise, Forward *)
    change (StoreV.Rowwise =? StoreV.Columnwise)%Z with false in *.
    change (Direction.Forward =? Direction.Forward)%Z with true.
    cbv iota. cbv iota in HV. destruct HV as [HVr HVc].
    rewrite larfb_row_fwd_right_steps.
    rewrite right_steps_spec; try assumption; try reflexivity;
      try (fold n k; lia); try (left; split; reflexivity);
      try (right; split; reflexivity).
    fold n k.
    unfold Lapack.mmul, Lapack.block_reflector_op.
    change (StoreV.Rowwise =? StoreV.Columnwise)%Z with false.
    cbv zeta iota. cbn [elt ncols nrows]. fold n k.
    symmetry.
    etransitivity; [apply (@mmul_right_factored n k
        (fun l a => s_conj (elt (Lapack.stored_V Direction.Forward StoreV.Rowwise k V) a l))
        (fun a b => elt (op trans (Lapack.stored_T Direction.Forward T)) a b)
        (fun b j => elt (Lapack.stored_V Direction.Forward StoreV.Rowwise k V) b j)
        (fun l => elt C i l) j Hj) |].
    f_equal. apply sum_ext; intros a Ha. f_equal.
    + apply sum_ext; intros b Hb. f_equal.
      apply sum_ext; intros l Hl. f_equal.
      change (elt (op Op.ConjTrans ?X) ?r ?c) with (s_conj (elt X c r)).
      by_entries (@stored_V_row_fwd V k n l b Hb).
    +
      by_entries (@stored_V_row_fwd V k n j a Ha).
  - (* Rowwise, Backward *)
    change (StoreV.Rowwise =? StoreV.Columnwise)%Z with false in *.
    change (Direction.Backward =? Direction.Forward)%Z with false.
    cbv iota. cbv iota in HV. destruct HV as [HVr HVc].
    rewrite larfb_row_bwd_right_steps.
    rewrite right_steps_spec; try assumption; try reflexivity;
      try (fold n k; lia); try (left; split; reflexivity);
      try (right; split; reflexivity).
    fold n k.
    unfold Lapack.mmul, Lapack.block_reflector_op.
    change (StoreV.Rowwise =? StoreV.Columnwise)%Z with false.
    cbv zeta iota. cbn [elt ncols nrows]. fold n k.
    symmetry.
    etransitivity; [apply (@mmul_right_factored n k
        (fun l a => s_conj (elt (Lapack.stored_V Direction.Backward StoreV.Rowwise k V) a l))
        (fun a b => elt (op trans (Lapack.stored_T Direction.Backward T)) a b)
        (fun b j => elt (Lapack.stored_V Direction.Backward StoreV.Rowwise k V) b j)
        (fun l => elt C i l) j Hj) |].
    f_equal. apply sum_ext; intros a Ha. f_equal.
    + apply sum_ext; intros b Hb. f_equal.
      apply sum_ext; intros l Hl. f_equal.
      change (elt (op Op.ConjTrans ?X) ?r ?c) with (s_conj (elt X c r)).
      by_entries (@stored_V_row_bwd V k n l b HVc Hkn Hl Hb).
    +
      by_entries (@stored_V_row_bwd V k n j a HVc Hkn Hj Ha).
Qed.


(** For direction = Forward, columnwise storage and [trans = NoTrans] the
    operator is [I - V T V^H] with [V] unit lower trapezoidal. *)
Lemma block_reflector_op_forward_columnwise (V T : matrix R) (i l : nat) :
  elt (Lapack.block_reflector_op Op.NoTrans Direction.Forward StoreV.Columnwise V T) i l =
  elt (Lapack.block_reflector V T) i l.
Proof.
  unfold Lapack.block_reflector_op, Lapack.block_reflector, Lapack.stored_V,
    Lapack.stored_T, Lapack.unit_lower, Lapack.upper.
  change (StoreV.Columnwise =? StoreV.Columnwise)%Z with true.
  change (Direction.Forward =? Direction.Forward)%Z with true.
  cbv zeta iota. cbn [elt]. f_equal.
  apply sum_ext; intros a _. apply sum_ext; intros b _.
  cbn -[Nat.ltb Nat.leb Nat.eqb]. rewrite !Nat.add_0_r. reflexivity.
Qed.

(** With side = Left, whatever the direction, the storage and [trans],
    on arguments that pass the checks and have the documented extents,
    the call returns 0 and leaves [op(H) C] in [C]. *)
Theorem larfb_left_applies_op_H trans direction storeMode (V T C W : matrix R) :
  Lapack.larfb_check Side.Left trans direction storeMode V T C W = None ->
  Lapack.larfb_shapes Side.Left storeMode V T C W ->
  Lapack.info (Lapack.larfb Side.Left trans direction storeMode V T C W) = 0%Z /\
  nrows (Lapack.C_out (Lapack.larfb Side.Left trans direction storeMode V T C W)) = nrows C /\
  ncols (Lapack.C_out (Lapack.larfb Side.Left trans direction storeMode V T C W)) = ncols C /\
  forall i j, (i < nrows C)%nat -> (j < ncols C)%nat ->
    elt (Lapack.C_out (Lapack.larfb Side.Left trans direction storeMode V T C W)) i j =
    elt (Lapack.mmul (Lapack.block_reflector_op trans direction storeMode V T) C) i j.
Proof.
  intros Hcheck Hshapes.
  destruct (larfb_check_members _ _ _ _ _ _ _ _ Hcheck) as (_ & Hd & Hs).
  destruct (larfb_extents Side.Left trans direction storeMode V T C W) as [Er Ec].
  split; [apply larfb_info_ok; exact Hcheck |].
  split; [exact Er |]. split; [exact Ec |].
  intros i j Hi Hj.
  rewrite <- (larfb_left_branches trans Hd Hs Hshapes Hi Hj).
  unfold Lapack.larfb. rewrite Hcheck.
  destruct (Nat.leb_spec (nrows C) 0); [lia |].
  destruct (Nat.leb_spec (ncols C) 0); [lia |].
  cbn [orb]. change (Side.Left =? Side.Left)%Z with true. cbv iota.
  match goal with
  | |- context [let '(_, _) := ?p in _] => destruct p
  end.
  reflexivity.
Qed.

(** With side = Right the call leaves [C op(H)] in [C]. *)
Theorem larfb_right_applies_op_H trans direction storeMode (V T C W : matrix R) :
  Lapack.larfb_check Side.Right trans direction storeMode V T C W = None ->
  Lapack.larfb_shapes Side.Right storeMode V T C W ->
  Lapack.info (Lapack.larfb Side.Right trans direction storeMode V T C W) = 0%Z /\
  nrows (Lapack.C_out (Lapack.larfb Side.Right trans direction storeMode V T C W)) = nrows C /\
  ncols (Lapack.C_out (Lapack.larfb Side.Right trans direction storeMode V T C W)) = ncols C /\
  forall i j, (i < nrows C)%nat -> (j < ncols C)%nat ->
    elt (Lapack.C_out (Lapack.larfb Side.Right trans direction storeMode V T C W)) i j =
    elt (Lapack.mmul C (Lapack.block_reflector_op trans direction storeMode V T)) i j.
Proof.
  intros Hcheck Hshapes.
  destruct (larfb_check_members _ _ _ _ _ _ _ _ Hcheck) as (_ & Hd & Hs).
  destruct (larfb_extents Side.Right trans direction storeMode V T C W) as [Er Ec].
  split; [apply larfb_info_ok; exact Hcheck |].
  split; [exact Er |]. split; [exact Ec |].
  intros i j Hi Hj.
  rewrite <- (larfb_right_branches trans Hd Hs Hshapes Hi Hj).
  unfold Lapack.larfb. rewrite Hcheck.
  destruct (Nat.leb_spec (nrows C) 0); [lia |].
  destruct (Nat.leb_spec (ncols C) 0); [lia |].
  cbn [orb]. change (Side.Right =? Side.Left)%Z with false. cbv iota.
  match goal with
  | |- context [let '(_, _) := ?p in _] => destruct p
  end.
  reflexivity.
Qed.

End LarfbBranches.

(** ** larfb: rejected arguments *)

Section LarfbErrors.
Context {R : Type} {SR : Scalar R} {AR : Access R}.

Lemma larfb_info_of_check side trans direction storeMode (V T C W : matrix R) :
  Lapack.info (Lapack.larfb side trans direction storeMode V T C W) =
  match Lapack.larfb_check side trans direction storeMode V T C W with
  | Some code => code
  | None => 0%Z
  end.
Proof.
  unfold Lapack.larfb.
  destruct (Lapack.larfb_check side trans direction storeMode V T C W); [reflexivity |].
  destruct ((nrows C <=? 0)%nat || (ncols C <=? 0)%nat); [reflexivity |].
  match goal with
  | |- context [let '(_, _) := ?p in _] => destruct p
  end.
  reflexivity.
Qed.

Lemma larfb_rejected_untouched side trans direction storeMode (V T C W : matrix R) code :
  Lapack.larfb_check side trans direction storeMode V T C W = Some code ->
  Lapack.larfb side trans direction storeMode V T C W = Lapack.mk_outcome code C W.
Proof. intros H. unfold Lapack.larfb. rewrite H. reflexivity. Qed.

Local Open Scope Z_scope.


Lemma classic_side (side : Z) : valid_side side \/ ~ valid_side side.
Proof.
  unfold valid_side.
  destruct (Z.eq_dec side Side.Left); [tauto |].
  destruct (Z.eq_dec side Side.Right); tauto.
Qed.

(** The tests of the checks, as propositions. *)
Lemma bad_member_iff (z a b : Z) :
  negb (z =? a) && negb (z =? b) = true <-> ~ (z = a \/ z = b).
Proof.
  destruct (Z.eqb_spec z a), (Z.eqb_spec z b); cbn [negb andb];
    split; intros H; try discriminate; try tauto; try reflexivity;
    exfalso; apply H; tauto.
Qed.

Lemma bad_side_iff (side : Z) :
  negb (side =? Side.Left) && negb (side =? Side.Right) = true <-> ~ valid_side side.
Proof. apply bad_member_iff. Qed.

Lemma bad_trans_iff (trans : Z) :
  negb (trans =? Op.NoTrans) && negb (trans =? Op.ConjTrans) &&
  (negb (trans =? Op.Trans) || is_complex) = true <-> Lapack.trans_rejected trans.
Proof.
  unfold Lapack.trans_rejected.
  destruct (Z.eqb_spec trans Op.NoTrans), (Z.eqb_spec trans Op.ConjTrans),
    (Z.eqb_spec trans Op.Trans), is_complex; cbn [negb andb orb];
    split; intros H; try discriminate; try reflexivity; try tauto;
    try (repeat split; auto; fail);
    exfalso; destruct H as (H1 & H2 & [H3 | H3]); try discriminate; tauto.
Qed.

Lemma larfb_check_codes side trans direction storeMode (V T C W : matrix R) :
  match Lapack.larfb_check side trans direction storeMode V T C W with
  | Some code =>
      -8 <= code <= -1 /\
      (code = -1 <-> ~ valid_side side) /\
      (code = -2 <-> valid_side side /\ Lapack.trans_rejected trans) /\
      (code = -3 <-> valid_side side /\ ~ Lapack.trans_rejected trans /\
                     ~ (direction = Direction.Forward \/ direction = Direction.Backward)) /\
      (code = -4 <-> valid_side side /\ ~ Lapack.trans_rejected trans /\
                     (direction = Direction.Forward \/ direction = Direction.Backward) /\
                     ~ (storeMode = StoreV.Columnwise \/ storeMode = StoreV.Rowwise)) /\
      (code <= -5 -> valid_side side /\ ~ Lapack.trans_rejected trans /\
                     (direction = Direction.Forward \/ direction = Direction.Backward) /\
                     (storeMode = StoreV.Columnwise \/ storeMode = StoreV.Rowwise))
  | None =>
      valid_side side /\ ~ Lapack.trans_rejected trans /\
      (direction = Direction.Forward \/ direction = Direction.Backward) /\
      (storeMode = StoreV.Columnwise \/ storeMode = StoreV.Rowwise)
  end.
Proof.
  unfold Lapack.larfb_check.
  pose proof (bad_side_iff side) as B1. pose proof (bad_trans_iff trans) as B2.
  assert (B3 : negb (direction =? Direction.Backward) && negb (direction =? Direction.Forward)
               = true <->
               ~ (direction = Direction.Forward \/ direction = Direction.Backward)).
  { rewrite bad_member_iff. tauto. }
  pose proof (bad_member_iff storeMode StoreV.Columnwise StoreV.Rowwise) as B4.
  set (P1 := valid_side side) in *. set (P2 := Lapack.trans_rejected trans) in *.
  set (P3 := direction = Direction.Forward \/ direction = Direction.Backward) in *.
  set (P4 := storeMode = StoreV.Columnwise \/ storeMode = StoreV.Rowwise) in *.
  assert (C1 : P1 \/ ~ P1) by apply classic_side.
  assert (C3 : P3 \/ ~ P3).
  { unfold P3. destruct (Z.eq_dec direction Direction.Forward); [tauto |].
    destruct (Z.eq_dec direction Direction.Backward); tauto. }
  assert (C4 : P4 \/ ~ P4).
  { unfold P4. destruct (Z.eq_dec storeMode StoreV.Columnwise); [tauto |].
    destruct (Z.eq_dec storeMode StoreV.Rowwise); tauto. }
  clearbody P1 P2 P3 P4.
  destruct (negb (side =? Side.Left) && negb (side =? Side.Right)).
  { assert (~ P1) by (apply (proj1 B1); reflexivity).
    repeat split; intros; try lia; try tauto. }
  assert (H1 : P1) by (destruct C1 as [H | H]; [exact H | apply B1 in H; discriminate]).
  destruct (negb (trans =? Op.NoTrans) && negb (trans =? Op.ConjTrans) &&
            (negb (trans =? Op.Trans) || is_complex)).
  { assert (P2) by (apply (proj1 B2); reflexivity).
    repeat split; intros; try lia; try tauto. }
  assert (H2 : ~ P2) by (intros HP; apply B2 in HP; discriminate).
  destruct (negb (direction =? Direction.Backward) && negb (direction =? Direction.Forward)).
  { assert (~ P3) by (apply (proj1 B3); reflexivity).
    repeat split; intros; try lia; try tauto. }
  assert (H3 : P3) by (destruct C3 as [H | H]; [exact H | apply B3 in H; discriminate]).
  destruct (negb (storeMode =? StoreV.Columnwise) && negb (storeMode =? StoreV.Rowwise)).
  { assert (~ P4) by (apply (proj1 B4); reflexivity).
    repeat split; intros; try lia; try tauto. }
  assert (H4 : P4) by (destruct C4 as [H | H]; [exact H | apply B4 in H; discriminate]).
  clear B1 B2 B3 B4 C1 C3 C4.
  repeat match goal with
         | |- context [if ?b then Some _ else _] => destruct b
         end;
    repeat split; intros; try lia; try tauto.
Qed.

(** The returned [info] names the first argument that fails its check:
    -1 for [side], -2 for [trans], -3 for [direction], -4 for
    [storeMode], -5 to -8 for the access to [V], [T], [C], [W] once the
    four enumerations are valid; it is never below -8 nor above 0, and a
    call that returns a nonzero [info] leaves [C] and [W] as they were. *)
Theorem larfb_info_names_first_rejected_argument side trans direction storeMode
    (V T C W : matrix R) :
  -8 <= Lapack.info (Lapack.larfb side trans direction storeMode V T C W) <= 0 /\
  (Lapack.info (Lapack.larfb side trans direction storeMode V T C W) = -1 <->
   ~ valid_side side) /\
  (Lapack.info (Lapack.larfb side trans direction storeMode V T C W) = -2 <->
   valid_side side /\ Lapack.trans_rejected trans) /\
  (Lapack.info (Lapack.larfb side trans direction storeMode V T C W) = -3 <->
   valid_side side /\ ~ Lapack.trans_rejected trans /\
   ~ (direction = Direction.Forward \/ direction = Direction.Backward)) /\
  (Lapack.info (Lapack.larfb side trans direction storeMode V T C W) = -4 <->
   valid_side side /\ ~ Lapack.trans_rejected trans /\
   (direction = Direction.Forward \/ direction = Direction.Backward) /\
   ~ (storeMode = StoreV.Columnwise \/ storeMode = StoreV.Rowwise)) /\
  (Lapack.info (Lapack.larfb side trans direction storeMode V T C W) <= -5 ->
   valid_side side /\ ~ Lapack.trans_rejected trans /\
   (direction = Direction.Forward \/ direction = Direction.Backward) /\
   (storeMode = StoreV.Columnwise \/ storeMode = StoreV.Rowwise)) /\
  (Lapack.info (Lapack.larfb side trans direction storeMode V T C W) <> 0 ->
   Lapack.C_out (Lapack.larfb side trans direction storeMode V T C W) = C /\
   Lapack.W_out (Lapack.larfb side trans direction storeMode V T C W) = W).
Proof.
  rewrite larfb_info_of_check.
  pose proof (larfb_check_codes side trans direction storeMode V T C W) as Hc.
  destruct (Lapack.larfb_check side trans direction storeMode V T C W) as [code |] eqn:E.
  - destruct Hc as (Hr & H1 & H2 & H3 & H4 & H5).
    rewrite (larfb_rejected_untouched _ _ _ _ _ _ _ _ E).
    split; [lia |]. repeat (split; [assumption |]).
    intros _. split; reflexivity.
  - destruct Hc as (H1 & H2 & H3 & H4).
    split; [lia |].
    repeat split; intros; try lia; try tauto.
Qed.

End LarfbErrors.

(** ** The theorems on concrete inputs *)

Lemma triangular_factor_Tf_2x2 : Lapack.triangular_factor V_3x2 tau_2 Tf_2x2.
Proof.
  intros j Hj. cbn in Hj.
  destruct j as [| [| j]]; [| | lia].
  - split; [reflexivity | intros i Hi; lia].
  - split; [reflexivity |].
    intros i Hi. destruct i as [| i]; [reflexivity | lia].
Qed.

Lemma larfb_left_forward_columnwise_applies_H_witness :
  Lapack.triangular_factor V_3x2 tau_2 Tf_2x2 /\
  elt (Lapack.C_out
         (Lapack.larfb (AR := dense_Access Z) Side.Left Op.NoTrans Direction.Forward
            StoreV.Columnwise V_3x2 Tf_2x2 C_3x2 W_2x2)) 2 1 =
  elt (Lapack.mmul (Lapack.block_reflector V_3x2 Tf_2x2) C_3x2) 2 1 /\
  elt (Lapack.C_out
         (Lapack.larfb (AR := dense_Access Z) Side.Left Op.NoTrans Direction.Forward
            StoreV.Columnwise V_3x2 Tf_2x2 C_3x2 W_2x2)) 2 1 =
  elt (Lapack.apply_reflectors 2 V_3x2 tau_2 C_3x2) 2 1.
Proof.
  assert (Hcheck : Lapack.larfb_check (AR := dense_Access Z) Side.Left Op.NoTrans
                     Direction.Forward StoreV.Columnwise V_3x2 Tf_2x2 C_3x2 W_2x2 = None)
    by reflexivity.
  assert (Hshapes : Lapack.larfb_shapes Side.Left StoreV.Columnwise
                      V_3x2 Tf_2x2 C_3x2 W_2x2).
  { unfold Lapack.larfb_shapes; cbn. repeat split; lia. }
  destruct (@larfb_left_forward_columnwise_applies_H Z Z_Scalar Z_ScalarLaws (dense_Access Z)
              V_3x2 Tf_2x2 C_3x2 W_2x2 Hcheck Hshapes) as (_ & _ & _ & HH & Hseq).
  split; [exact triangular_factor_Tf_2x2 |].
  split.
  - apply HH; cbn; lia.
  - apply (Hseq tau_2 triangular_factor_Tf_2x2); cbn; lia.
Defined.

(** The same call, run: block application and sequential application
    give the same matrix. *)
Example larfb_Tf_2x2_result :
  map (fun i => map (fun j =>
    elt (Lapack.C_out
           (Lapack.larfb (AR := dense_Access Z) Side.Left Op.NoTrans Direction.Forward
              StoreV.Columnwise V_3x2 Tf_2x2 C_3x2 W_2x2)) i j) [0; 1]%nat) [0; 1; 2]%nat =
  map (fun i => map (fun j =>
    elt (Lapack.apply_reflectors 2 V_3x2 tau_2 C_3x2) i j) [0; 1]%nat) [0; 1; 2]%nat.
Proof. vm_compute. reflexivity. Qed.

Example larfb_3x2_result :
  map (fun i => map (fun j =>
    elt (Lapack.C_out
           (Lapack.larfb (AR := dense_Access Z) Side.Left Op.NoTrans Direction.Forward
              StoreV.Columnwise V_3x2 T_2x2 C_3x2 W_2x2)) i j) [0; 1]%nat) [0; 1; 2]%nat =
  [[-247; -306]; [-654; -808]; [-1383; -1702]]%Z.
Proof. vm_compute. reflexivity. Qed.

Lemma larfb_degenerate_is_noop_witness :
  Lapack.larfb (AR := dense_Access Z) Side.Left Op.NoTrans Direction.Forward
    StoreV.Columnwise V_3x2 T_2x2 C_0x2 W_2x2 = Lapack.mk_outcome 0%Z C_0x2 W_2x2 /\
  elt (Lapack.C_out
         (Lapack.larfb (AR := dense_Access Z) Side.Left Op.NoTrans Direction.Forward
            StoreV.Columnwise V_3x0 T_0x0 C_3x2 W_0x2)) 1 1 = 4%Z.
Proof.
  split.
  - apply (@larfb_degenerate_is_noop Z Z_Scalar Z_ScalarLaws (dense_Access Z)
             Side.Left Op.NoTrans Direction.Forward StoreV.Columnwise
             V_3x2 T_2x2 C_0x2 W_2x2).
    + reflexivity.
    + left; reflexivity.
  - change 4%Z with (elt C_3x2 1 1).
    apply (proj2 (@larfb_degenerate_is_noop Z Z_Scalar Z_ScalarLaws (dense_Access Z)
             Side.Left Op.NoTrans Direction.Forward StoreV.Columnwise
             V_3x0 T_0x0 C_3x2 W_0x2 eq_refl)).
    + unfold Lapack.larfb_shapes; cbn. repeat split; lia.
    + reflexivity.
Defined.

Lemma larfb_Trans_only_for_real_witness :
  Lapack.larfb (AR := dense_Access (Z * Z)) Side.Left Op.Trans Direction.Forward
    StoreV.Columnwise Vi_3x2 Ti_2x2 Ci_3x2 Wi_2x2 = Lapack.mk_outcome (-2)%Z Ci_3x2 Wi_2x2 /\
  Lapack.info (Lapack.larfb (AR := dense_Access Z) Side.Left Op.Trans Direction.Forward
                 StoreV.Columnwise V_3x2 T_2x2 C_3x2 W_2x2) <> (-2)%Z.
Proof.
  split.
  - apply (proj1 (proj1 (@larfb_Trans_only_for_real (Z * Z) Zi_Scalar (dense_Access (Z * Z))
                           Side.Left Direction.Forward StoreV.Columnwise
                           Vi_3x2 Ti_2x2 Ci_3x2 Wi_2x2) eq_refl)).
    left; reflexivity.
  - apply (proj2 (@larfb_Trans_only_for_real Z Z_Scalar (dense_Access Z)
                    Side.Left Direction.Forward StoreV.Columnwise
                    V_3x2 T_2x2 C_3x2 W_2x2)).
    reflexivity.
Defined.

(** A call on a complex type with [trans = Op::Trans] and a [side] that
    is neither [Side::Left] nor [Side::Right] (the code of ['X']): the
    error names [side], not [trans]. *)
Lemma larfb_Trans_with_invalid_side_names_side :
  88%Z <> Side.Left /\ 88%Z <> Side.Right /\
  Lapack.larfb (AR := dense_Access (Z * Z)) 88%Z Op.Trans Direction.Forward
    StoreV.Columnwise Vi_3x2 Ti_2x2 Ci_3x2 Wi_2x2 = Lapack.mk_outcome (-1)%Z Ci_3x2 Wi_2x2 /\
  Lapack.info (Lapack.larfb (AR := dense_Access (Z * Z)) 88%Z Op.Trans Direction.Forward
                 StoreV.Columnwise Vi_3x2 Ti_2x2 Ci_3x2 Wi_2x2) <> (-2)%Z.
Proof.
  split; [discriminate |]. split; [discriminate |].
  split; [reflexivity | discriminate].
Qed.

Section RsclInstances.
Local Open Scope Q_scope.

Lemma rscl_real_three_branches_witness :
  Tlapack.rscl 4 (1 # 4) 8 [2; 3] =
    Tlapack.scal (4 / 8) (Tlapack.scal (1 # 4) [2; 3]) /\
  Forall2 Qeq (Tlapack.rscl 4 (1 # 4) 8 [2; 3]) (map (fun xi => xi / 8) [2; 3]).
Proof.
  assert (H1 : (1 # 4) <= 4) by lra.
  assert (H2 : (1 # 4) * 4 == 1) by reflexivity.
  assert (H3 : ~ 8 == 0) by lra.
  pose proof (@rscl_real_three_branches 4 (1 # 4) 8 [2; 3] H1 H2 H3) as (B1 & _ & _ & _ & B5).
  split; [apply B1; reflexivity | exact B5].
Defined.

Lemma rscl_complex_zero_real_part_witness :
  Forall2 Tlapack.ceq
    (Tlapack.rscl_complex 4 (1 # 4) (Tlapack.mk_complex 0 8) [Tlapack.mk_complex 1 2])
    (map (fun z => Tlapack.cdiv z (Tlapack.mk_complex 0 8)) [Tlapack.mk_complex 1 2]).
Proof.
  assert (H1 : (1 # 4) <= 4) by lra.
  assert (H2 : (1 # 4) * 4 == 1) by reflexivity.
  assert (H3 : Tlapack.real (Tlapack.mk_complex 0 8) == 0) by reflexivity.
  assert (H4 : ~ Tlapack.imag (Tlapack.mk_complex 0 8) == 0) by (cbn; lra).
  exact (proj2 (proj2 (proj2 (proj2
           (@rscl_complex_zero_real_part 4 (1 # 4) (Tlapack.mk_complex 0 8)
              [Tlapack.mk_complex 1 2] H1 H2 H3 H4))))).
Defined.

End RsclInstances.

(** *** rscl on [double] *)

Section RsclDoubleInstances.
Import Floats.
Local Open Scope float_scope.

(** On [double] the real overload multiplies by the rounded reciprocal:
    whenever its two tests put [alpha = 49] in the safe range, as the
    thresholds of binary64 do, [x = [49]] becomes [49 * (1/49)], one unit
    in the last place below [49 / 49 = 1]. *)
Lemma rscl_double_is_not_division :
  (forall safeMax safeMin,
     Tlapack.Double.gtb (abs 49) safeMax = false -> (abs 49 <? safeMin) = false ->
     Tlapack.Double.rscl safeMax safeMin 49 [49] = [0x1.fffffffffffffp-1]) /\
  Tlapack.Double.rscl Tlapack.Double.safe_max Tlapack.Double.safe_min 49 [49] =
    [0x1.fffffffffffffp-1] /\
  map (fun xi => xi / 49) [49] = [1] /\
  (0x1.fffffffffffffp-1 <? 1) = true.
Proof.
  split.
  - intros safeMax safeMin Hmax Hmin. unfold Tlapack.Double.rscl.
    cbv zeta. rewrite Hmax, Hmin. reflexivity.
  - split; [reflexivity |]. split; reflexivity.
Qed.

(** On [std::complex<double>], [alpha = 49i] and [x = [49]]: the quotient
    is [-i] (as [(-i) * alpha = x] without rounding), and the routine
    returns [-0.99999999999999989 i], whatever the division of the
    library is and whenever the tests put 49 in the safe range, as the
    thresholds of binary64 do. *)
Lemma rscl_complex_double_is_not_division :
  (forall div_real safeMax safeMin,
     Tlapack.Double.gtb (abs 49) safeMax = false -> (abs 49 <? safeMin) = false ->
     Tlapack.Double.rscl_complex safeMax safeMin div_real
       (Tlapack.Double.mk_complex 0 49) [Tlapack.Double.mk_complex 49 0] =
     [Tlapack.Double.mk_complex 0 (-0x1.fffffffffffffp-1)]) /\
  (forall div_real,
     Tlapack.Double.rscl_complex Tlapack.Double.safe_max Tlapack.Double.safe_min div_real
       (Tlapack.Double.mk_complex 0 49) [Tlapack.Double.mk_complex 49 0] =
     [Tlapack.Double.mk_complex 0 (-0x1.fffffffffffffp-1)]) /\
  Tlapack.Double.cmul (Tlapack.Double.mk_complex 0 (-1)) (Tlapack.Double.mk_complex 0 49) =
    Tlapack.Double.mk_complex 49 0 /\
  (-1 <? -0x1.fffffffffffffp-1) = true.
Proof.
  split.
  - intros div_real safeMax safeMin Hmax Hmin. unfold Tlapack.Double.rscl_complex.
    cbv zeta. cbn [Tlapack.Double.real Tlapack.Double.imag].
    change (abs 49 =? 0) with false. change (abs 0 =? 0) with true.
    cbv iota. rewrite Hmax, Hmin. reflexivity.
  - split; [intros div_real; reflexivity |]. split; reflexivity.
Qed.

(** [alpha = 0] on [double]: below the safe range, and the second factor
    [safeMin / 0] is infinite. *)
Example rscl_double_zero_alpha :
  Tlapack.Double.rscl Tlapack.Double.safe_max Tlapack.Double.safe_min 0 [1; 0] =
  [infinity; nan].
Proof. reflexivity. Qed.

End RsclDoubleInstances.



Lemma drivers_complete_witness :
  (exists A', Tlapack.ungqr keep3 C_2x2 [1; 1]%Z Tlapack.default_Opts = Tlapack.Return 0 A') /\
  (exists C', Tlapack.unmlq keep6 false Side.Left Op.NoTrans A_3x2 [1; 1; 1]%Z C_2x2
                Tlapack.default_Opts = Tlapack.Return 0 C') /\
  (exists C', Tlapack.unmrq keep6 Side.Right Op.ConjTrans A_3x2 [1; 1; 1]%Z C_2x2
                Tlapack.default_Opts = Tlapack.Return 0 C').
Proof.
  assert (Hnb : (1 <= Tlapack.nb Tlapack.default_Opts)%nat) by (cbn; lia).
  assert (Hok : forall cplx side trans,
            valid_side side -> trans = Op.NoTrans \/ trans = Op.ConjTrans ->
            ~ rejected cplx side trans).
  { intros cplx side trans Hs Ht [H | [H | [H _]]].
    - apply H; exact Hs.
    - apply H. destruct Ht as [-> | ->]; [left | right; right]; reflexivity.
    - destruct Ht as [-> | ->]; discriminate. }
  split; [| split].
  - apply (proj1 (@drivers_complete Z Z_Scalar keep3 keep6 keep6 false
                    Side.Left Op.NoTrans C_2x2 [1; 1]%Z C_2x2 Tlapack.default_Opts
                    Hnb ltac:(cbn; lia))).
    cbn; lia.
  - apply (proj1 (proj2 (@drivers_complete Z Z_Scalar keep3 keep6 keep6 false
                    Side.Left Op.NoTrans A_3x2 [1; 1; 1]%Z C_2x2 Tlapack.default_Opts
                    Hnb ltac:(cbn; lia)))).
    apply Hok; [left; reflexivity | left; reflexivity].
  - apply (proj2 (proj2 (@drivers_complete Z Z_Scalar keep3 keep6 keep6 false
                    Side.Right Op.ConjTrans A_3x2 [1; 1; 1]%Z C_2x2 Tlapack.default_Opts
                    Hnb ltac:(cbn; lia)))).
    apply Hok; [right; reflexivity | right; reflexivity].
Defined.

Lemma unmrq_worksize_monotone_witness :
  Tlapack.WorkInfo.le
    (Tlapack.unmrq_worksize (WQ := Tlapack.spec_WorkQueries) true Side.Left Op.NoTrans
       (3, 6)%nat 3 (6, 4)%nat Tlapack.default_Opts)
    (Tlapack.unmrq_worksize (WQ := Tlapack.spec_WorkQueries) true Side.Left Op.NoTrans
       (3, 6)%nat 3 (8, 7)%nat Tlapack.default_Opts).
Proof.
  apply (unmrq_worksize_monotone (WL := spec_WorkQueriesLaws)); lia.
Defined.

Lemma ungqr_no_reflector_divides_by_zero_witness :
  exists A', Tlapack.ungqr keep3 C_2x2 [] Tlapack.default_Opts = Tlapack.Trap A'.
Proof.
  apply (@ungqr_no_reflector_divides_by_zero Z Z_Scalar keep3 C_2x2 Tlapack.default_Opts).
  cbn; lia.
Defined.
(** The Gaussian integers are a commutative ring. *)
Lemma Zi_ScalarLaws : ScalarLaws (Z * Z).
Proof.
  split.
  - split; intros;
      repeat match goal with x : (Z * Z)%type |- _ => destruct x end;
      unfold s_add, s_mul, s_sub, s_opp, s_zero, s_one, Zi_Scalar, Zi_mul;
      cbn [fst snd]; f_equal; ring.
  - intros [a b] [c d]. cbn. rewrite andb_true_iff, !Z.eqb_eq.
    split; [intros [-> ->]; reflexivity | intros H; inversion H; auto].
Qed.

Lemma larfb_left_applies_op_H_witness :
  elt (Lapack.C_out
         (Lapack.larfb (AR := dense_Access (Z * Z)) Side.Left Op.ConjTrans
            Direction.Backward StoreV.Rowwise Vi_2x3 Ti_2x2 Ci_3x2 Wi_2x2)) 0 1 =
  elt (Lapack.mmul
         (Lapack.block_reflector_op Op.ConjTrans Direction.Backward StoreV.Rowwise
            Vi_2x3 Ti_2x2) Ci_3x2) 0 1.
Proof.
  assert (Hcheck : Lapack.larfb_check (AR := dense_Access (Z * Z)) Side.Left Op.ConjTrans
                     Direction.Backward StoreV.Rowwise Vi_2x3 Ti_2x2 Ci_3x2 Wi_2x2 = None)
    by reflexivity.
  assert (Hshapes : Lapack.larfb_shapes Side.Left StoreV.Rowwise
                      Vi_2x3 Ti_2x2 Ci_3x2 Wi_2x2).
  { unfold Lapack.larfb_shapes; cbn. repeat split; lia. }
  destruct (@larfb_left_applies_op_H (Z * Z) Zi_Scalar Zi_ScalarLaws (dense_Access (Z * Z))
              Op.ConjTrans Direction.Backward StoreV.Rowwise
              Vi_2x3 Ti_2x2 Ci_3x2 Wi_2x2 Hcheck Hshapes) as (_ & _ & _ & HH).
  apply HH; cbn; lia.
Defined.

Lemma larfb_right_applies_op_H_witness :
  elt (Lapack.C_out
         (Lapack.larfb (AR := dense_Access (Z * Z)) Side.Right Op.NoTrans
            Direction.Backward StoreV.Columnwise Vi_2x2 Ti_2x2 Ci_3x2 Wi_3x2)) 2 0 =
  elt (Lapack.mmul Ci_3x2
         (Lapack.block_reflector_op Op.NoTrans Direction.Backward StoreV.Columnwise
            Vi_2x2 Ti_2x2)) 2 0.
Proof.
  assert (Hcheck : Lapack.larfb_check (AR := dense_Access (Z * Z)) Side.Right Op.NoTrans
                     Direction.Backward StoreV.Columnwise Vi_2x2 Ti_2x2 Ci_3x2 Wi_3x2 = None)
    by reflexivity.
  assert (Hshapes : Lapack.larfb_shapes Side.Right StoreV.Columnwise
                      Vi_2x2 Ti_2x2 Ci_3x2 Wi_3x2).
  { unfold Lapack.larfb_shapes; cbn. repeat split; lia. }
  destruct (@larfb_right_applies_op_H (Z * Z) Zi_Scalar Zi_ScalarLaws (dense_Access (Z * Z))
              Op.NoTrans Direction.Backward StoreV.Columnwise
              Vi_2x2 Ti_2x2 Ci_3x2 Wi_3x2 Hcheck Hshapes) as (_ & _ & _ & HH).
  apply HH; cbn; lia.
Defined.

(** The first call, run: every entry of the result is the entry of the
    product with the operator. *)
Example larfb_left_rowwise_backward_result :
  map (fun i => map (fun j =>
    elt (Lapack.C_out
           (Lapack.larfb (AR := dense_Access (Z * Z)) Side.Left Op.ConjTrans
              Direction.Backward StoreV.Rowwise Vi_2x3 Ti_2x2 Ci_3x2 Wi_2x2)) i j)
    [0; 1]%nat) [0; 1; 2]%nat =
  [[(-14, -73); (-14, -73)]; [(-44, -40); (-44, -40)]; [(-11, -10); (-11, -10)]]%Z /\
  map (fun i => map (fun j =>
    elt (Lapack.mmul
           (Lapack.block_reflector_op Op.ConjTrans Direction.Backward StoreV.Rowwise
              Vi_2x3 Ti_2x2) Ci_3x2) i j)
    [0; 1]%nat) [0; 1; 2]%nat =
  [[(-14, -73); (-14, -73)]; [(-44, -40); (-44, -40)]; [(-11, -10); (-11, -10)]]%Z.
Proof. split; vm_compute; reflexivity. Qed.

Lemma unmlq_sweeps_blocks_witness :
  Tlapack.unmlq trace6 false Side.Left Op.NoTrans A_3x2 [1; 1; 1]%Z C_2x2 (Tlapack.mk_Opts 2) =
  Tlapack.Return 0
    (fold_left (fun X b => trace6 Side.Left Op.NoTrans (fst b) (snd b) A_3x2 [1; 1; 1]%Z X)
       (Tlapack.blocks 3 2) C_2x2).
Proof.
  apply (proj1 (@unmlq_sweeps_blocks Z trace6 false Side.Left Op.NoTrans A_3x2 [1; 1; 1]%Z
                  C_2x2 (Tlapack.mk_Opts 2) 3 2 eq_refl eq_refl
                  ltac:(cbn; lia) ltac:(lia) ltac:(cbn; lia) ltac:(cbn; lia)
                  ltac:(intros [H | [H | [H _]]];
                        [apply H; left; reflexivity
                        | apply H; left; reflexivity
                        | discriminate]))).
  left. split; reflexivity.
Defined.

Lemma unmrq_sweeps_blocks_witness :
  Tlapack.unmrq trace6 Side.Left Op.NoTrans A_3x2 [1; 1; 1]%Z C_2x2 (Tlapack.mk_Opts 2) =
  Tlapack.Return 0
    (fold_left (fun X b => trace6 Side.Left Op.NoTrans (fst b) (snd b) A_3x2 [1; 1; 1]%Z X)
       (rev (Tlapack.blocks 3 2)) C_2x2).
Proof.
  apply (proj1 (proj2 (@unmrq_sweeps_blocks Z Z_Scalar trace6 Side.Left Op.NoTrans A_3x2
                  [1; 1; 1]%Z C_2x2 (Tlapack.mk_Opts 2) 3 2 eq_refl eq_refl
                  ltac:(cbn; lia) ltac:(lia) ltac:(cbn; lia) ltac:(cbn; lia)
                  ltac:(intros [H | [H | [H _]]];
                        [apply H; left; reflexivity
                        | apply H; left; reflexivity
                        | discriminate])))).
  left. split; reflexivity.
Defined.

Lemma ungqr_sweeps_blocks_downwards_witness :
  Tlapack.ungqr trace3 A_3x2 [1; 1]%Z (Tlapack.mk_Opts 1) =
  Tlapack.Return 0
    (fold_left (fun X b => Tlapack.ungqr_step trace3 [1; 1]%Z (fst b) (snd b) X)
       (rev (Tlapack.blocks 2 1)) (Tlapack.ungqr_init A_3x2 [1; 1]%Z)).
Proof.
  apply (proj1 (@ungqr_sweeps_blocks_downwards Z Z_Scalar trace3 A_3x2 [1; 1]%Z
                  (Tlapack.mk_Opts 1) 2 1 eq_refl eq_refl
                  ltac:(cbn; lia) ltac:(lia) ltac:(cbn; lia))).
Defined.

(** The three drivers, run on three reflectors in blocks of two (ungqr:
    two reflectors in blocks of one): the trace in entry (0,0) shows the
    order of the blocks. *)
Example drivers_block_order :
  match Tlapack.unmlq trace6 false Side.Left Op.NoTrans A_3x2 [1; 1; 1]%Z C_2x2
          (Tlapack.mk_Opts 2) with
  | Tlapack.Return _ X => elt X 0 0
  | _ => (-1)%Z
  end = 102%Z /\
  match Tlapack.unmrq trace6 Side.Left Op.NoTrans A_3x2 [1; 1; 1]%Z C_2x2
          (Tlapack.mk_Opts 2) with
  | Tlapack.Return _ X => elt X 0 0
  | _ => (-1)%Z
  end = 120%Z /\
  Tlapack.blocks 3 2 = [(0, 2); (2, 1)]%Z.
Proof. repeat split; vm_compute; reflexivity. Qed.

Section RsclComplexInstances.
Local Open Scope Q_scope.

Lemma rscl_complex_divides_by_alpha_witness :
  Forall2 Tlapack.ceq
    (Tlapack.rscl_complex 4 (1 # 4) (Tlapack.mk_complex 3 5)
       [Tlapack.mk_complex 1 2; Tlapack.mk_complex 0 7])
    (map (fun z => Tlapack.cdiv z (Tlapack.mk_complex 3 5))
       [Tlapack.mk_complex 1 2; Tlapack.mk_complex 0 7]).
Proof.
  apply (@rscl_complex_divides_by_alpha 4 (1 # 4) (Tlapack.mk_complex 3 5)).
  - reflexivity.
  - cbn. intros [H _]. discriminate.
Defined.

(** The same call, run: [|imag alpha| = 5] is above [safeMax = 4], and the
    vector is scaled by [safeMin] before it is scaled by
    [safeMax / alpha]. *)
Example rscl_complex_large_imaginary_part :
  Tlapack.rscl_complex 4 (1 # 4) (Tlapack.mk_complex 3 5) [Tlapack.mk_complex 1 2] =
  Tlapack.scal (Tlapack.div_real 4 (Tlapack.mk_complex 3 5))
    (Tlapack.scal (1 # 4) [Tlapack.mk_complex 1 2]).
Proof. reflexivity. Qed.

End RsclComplexInstances.

Lemma drivers_divide_by_zero_block_size_witness :
  Tlapack.unmlq keep6 false Side.Left Op.NoTrans A_3x2 [1; 1; 1]%Z C_2x2 (Tlapack.mk_Opts 0) =
  Tlapack.Trap C_2x2.
Proof.
  apply (proj1 (proj2 (@drivers_divide_by_zero_block_size Z Z_Scalar keep3 keep6 keep6 false
                  Side.Left Op.NoTrans A_3x2 [1; 1; 1]%Z C_2x2 (Tlapack.mk_Opts 0) eq_refl)
                  ltac:(cbn; lia) ltac:(cbn; lia) ltac:(cbn; lia))).
  intros [H | [H | [H _]]];
    [apply H; left; reflexivity | apply H; left; reflexivity | discriminate].
Defined.
